(** * mne/fixes.py: compatibility fallbacks, embedded and verified

    The Python module [mne/fixes.py] binds, once at import time, a handful
    of public names either to the routine of the installed numpy/scipy or
    to a local fallback.  This development embeds the fallbacks
    ([_bincount], [_copysign], [_unique], [_in1d], [_filtfilt],
    [_firwin2]) and states the properties of the specification over them.

    Conventions.
    - A Python [int] is a [Z]; an entry of a numpy array of the integer
      dtype is a [Z] in the range of 64 bits, and the operations that can
      leave that range ([float_to_int], the arithmetic of [_copysign])
      write out what the dtype does there.
    - A [float64] is modelled by an exact rational ([Qc], canonical
      fractions, so that equality is Leibniz equality).  Every concrete
      input used below is a dyadic rational on which the float operations
      of the source are exact.
    - A Python exception is a value of [error]; a call that may raise
      returns a [result].
    - numpy/scipy primitives that the fallbacks call are modelled from
      their documented behaviour; each such definition says so. *)

From Stdlib Require Import String.
From Stdlib Require Import ZArith List Bool Lia QArith Qcanon.
From Stdlib Require Import Sorted Permutation Arith PeanoNat.
Import ListNotations.

Set Implicit Arguments.
Open Scope Z_scope.

(** ** Exceptions and results *)

(** The error taxonomy of the specification.  [InvalidArgument] and
    [InsufficientDataLength] are both [ValueError] in the source; the
    remaining constructors are the exceptions that the Python run time or
    the numeric library can raise underneath a fallback. *)
Inductive error : Type :=
| InvalidArgument (msg : string)
| InsufficientDataLength (edge : Z)
| IndexError
| LinAlgError
| LibraryValueError (msg : string).

Inductive result (A : Type) : Type :=
| Ok (a : A)
| Err (e : error).

Arguments Ok {A} a.
Arguments Err {A} e.

Definition rbind {A B} (r : result A) (k : A -> result B) : result B :=
  match r with
  | Ok a => k a
  | Err e => Err e
  end.

Notation "'let*' x ':=' r 'in' k" := (rbind r (fun x => k))
  (at level 10, x pattern, r at level 100, k at level 200).

Definition is_ok {A} (r : result A) : bool :=
  match r with Ok _ => true | Err _ => false end.

(** ** One-dimensional arrays *)

(** A one-dimensional numpy array is either of integer or of float dtype. *)
Inductive ndarray1 : Type :=
| IntArray (l : list Z)
| FloatArray (l : list Qc).

Definition len (r : ndarray1) : Z :=
  match r with
  | IntArray l => Z.of_nat (length l)
  | FloatArray l => Z.of_nat (length l)
  end.

(** The integer dtype [np.int] is the C long, a 64-bit integer in two's
    complement; its arithmetic wraps around. *)
Definition int64_min : Z := - 2 ^ 63.
Definition int64_max : Z := 2 ^ 63 - 1.

Definition is_int64 (z : Z) : Prop := int64_min <= z <= int64_max.

Definition wrap_int64 (z : Z) : Z := (z - int64_min) mod 2 ^ 64 + int64_min.

(** Conversion of a float to the integer dtype: C truncation toward zero.
    A float whose integer part is outside the dtype converts to the least
    integer, which is what the conversion instruction of x86-64 gives
    (the C standard leaves that case open). *)
Definition float_to_int (q : Qc) : Z :=
  let t := Z.quot (Qnum q) (Zpos (Qden q)) in
  if (int64_min <=? t) && (t <=? int64_max) then t else int64_min.

(** What the conversion is to do, stated without it: [z] is the integer
    part of [q], the integer at or next to [q] on the side of zero. *)
Definition integer_part (q : Qc) (z : Z) : Prop :=
  ((0 <= q)%Qc -> (Q2Qc (inject_Z z) <= q)%Qc /\ (q < Q2Qc (inject_Z (z + 1)))%Qc) /\
  ((q <= 0)%Qc -> (q <= Q2Qc (inject_Z z))%Qc /\ (Q2Qc (inject_Z (z - 1)) < q)%Qc).

(** The floats whose integer part the dtype holds. *)
Definition fits_int64 (q : Qc) : Prop :=
  (Q2Qc (inject_Z (int64_min - 1)) < q)%Qc /\ (q < Q2Qc (inject_Z (int64_max + 1)))%Qc.

(** Entry [k] of an array as an entry [z] of the integer dtype: an
    integer is kept, a float that fits is truncated toward zero, a float
    that does not fit gives the least integer. *)
Definition as_integer (r : ndarray1) (k : nat) (z : Z) : Prop :=
  match r with
  | IntArray l => z = nth k l 0
  | FloatArray l =>
    let q := nth k l 0%Qc in
    (fits_int64 q -> integer_part q z) /\ (~ fits_int64 q -> z = int64_min)
  end.

Definition astype_int (r : ndarray1) : list Z :=
  match r with
  | IntArray l => l
  | FloatArray l => map float_to_int l
  end.

(** ** [_bincount] *)

(** [np.bincount(X, weights)], modelled from the numpy documentation (the
    releases before 1.6, the only ones under which the fallback is bound):
    entry [k] of the result counts the occurrences of [k] in [X], or sums
    the weights found at those positions; the result has [max(X) + 1]
    entries; a negative entry, an empty [X] or a weight vector of another
    length raise [ValueError]. *)
Definition count_at (X : list Z) (k : Z) : Z :=
  Z.of_nat (length (filter (Z.eqb k) X)).

Definition weight_at (X : list Z) (w : list Qc) (k : Z) : Qc :=
  fold_right (fun (p : Z * Qc) acc => if Z.eqb k (fst p) then (snd p + acc)%Qc else acc)
             (Q2Qc 0) (combine X w).

Definition bins (X : list Z) : list Z :=
  map Z.of_nat (seq 0 (Z.to_nat (fold_right Z.max 0 X + 1))).

Definition np_bincount (X : list Z) (weights : option (list Qc)) : result ndarray1 :=
  if existsb (fun v => v <? 0) X then
    Err (LibraryValueError "The first argument of bincount must be non-negative")
  else match X with
  | [] => Err (LibraryValueError "The first argument cannot be empty.")
  | _ =>
    match weights with
    | None => Ok (IntArray (map (count_at X) (bins X)))
    | Some w =>
      if Nat.eqb (length w) (length X)
      then Ok (FloatArray (map (weight_at X w) (bins X)))
      else Err (LibraryValueError "The weights and list don't have the same length.")
    end
  end.

(** [np.zeros(n, np.int)] for a non-negative [n]. *)
Definition np_zeros_int (n : Z) : list Z := repeat 0 (Z.to_nat n).

(** [out[:n] = result] on an integer array [out]: the values are cast to
    the integer dtype and overwrite the first [n] entries.  numpy raises
    when the number of values is neither the extent of the slice nor one. *)
Definition assign_prefix (out : list Z) (n : nat) (vals : list Z) : result (list Z) :=
  let extent := Nat.min n (length out) in
  if Nat.eqb (length vals) extent then Ok (vals ++ skipn extent out)
  else match vals with
       | [v] => Ok (repeat v extent ++ skipn extent out)
       | _ => Err (LibraryValueError "could not broadcast input array")
       end.

(** The comparison [len(result) >= minlength].  With [minlength=None]
    (the default) Python 2 orders [None] below every integer, so the
    comparison holds. *)
Definition len_ge (r : ndarray1) (minlength : option Z) : bool :=
  match minlength with
  | None => true
  | Some m => m <=? len r
  end.

Definition _bincount (X : list Z) (weights : option (list Qc))
                     (minlength : option Z) : result ndarray1 :=
  let* result := np_bincount X weights in
  if len_ge result minlength then Ok result
  else
    let out := np_zeros_int (match minlength with Some m => m | None => 0 end) in
    let* out := assign_prefix out (Z.to_nat (len result)) (astype_int result) in
    Ok (IntArray out).

(** ** [_copysign] *)

(** [np.abs], [np.sign] and the product on integers of the 64-bit dtype
    (Python integers become such).  [np.sign] is [-1], [0] or [1]; the
    absolute value and the product wrap around, so [np.abs] of the least
    integer is that integer itself. *)
Definition np_abs (x : Z) : Z := wrap_int64 (Z.abs x).

Definition np_sign (x : Z) : Z := Z.sgn x.

Definition np_multiply (x y : Z) : Z := wrap_int64 (x * y).

Definition _copysign (x1 x2 : Z) : Z := np_multiply (np_abs x1) (np_sign x2).

(** ** Index arrays, masks and stable sorting *)

(** Fancy indexing [a[idx]] with an array of in-range indices. *)
Definition take {A} (d : A) (a : list A) (idx : list nat) : list A :=
  map (fun i => nth i a d) idx.

(** Boolean-mask indexing [a[flag]]. *)
Fixpoint mask {A} (flag : list bool) (a : list A) : list A :=
  match flag, a with
  | f :: flag', x :: a' => if f then x :: mask flag' a' else mask flag' a'
  | _, _ => []
  end.

(** Elementwise comparison of [a[1:]] with [a[:-1]]. *)
Fixpoint map2 {A B C} (f : A -> B -> C) (l1 : list A) (l2 : list B) : list C :=
  match l1, l2 with
  | x :: l1', y :: l2' => f x y :: map2 f l1' l2'
  | _, _ => []
  end.

Definition neq_adjacent (a : list Z) : list bool :=
  map2 (fun x y => negb (x =? y)) (tl a) (removelast a).

Definition eq_adjacent (a : list Z) : list bool :=
  map2 Z.eqb (tl a) (removelast a).

(** [np.cumsum] of a boolean array (booleans count as 0 and 1). *)
Fixpoint cumsum_from (acc : Z) (flag : list bool) : list Z :=
  match flag with
  | [] => []
  | f :: flag' =>
    let acc' := acc + (if f then 1 else 0) in
    acc' :: cumsum_from acc' flag'
  end.

Definition np_cumsum (flag : list bool) : list Z := cumsum_from 0 flag.

(** [a.argsort(kind='mergesort')], modelled from the numpy documentation:
    the permutation of the indices that sorts [a], stable, so indices of
    equal values keep their order.  That is the indices sorted by the
    pair (value, index).  The default [a.argsort()] also returns a sorting
    permutation; the results of [_unique] do not depend on how it orders
    equal values, and it is modelled by the same function. *)
Definition lex_lt (a : list Z) (i j : nat) : bool :=
  (nth i a 0 <? nth j a 0) || ((nth i a 0 =? nth j a 0) && (i <? j)%nat).

Fixpoint insert_index (a : list Z) (i : nat) (l : list nat) : list nat :=
  match l with
  | [] => [i]
  | j :: l' => if lex_lt a i j then i :: l else j :: insert_index a i l'
  end.

Definition argsort (a : list Z) : list nat :=
  fold_right (insert_index a) [] (seq 0 (length a)).

(** [a.sort()] on a private copy. *)
Definition np_sort (a : list Z) : list Z := take 0 a (argsort a).

(** ** [_unique] *)

(** The tuple that [_unique] returns: the values, and the index and
    inverse arrays when they were asked for. *)
Record unique_result : Type := mk_unique {
  u_values : list Z;
  u_index : option (list nat);
  u_inverse : option (list Z)
}.

(** [ar] is the flattened one-dimensional array ([ar.flatten()] copies, so
    the caller's array is never touched). *)
Definition _unique (ar : list Z) (return_index return_inverse : bool) : unique_result :=
  match ar with
  | [] =>
    mk_unique ar (if return_index then Some [] else None)
                 (if return_inverse then Some [] else None)
  | _ =>
    if return_inverse || return_index then
      let perm := argsort ar in
      let aux := take 0 ar perm in
      let flag := true :: neq_adjacent aux in
      if return_inverse then
        let iflag := map (fun c => c - 1) (np_cumsum flag) in
        let iperm := argsort (map Z.of_nat perm) in
        if return_index then
          mk_unique (mask flag aux) (Some (mask flag perm)) (Some (take 0 iflag iperm))
        else
          mk_unique (mask flag aux) None (Some (take 0 iflag iperm))
      else
        mk_unique (mask flag aux) (Some (mask flag perm)) None
    else
      let ar := np_sort ar in
      let flag := true :: neq_adjacent ar in
      mk_unique (mask flag ar) None None
  end.

(** The module-level name [unique]: under Python 2 the version test
    compares a list with a tuple and always selects [_unique]. *)
Definition unique := _unique.

(** [np.unique(ar)], modelled from the numpy documentation: the sorted
    distinct values of [ar]. *)
Definition np_unique (ar : list Z) : list Z :=
  let s := np_sort ar in mask (true :: neq_adjacent s) s.

(** ** [_in1d] *)

Definition _in1d (ar1 ar2 : list Z) (assume_unique : bool) : list bool :=
  let '(ar1, ar2, rev_idx) :=
    if negb assume_unique then
      let u := unique ar1 false true in
      (u_values u, np_unique ar2,
       match u_inverse u with Some r => r | None => [] end)
    else (ar1, ar2, []) in
  let ar := ar1 ++ ar2 in
  let order := argsort ar in
  let sar := take 0 ar order in
  let equal_adj := eq_adjacent sar in
  let flag := equal_adj ++ [false] in
  let indx := firstn (length ar1) (argsort (map Z.of_nat order)) in
  if assume_unique then take false flag indx
  else take false (take false flag indx) (map Z.to_nat rev_idx).

(** ** Float arrays: elementwise arithmetic and slicing *)

Definition Qc_eqb (p q : Qc) : bool := if Qc_eq_dec p q then true else false.
Definition Qc_ltb (p q : Qc) : bool := if Qclt_le_dec p q then true else false.

(** Update of one entry of a list; the index is in range wherever the
    source writes [l[k] = v]. *)
Fixpoint list_set {A} (k : nat) (v : A) (l : list A) : list A :=
  match l, k with
  | [], _ => []
  | _ :: l', O => v :: l'
  | x :: l', S k' => x :: list_set k' v l'
  end.

(** Elementwise binary operation on one-dimensional arrays, with numpy's
    broadcasting of an operand of extent one. *)
Definition broadcast2 {A B C} (f : A -> B -> C) (l1 : list A) (l2 : list B)
  : result (list C) :=
  if Nat.eqb (length l1) (length l2) then Ok (map2 f l1 l2)
  else match l1, l2 with
       | [x], _ => Ok (map (f x) l2)
       | _, [y] => Ok (map (fun x => f x y) l1)
       | _, _ => Err (LibraryValueError "operands could not be broadcast together")
       end.

(** The bounds of a Python slice [start:stop] (step one) over [n] items:
    the first index and the number of items taken. *)
Definition clip_index (n : nat) (i : Z) : nat :=
  Z.to_nat (Z.min (Z.of_nat n) (Z.max 0 (if i <? 0 then Z.of_nat n + i else i))).

Definition slice_bounds (n : nat) (start stop : option Z) : nat * nat :=
  let lo := match start with None => O | Some s => clip_index n s end in
  let hi := match stop with None => n | Some s => clip_index n s end in
  (lo, (hi - lo)%nat).

Definition py_slice {A} (l : list A) (start stop : option Z) : list A :=
  let '(lo, cnt) := slice_bounds (length l) start stop in
  firstn cnt (skipn lo l).

(** [np.diff(a)]: [a[1:] - a[:-1]]. *)
Definition np_diff (a : list Qc) : list Qc :=
  map2 (fun x y => (x - y)%Qc) (tl a) (removelast a).

(** ** [_firwin2] *)

(** The numeric primitives that [_firwin2] calls work on transcendental
    and complex values; they are taken as an interface, each with the
    extent of its result as the numpy/scipy documentation gives it.
    [ceil_log2 n] is [int(ceil(log(n, 2)))] for a positive [n]. *)
Class FirBackend : Type := {
  complex : Type;
  window_spec : Type;
  ceil_log2 : Z -> Z;
  np_linspace : Qc -> Qc -> Z -> list Qc;
  np_interp : list Qc -> list Qc -> list Qc -> list Qc;
  phase_shift : Z -> Qc -> list Qc -> list complex;
  scale : Qc -> complex -> complex;
  irfft : list complex -> result (list Qc);
  get_window : window_spec -> Z -> list Qc;
  ceil_log2_spec : forall n, 1 <= n -> 0 <= ceil_log2 n /\ n <= 2 ^ ceil_log2 n;
  np_linspace_length : forall lo hi n, 0 <= n -> length (np_linspace lo hi n) = Z.to_nat n;
  np_interp_length : forall x xp fp, length (np_interp x xp fp) = length x;
  phase_shift_length : forall n nyq x, length (phase_shift n nyq x) = length x;
  irfft_length : forall l, (2 <= length l)%nat ->
    exists out, irfft l = Ok out /\ length out = (2 * (length l - 1))%nat;
  get_window_length : forall w n, length (get_window w n) = Z.to_nat n
}.

(** [np.finfo(float).eps]. *)
Definition eps : Qc := Q2Qc (1 # 4503599627370496).

(** The floats [k * eps] with [|k| <= 2 ^ 53]: binary64 holds each of
    them exactly, so a difference or sum of two of them that is again one
    of them is computed without rounding. *)
Definition eps_multiple (bound : Z) (x : Qc) : Prop :=
  exists k : Z, Z.abs k <= bound /\ x = (Q2Qc (inject_Z k) * eps)%Qc.

(** One turn of the loop that tweaks repeated values of [freq]; the two
    assignments write into the caller's [freq].  The difference and the
    sum are taken exactly: that is what binary64 computes as long as the
    entries are multiples of [eps] below 2 in magnitude (elsewhere the
    float operations round). *)
Definition tweak_step (freq : list Qc) (k : nat) : list Qc :=
  if (k <? length freq - 1)%nat && Qc_eqb (nth k freq 0%Qc) (nth (k + 1) freq 0%Qc)
  then
    let freq := list_set k (nth k freq 0 - eps)%Qc freq in
    list_set (k + 1) (nth (k + 1) freq 0 + eps)%Qc freq
  else freq.

Definition tweak (freq : list Qc) : list Qc :=
  fold_left tweak_step (seq 0 (length freq)) freq.

Definition msg_same_length : string := "freq and gain must be of same length.".
Definition msg_ntaps : string := "ntaps must be less than nfreqs".
Definition msg_start_end : string := "freq must start with 0 and end with `nyq`.".
Definition msg_nondecreasing : string := "The values in freq must be nondecreasing.".
Definition msg_twice : string := "A value in freq must not occur more than twice.".
Definition msg_even_nyquist : string :=
  "A filter with an even number of coefficients must have zero gain at the Nyquist rate.".

(** The default interpolation mesh, [1 + 2 ** int(ceil(log(numtaps, 2)))];
    [math.log] raises [ValueError] on a non-positive argument. *)
Definition default_nfreqs `{FirBackend} (numtaps : Z) : result Z :=
  if numtaps <=? 0 then Err (LibraryValueError "math domain error")
  else Ok (1 + 2 ^ ceil_log2 numtaps).

(** The part of [_firwin2] after the tweak of [freq]: interpolation on
    the mesh, phase shift, inverse FFT and windowing. *)
Definition design `{FirBackend} (numtaps : Z) (freq gain : list Qc) (nfreqs : Z)
           (window : option window_spec) (nyq : Qc) : result (list Qc) :=
  let x := np_linspace 0%Qc nyq nfreqs in
  let fx := np_interp x freq gain in
  let shift := phase_shift numtaps nyq x in
  let* fx2 := broadcast2 scale fx shift in
  let* out_full := irfft fx2 in
  let head := py_slice out_full None (Some numtaps) in
  match window with
  | Some w => broadcast2 Qcmult head (get_window w numtaps)
  | None => Ok (map (fun v => (v * 1)%Qc) head)
  end.

(** [_firwin2] returns the contents of the caller's [freq] after the call
    together with the coefficients or the exception. *)
Definition _firwin2 `{FirBackend} (numtaps : Z) (freq gain : list Qc)
           (nfreqs : option Z) (window : option window_spec) (nyq : Qc)
  : list Qc * result (list Qc) :=
  if negb (Nat.eqb (length freq) (length gain)) then
    (freq, Err (InvalidArgument msg_same_length))
  else if match nfreqs with Some n => n <=? numtaps | None => false end then
    (freq, Err (InvalidArgument msg_ntaps))
  else match freq with
  | [] => (freq, Err IndexError)
  | f0 :: _ =>
    if negb (Qc_eqb f0 0%Qc) || negb (Qc_eqb (last freq 0%Qc) nyq) then
      (freq, Err (InvalidArgument msg_start_end))
    else
      let d := np_diff freq in
      if existsb (fun v => Qc_ltb v 0%Qc) d then
        (freq, Err (InvalidArgument msg_nondecreasing))
      else
        let d2 := map2 Qcplus (removelast d) (tl d) in
        if existsb (fun v => Qc_eqb v 0%Qc) d2 then
          (freq, Err (InvalidArgument msg_twice))
        else if (numtaps mod 2 =? 0) && negb (Qc_eqb (last gain 0%Qc) 0%Qc) then
          (freq, Err (InvalidArgument msg_even_nyquist))
        else
          match (match nfreqs with Some n => Ok n | None => default_nfreqs numtaps end) with
          | Err e => (freq, Err e)
          | Ok nfreqs =>
            let freq := tweak freq in
            (freq, design numtaps freq gain nfreqs window nyq)
          end
  end.

(** ** n-dimensional float arrays *)

(** An array is its shape and its entries, read by a multi-index. *)
Record ndarray : Type := mk_ndarray {
  shape : list nat;
  get : list nat -> Qc
}.

Definition ndim (x : ndarray) : nat := length (shape x).

(** A multi-index addresses an entry when each coordinate is below the
    extent of its axis. *)
Definition in_bounds (shp idx : list nat) : Prop := Forall2 lt idx shp.

(** [shape[axis]] with Python's negative indices; [IndexError] out of
    range. *)
Definition norm_axis (n : nat) (axis : Z) : result nat :=
  if (0 <=? axis) && (axis <? Z.of_nat n) then Ok (Z.to_nat axis)
  else if (axis <? 0) && (- Z.of_nat n <=? axis) then Ok (Z.to_nat (Z.of_nat n + axis))
  else Err IndexError.

Definition axis_len (x : ndarray) (ax : nat) : nat := nth ax (shape x) O.

(** The entries of [x] along axis [ax] through the multi-index [idx]. *)
Definition lane (x : ndarray) (ax : nat) (idx : list nat) : list Qc :=
  map (fun i => get x (list_set ax i idx)) (seq 0 (axis_len x ax)).

(** Apply a one-dimensional operation to every lane of [x] along [ax];
    [m] is the extent of the result along that axis. *)
Definition along_axis (f : list Qc -> list Qc) (m : nat) (x : ndarray) (ax : nat)
  : ndarray :=
  {| shape := list_set ax m (shape x);
     get := fun idx => nth (nth ax idx O) (f (lane x ax idx)) 0%Qc |}.

(** *** [scipy.signal._arraytools], modelled from the scipy sources
    documented behaviour *)

(** [axis_slice(a, start, stop, axis)] (step one). *)
Definition axis_slice (x : ndarray) (start stop : option Z) (ax : nat) : ndarray :=
  let '(lo, cnt) := slice_bounds (axis_len x ax) start stop in
  {| shape := list_set ax cnt (shape x);
     get := fun idx => get x (list_set ax (lo + nth ax idx O)%nat idx) |}.

(** [axis_reverse(a, axis)]. *)
Definition axis_reverse (x : ndarray) (ax : nat) : ndarray :=
  {| shape := shape x;
     get := fun idx => get x (list_set ax (axis_len x ax - 1 - nth ax idx O)%nat idx) |}.

(** The three extensions of one lane by [n] samples at each end:
    [left_ext = x[n:0:-1]], [right_ext = x[-2:-(n+2):-1]]. *)
Definition left_ext (l : list Qc) (n : nat) : list Qc := rev (firstn n (tl l)).
Definition right_ext (l : list Qc) (n : nat) : list Qc := firstn n (tl (rev l)).

Definition odd_ext1 (n : nat) (l : list Qc) : list Qc :=
  map (fun v => Q2Qc 2 * hd 0 l - v)%Qc (left_ext l n) ++ l
  ++ map (fun v => Q2Qc 2 * last l 0 - v)%Qc (right_ext l n).

Definition even_ext1 (n : nat) (l : list Qc) : list Qc :=
  left_ext l n ++ l ++ right_ext l n.

Definition const_ext1 (n : nat) (l : list Qc) : list Qc :=
  repeat (hd 0%Qc l) n ++ l ++ repeat (last l 0%Qc) n.

Definition msg_ext_too_big : string :=
  "The extension length n is too big. It must not exceed x.shape[axis]-1.".

Definition odd_ext (x : ndarray) (n : Z) (ax : nat) : result ndarray :=
  if n <? 1 then Ok x
  else if Z.of_nat (axis_len x ax) - 1 <? n then Err (LibraryValueError msg_ext_too_big)
  else Ok (along_axis (odd_ext1 (Z.to_nat n)) (axis_len x ax + 2 * Z.to_nat n) x ax).

Definition even_ext (x : ndarray) (n : Z) (ax : nat) : result ndarray :=
  if n <? 1 then Ok x
  else if Z.of_nat (axis_len x ax) - 1 <? n then Err (LibraryValueError msg_ext_too_big)
  else Ok (along_axis (even_ext1 (Z.to_nat n)) (axis_len x ax + 2 * Z.to_nat n) x ax).

(** [const_ext] multiplies [ones] of extent [n] by the end slices; on an
    empty axis that product only broadcasts for [n = 1]. *)
Definition const_ext (x : ndarray) (n : Z) (ax : nat) : result ndarray :=
  if n <? 1 then Ok x
  else if Nat.eqb (axis_len x ax) 0 then
    if n =? 1 then Ok x
    else Err (LibraryValueError "operands could not be broadcast together")
  else Ok (along_axis (const_ext1 (Z.to_nat n)) (axis_len x ax + 2 * Z.to_nat n) x ax).

(** *** numpy: reshape and broadcasting product *)

Definition prod (shp : list nat) : nat := fold_right Nat.mul 1%nat shp.

Fixpoint ravel (shp idx : list nat) : nat :=
  match shp, idx with
  | _ :: shp', i :: idx' => (i * prod shp' + ravel shp' idx')%nat
  | _, _ => O
  end.

(** [np.reshape(v, shp)] of a one-dimensional [v] (row-major order). *)
Definition np_reshape (v : list Qc) (shp : list nat) : result ndarray :=
  if Nat.eqb (length v) (prod shp)
  then Ok {| shape := shp; get := fun idx => nth (ravel shp idx) v 0%Qc |}
  else Err (LibraryValueError "total size of new array must be unchanged").

Definition bcast_dim (m n : nat) : option nat :=
  if Nat.eqb m n then Some m
  else if Nat.eqb m 1 then Some n
  else if Nat.eqb n 1 then Some m
  else None.

Fixpoint bcast_shape (s1 s2 : list nat) : option (list nat) :=
  match s1, s2 with
  | [], [] => Some []
  | m :: s1', n :: s2' =>
    match bcast_dim m n, bcast_shape s1' s2' with
    | Some d, Some s => Some (d :: s)
    | _, _ => None
    end
  | _, _ => None
  end.

(** An axis of extent one is read at index 0 whatever the index asked. *)
Definition clamp (shp idx : list nat) : list nat :=
  map2 (fun s i => if Nat.eqb s 1 then O else i) shp idx.

(** [x * y] for two arrays of the same rank, the only use made of the
    product in [_filtfilt] ([zi_shape] has [x.ndim] entries). *)
Definition np_mul (x y : ndarray) : result ndarray :=
  match bcast_shape (shape x) (shape y) with
  | Some s =>
    Ok {| shape := s;
          get := fun idx => (get x (clamp (shape x) idx) * get y (clamp (shape y) idx))%Qc |}
  | None => Err (LibraryValueError "operands could not be broadcast together")
  end.

(** *** [scipy.signal.lfilter] and [lfilter_zi], modelled from the scipy
    documentation *)

Definition pad_to (n : nat) (l : list Qc) : list Qc := l ++ repeat 0%Qc (n - length l).

Definition Qc_sum (l : list Qc) : Qc := fold_right Qcplus 0%Qc l.

(** One sample through the direct form II transposed structure, for
    normalised coefficients [b], [a] of the same length and a state [z]
    one shorter:
    [y = b[0] x + z[0]], [z'[i] = b[i+1] x - a[i+1] y + z[i+1]]. *)
Definition lfilter_step (b a z : list Qc) (x : Qc) : Qc * list Qc :=
  let y := (hd 0 b * x + hd 0 z)%Qc in
  (y, map2 Qcplus (map2 (fun bi ai => bi * x - ai * y)%Qc (tl b) (tl a))
                  (tl z ++ [0%Qc])).

Fixpoint lfilter1 (b a z : list Qc) (xs : list Qc) : list Qc * list Qc :=
  match xs with
  | [] => ([], z)
  | x :: xs' =>
    let '(y, z') := lfilter_step b a z x in
    let '(ys, zf) := lfilter1 b a z' xs' in
    (y :: ys, zf)
  end.

Definition normalize (n : nat) (a0 : Qc) (l : list Qc) : list Qc :=
  pad_to n (map (fun v => v / a0)%Qc l).

(** [lfilter(b, a, x, axis, zi)]: every lane of [x] is filtered from the
    initial state found in the same lane of [zi]; returns [(y, zf)]. *)
Definition lfilter (b a : list Qc) (x : ndarray) (ax : nat) (zi : ndarray)
  : result (ndarray * ndarray) :=
  match a with
  | [] => Err (LibraryValueError "object of too small depth for desired array")
  | a0 :: _ =>
    if Qc_eqb a0 0%Qc then
      Err (LibraryValueError "BUG: filter coefficient a[0] == 0 not supported yet")
    else
      let n := Nat.max (length a) (length b) in
      let b' := normalize n a0 b in
      let a' := normalize n a0 a in
      if list_eq_dec Nat.eq_dec (shape zi) (list_set ax (n - 1)%nat (shape x)) then
        let run idx := lfilter1 b' a' (lane zi ax idx) (lane x ax idx) in
        Ok ({| shape := shape x;
               get := fun idx => nth (nth ax idx O) (fst (run idx)) 0%Qc |},
            {| shape := shape zi;
               get := fun idx => nth (nth ax idx O) (snd (run idx)) 0%Qc |})
      else
        Err (LibraryValueError
               "The number of initial conditions must be max([len(a),len(b)]) - 1")
  end.

(** [while len(a) > 1 and a[0] == 0.0: a = a[1:]]. *)
Fixpoint strip_zeros (a : list Qc) : list Qc :=
  match a with
  | a0 :: (_ :: _) as a' => if Qc_eqb a0 0%Qc then strip_zeros a' else a
  | _ => a
  end.

Fixpoint suffix_sums (l : list Qc) : list Qc :=
  match l with
  | [] => []
  | x :: l' => (x + hd 0 (suffix_sums l'))%Qc :: suffix_sums l'
  end.

(** [lfilter_zi(b, a)]: the state of the filter in the steady state of
    its step response, the solution of [(I - A^T) zi = B] for the
    companion matrix [A] of [a].  The determinant of [I - A^T] is the sum
    of the normalised [a]; when it is not zero the solution is, by the
    explicit formulas given in the scipy source,
    [zi[i] = sum over j > i of (b[j] - a[j] g)] with [g = sum(b) / sum(a)].
    The companion matrix needs at least two coefficients. *)
Definition lfilter_zi (b a : list Qc) : result (list Qc) :=
  match strip_zeros a with
  | [] => Err (LibraryValueError "There must be at least one nonzero `a` coefficient.")
  | (a0 :: _) as a =>
    if Qc_eqb a0 0%Qc then
      Err (LibraryValueError "There must be at least one nonzero `a` coefficient.")
    else
      let n := Nat.max (length a) (length b) in
      let b' := normalize n a0 b in
      let a' := normalize n a0 a in
      if (n <? 2)%nat then Err (LibraryValueError "The length of `a` must be at least 2.")
      else if Qc_eqb (Qc_sum a') 0%Qc then Err LinAlgError
      else
        let g := (Qc_sum b' / Qc_sum a')%Qc in
        Ok (suffix_sums (map2 (fun bj aj => bj - aj * g)%Qc (tl b') (tl a')))
  end.

(** ** [_filtfilt] *)

(** The calls into scipy that a run of [_filtfilt] makes, in order. *)
Inductive event : Type :=
| PadCall (kind : string)
| InitialConditionCall
| FilterCall.

(** A computation that may raise and records the scipy calls it makes. *)
Definition M (A : Type) : Type := (list event * result A)%type.

Definition ret {A} (a : A) : M A := ([], Ok a).
Definition raise {A} (e : error) : M A := ([], Err e).
Definition lift {A} (r : result A) : M A := ([], r).
Definition call {A} (ev : event) (r : result A) : M A := ([ev], r).

Definition bind {A B} (m : M A) (k : A -> M B) : M B :=
  match m with
  | (t, Ok a) => let '(t', r) := k a in (t ++ t', r)
  | (t, Err e) => (t, Err e)
  end.

Notation "'do' x <- m ; k" := (bind m (fun x => k))
  (at level 10, x pattern, m at level 100, k at level 200).

Definition msg_padtype : string :=
  "Unknown value given to padtype.  padtype must be 'even', 'odd', 'constant', or None.".

(** [padtype in ['even', 'odd', 'constant', None]]. *)
Definition padtype_valid (padtype : option string) : bool :=
  match padtype with
  | None => true
  | Some s => String.eqb s "even" || String.eqb s "odd" || String.eqb s "constant"
  end.

(** The pad length that [_filtfilt] works with. *)
Definition effective_edge (b a : list Qc) (padtype : option string) (padlen : option Z) : Z :=
  let ntaps := Z.max (Z.of_nat (length a)) (Z.of_nat (length b)) in
  let padlen := match padtype with None => Some 0 | Some _ => padlen end in
  match padlen with
  | None => ntaps * 3
  | Some p => p
  end.

Definition _filtfilt (b a : list Qc) (x : ndarray) (axis : Z)
           (padtype : option string) (padlen : option Z) : M ndarray :=
  if negb (padtype_valid padtype) then raise (InvalidArgument msg_padtype)
  else
    let edge := effective_edge b a padtype padlen in
    do ax <- lift (norm_axis (ndim x) axis);
    if Z.of_nat (axis_len x ax) <=? edge then raise (InsufficientDataLength edge)
    else
      do ext <-
        match padtype with
        | Some kind =>
          if 0 <? edge then
            if String.eqb kind "even" then call (PadCall kind) (even_ext x edge ax)
            else if String.eqb kind "odd" then call (PadCall kind) (odd_ext x edge ax)
            else call (PadCall kind) (const_ext x edge ax)
          else ret x
        | None => ret x
        end;
      do zi <- call InitialConditionCall (lfilter_zi b a);
      let zi_shape := list_set ax (length zi) (repeat 1%nat (ndim x)) in
      do zi <- lift (np_reshape zi zi_shape);
      let x0 := axis_slice ext None (Some 1) ax in
      do zx0 <- lift (np_mul zi x0);
      do yzf <- call FilterCall (lfilter b a ext ax zx0);
      let y := fst yzf in
      let y0 := axis_slice y (Some (-1)) None ax in
      do zy0 <- lift (np_mul zi y0);
      do yzf <- call FilterCall (lfilter b a (axis_reverse y ax) ax zy0);
      let y := fst yzf in
      let y := axis_reverse y ax in
      let y := if 0 <? edge then axis_slice y (Some edge) (Some (- edge)) ax else y in
      ret y.

(** An instance of the interface on which the fallback can be run: the
    mesh is the real one, the transcendental values are replaced by
    zeros, and every extent is the documented one. *)
Definition mesh (lo hi : Qc) (n : Z) : list Qc :=
  map (fun i => lo + (hi - lo) * Q2Qc (Z.of_nat i # 1) / Q2Qc (Z.max 1 (n - 1) # 1))%Qc
      (seq 0 (Z.to_nat n)).

Definition zeros_irfft (l : list Qc) : result (list Qc) :=
  if (length l <? 2)%nat then Err (LibraryValueError "Invalid number of FFT data points")
  else Ok (repeat 0%Qc (2 * (length l - 1))).

#[export] Instance reference_backend : FirBackend.
Proof.
  refine {| complex := Qc;
            window_spec := unit;
            ceil_log2 := Z.log2_up;
            np_linspace := mesh;
            np_interp := fun x _ _ => map (fun _ => 0%Qc) x;
            phase_shift := fun _ _ x => map (fun _ => 0%Qc) x;
            scale := Qcmult;
            irfft := zeros_irfft;
            get_window := fun _ n => repeat 1%Qc (Z.to_nat n) |}.
  - intros n Hn; split; [apply Z.log2_up_nonneg|].
    destruct (Z.eq_dec n 1) as [->|Hne]; [simpl; lia|].
    apply Z.log2_up_spec; lia.
  - intros lo hi n _; unfold mesh; now rewrite length_map, length_seq.
  - intros; apply length_map.
  - intros; apply length_map.
  - intros l Hl; unfold zeros_irfft.
    destruct (Nat.ltb_spec (length l) 2); [lia|].
    eexists; split; [reflexivity|apply repeat_length].
  - intros; apply repeat_length.
Defined.

(** *** The one-dimensional reading of [_filtfilt]

    What [_filtfilt] computes on one lane of [x] along the filtered axis,
    given the steady state [zi] that [lfilter_zi] returned. *)

Definition ext1 (padtype : option string) (edge : Z) (l : list Qc) : list Qc :=
  match padtype with
  | Some kind =>
    if 0 <? edge then
      if String.eqb kind "even" then even_ext1 (Z.to_nat edge) l
      else if String.eqb kind "odd" then odd_ext1 (Z.to_nat edge) l
      else const_ext1 (Z.to_nat edge) l
    else l
  | None => l
  end.

Definition _filtfilt1 (b a : list Qc) (padtype : option string) (edge : Z)
           (zi : list Qc) (l : list Qc) : list Qc :=
  let n := Nat.max (length a) (length b) in
  let b' := normalize n (hd 0%Qc a) b in
  let a' := normalize n (hd 0%Qc a) a in
  let ext := ext1 padtype edge l in
  let x0 := py_slice ext None (Some 1) in
  let y := fst (lfilter1 b' a' (map (fun z => z * hd 0 x0)%Qc zi) ext) in
  let y0 := py_slice y (Some (-1)) None in
  let y := fst (lfilter1 b' a' (map (fun z => z * hd 0 y0)%Qc zi) (rev y)) in
  let y := rev y in
  if 0 <? edge then py_slice y (Some edge) (Some (- edge)) else y.

(** A multi-index that is within the shape on every axis but [ax]. *)
Definition off_axis_ok (ax : nat) (shp idx : list nat) : Prop :=
  length idx = length shp /\
  forall k, k <> ax -> (k < length shp)%nat -> (nth k idx O < nth k shp O)%nat.

(** The coefficient vectors that the scipy primitives accept: a leading
    denominator coefficient that is not zero, at least two taps, and no
    pole at [z = 1] (the sum of [a] is not zero). *)
Definition accepted_filter (b a : list Qc) : Prop :=
  hd 0%Qc a <> 0%Qc /\ (2 <= Nat.max (length a) (length b))%nat /\ Qc_sum a <> 0%Qc.

(** The gain of the filter on a constant signal. *)
Definition dc_gain (b a : list Qc) : Qc := (Qc_sum b / Qc_sum a)%Qc.

(** What a stage of [_filtfilt] hands to the next: an array of the shape
    of [x] but for extent [m] along the axis, whose lanes are given by
    [F]. *)
Definition stage (x : ndarray) (ax m : nat) (F : list nat -> list Qc) (y : ndarray) : Prop :=
  shape y = list_set ax m (shape x) /\
  forall idx, (ax < length idx)%nat -> lane y ax idx = F idx.

(** The extent along the axis after padding by [edge] at both ends. *)
Definition padded_len (n : nat) (edge : Z) : nat := (n + 2 * Z.to_nat edge)%nat.

(** *** Inputs for the examples

    The one-pole filter [b = [0.25]], [a = [1, -0.5]] (gain 0.5 on a
    constant), and a signal of seven ones. *)
Definition one_pole_b : list Qc := [Q2Qc (1 # 4)].
Definition one_pole_a : list Qc := [1%Qc; Q2Qc (-1 # 2)].
Definition ones7 : ndarray := {| shape := [7%nat]; get := fun _ => 1%Qc |}.

(** A float array with integer values. *)
Definition floats (l : list Z) : list Qc := map (fun z => Q2Qc (inject_Z z)) l.

(** A result that is not the error of the length check of [_filtfilt]. *)
Definition other_error {A} (r : result A) : Prop :=
  forall e, r <> Err (InsufficientDataLength e).

(** A list of indices into [a] in the order of a stable sort: strictly
    increasing for the order on pairs (value, index). *)
Definition sorted_by (a : list Z) : list nat -> Prop :=
  StronglySorted (fun i j => lex_lt a i j = true).

(** ** [_tril_indices] *)

(** [np.arange(n)]: empty for a non-positive [n]. *)
Definition np_arange (n : Z) : list Z := map Z.of_nat (seq 0 (Z.to_nat n)).

(** [np.subtract.outer(a, b)]: the matrix of the differences
    [a[i] - b[j]], as the list of its rows. *)
Definition subtract_outer (a b : list Z) : list (list Z) :=
  map (fun x => map (fun y => x - y) b) a.

(** [np.greater_equal(m, c)], elementwise. *)
Definition greater_equal (m : list (list Z)) (c : Z) : list (list bool) :=
  map (map (fun v => c <=? v)) m.

(** [np.where(mask)] on a two-dimensional mask: the row indices and the
    column indices of the true entries, in row-major order. *)
Definition where_row (i : nat) (row : list bool) : list (Z * Z) :=
  map (fun j => (Z.of_nat i, Z.of_nat j))
      (filter (fun j => nth j row false) (seq 0 (length row))).

Definition np_where (mask : list (list bool)) : list Z * list Z :=
  let cells :=
    flat_map (fun i => where_row i (nth i mask [])) (seq 0 (length mask)) in
  (map fst cells, map snd cells).

Definition _tril_indices (n k : Z) : list Z * list Z :=
  let mask := greater_equal (subtract_outer (np_arange n) (np_arange n)) (- k) in
  let indices := np_where mask in
  indices.

(** ** [_unravel_index] *)

(** [np.unravel_index(idx, dims)] for one flat index, modelled from the
    numpy documentation: the coordinates of entry [idx] of an array of
    shape [dims] in row-major order; [ValueError] when [idx] is not an
    index of the array. *)
Fixpoint unravel (dims : list nat) (idx : nat) : list nat :=
  match dims with
  | [] => []
  | _ :: dims' => (idx / prod dims')%nat :: unravel dims' (idx mod prod dims')
  end.

Definition np_unravel_index (idx : Z) (dims : list nat) : result (list Z) :=
  if (0 <=? idx) && (idx <? Z.of_nat (prod dims))
  then Ok (map Z.of_nat (unravel dims (Z.to_nat idx)))
  else Err (LibraryValueError "Invalid index")%string.

(** The argument [indices] after [np.asarray]: its shape and its entries
    in row-major order. *)
Record index_array : Type := mk_index_array {
  ia_shape : list nat;
  ia_flat : list Z
}.

(** What [_unravel_index] returns: the tuple of coordinates of the only
    index, or a tuple of arrays, one per dimension, each given by its
    entries in row-major order. *)
Inductive unraveled : Type :=
| Coordinates (c : list Z)
| CoordinateArrays (cs : list (list Z)).

(** The rows of [unraveled_coords], filled in order by the loop; the
    first index that [np.unravel_index] refuses ends the call. *)
Fixpoint unravel_rows (indices : list Z) (dims : list nat) : result (list (list Z)) :=
  match indices with
  | [] => Ok []
  | idx :: rest =>
    let* coord := np_unravel_index idx dims in
    let* rows := unravel_rows rest dims in
    Ok (coord :: rows)
  end.

(** [unraveled_coords.T] for a [(size, ndims)] array: [ndims] columns. *)
Definition transpose_rows (ndims : nat) (rows : list (list Z)) : list (list Z) :=
  map (fun d => map (fun row => nth d row 0) rows) (seq 0 ndims).

(** [np.unravel_index(indices, dims)] on the argument as it was given,
    from the numpy documentation: a scalar gives the tuple of its
    coordinates; an array gives one array per dimension, each of the shape
    of [indices]; an index that is not one of the array raises. *)
Definition np_unravel_index_array (indices : index_array) (dims : list nat)
  : result unraveled :=
  match ia_shape indices with
  | [] =>
    let* c := np_unravel_index (hd 0 (ia_flat indices)) dims in
    Ok (Coordinates c)
  | _ :: _ =>
    let* rows := unravel_rows (ia_flat indices) dims in
    Ok (CoordinateArrays (transpose_rows (length dims) rows))
  end.

Definition _unravel_index (indices : index_array) (dims : list nat) : result unraveled :=
  if Nat.eqb (length (ia_flat indices)) 1 then
    np_unravel_index_array indices dims
  else if negb (Nat.eqb (length (ia_shape indices)) 1) then
    Err (InvalidArgument "indices should be one dimensional")
  else
    let ndims := length dims in
    let* unraveled_coords := unravel_rows (ia_flat indices) dims in
    Ok (CoordinateArrays (transpose_rows ndims unraveled_coords)).

(** The flat index of a tuple of integer coordinates. *)
Definition ravel_Z (dims : list nat) (c : list Z) : Z :=
  Z.of_nat (ravel dims (map Z.to_nat c)).

(** ** [count_nonzero] *)

(** [np.flatnonzero(X)]: the positions of the entries of the flattened
    [X] that are not zero. *)
Definition np_flatnonzero (X : list Z) : list nat :=
  filter (fun i => negb (nth i X 0 =? 0)) (seq 0 (length X)).

Definition count_nonzero (X : list Z) : nat := length (np_flatnonzero X).

(** The order of [np.where]: by row, then by column. *)
Definition row_major_lt (p q : Z * Z) : Prop :=
  fst p < fst q \/ (fst p = fst q /\ snd p < snd q).

(** A tuple of integer coordinates that addresses an entry of an array of
    shape [dims]. *)
Definition coordinates_ok (dims : list nat) (c : list Z) : Prop :=
  Forall2 (fun v d => 0 <= v < Z.of_nat d) c dims.

(** ** [Counter], the replacement for [collections.Counter] *)

Section Counter.

(** The keys are hashable values; all that is used of them is that
    equality is decidable. *)
Context {K : Type} (K_eq_dec : forall x y : K, {x = y} + {x <> y}).

(** A [Counter] is a [defaultdict(int)]: a dict from keys to counts, held
    as the list of its items, every key once.  The order of the list
    stands for the order in which the dict is iterated, which Python
    leaves open. *)
Definition counter : Type := list (K * Z).

(** [self[x]] for reading: the count of a key, [int()] (zero) for a key
    that is missing. *)
Fixpoint count_of (c : counter) (x : K) : Z :=
  match c with
  | [] => 0
  | (y, m) :: c' => if K_eq_dec x y then m else count_of c' x
  end.

(** [self[x] += n]: a missing key is first entered with [int()]. *)
Fixpoint add_count (x : K) (n : Z) (c : counter) : counter :=
  match c with
  | [] => [(x, 0 + n)]
  | (y, m) :: c' =>
    if K_eq_dec x y then (y, m + n) :: c' else (y, m) :: add_count x n c'
  end.

(** The argument of [update]: another [Counter], or any iterable. *)
Inductive update_arg : Type :=
| OtherCounter (other : counter)
| Iterable (other : list K).

Definition update (self : counter) (other : update_arg) : counter :=
  match other with
  | OtherCounter other =>
    fold_left (fun self (item : K * Z) => add_count (fst item) (snd item) self) other self
  | Iterable other =>
    fold_left (fun self x => add_count x 1 self) other self
  end.

(** [Counter(iterable)], called without keyword arguments: the empty
    [defaultdict(int)], then [update]. *)
Definition Counter_init (iterable : update_arg) : counter := update [] iterable.

(** [sorted(items, key=itemgetter(1), reverse=True)]: by decreasing
    count; the sort is stable, items of equal count keep their order. *)
Fixpoint insert_item (item : K * Z) (l : list (K * Z)) : list (K * Z) :=
  match l with
  | [] => [item]
  | item' :: l' =>
    if snd item' <=? snd item then item :: l else item' :: insert_item item l'
  end.

Definition most_common (self : counter) : list (K * Z) :=
  fold_right insert_item [] self.

(** The order of [most_common]: no smaller count before a larger one. *)
Definition count_ge (p q : K * Z) : Prop := snd q <= snd p.

End Counter.

(** ** What the tweak of [_firwin2] may do to one frequency *)

(** An entry after the call is the entry before it, or that moved by
    [eps] up or down. *)
Definition within_eps (after before : Qc) : Prop :=
  after = before \/ after = (before + eps)%Qc \/ after = (before - eps)%Qc.

(** The state of [freq] before turn [k] of the loop: the entries below
    [k] have moved by at most [eps], entry [k] is as it was or one [eps]
    higher, the entries above are untouched. *)
Definition tweak_invariant (orig : list Qc) (k : nat) (f : list Qc) : Prop :=
  length f = length orig /\
  forall i,
    ((i < k)%nat -> within_eps (nth i f 0%Qc) (nth i orig 0%Qc)) /\
    (i = k -> nth i f 0%Qc = nth i orig 0%Qc \/ nth i f 0%Qc = (nth i orig 0 + eps)%Qc) /\
    ((k < i)%nat -> nth i f 0%Qc = nth i orig 0%Qc).

(** *** A two-channel signal for the examples *)

Definition two_rows (r0 r1 : nat -> Qc) : ndarray :=
  {| shape := [2%nat; 7%nat];
     get := fun idx => if Nat.eqb (nth 0 idx O) 0 then r0 (nth 1 idx O) else r1 (nth 1 idx O) |}.

Definition ramp (j : nat) : Qc := Q2Qc (inject_Z (Z.of_nat j)).

(** The combination [alpha * l + beta * l'] of two lanes, sample by
    sample. *)
Definition lin (alpha beta : Qc) (l l' : list Qc) : list Qc :=
  map2 (fun u v => alpha * u + beta * v)%Qc l l'.

(** * Properties *)

(** ** Generic list facts *)

Lemma map2_length {A B C} (f : A -> B -> C) l1 l2 :
  length (map2 f l1 l2) = Nat.min (length l1) (length l2).
Proof.
  revert l2; induction l1 as [|x l1 IH]; intros [|y l2]; simpl; auto.
Qed.

Lemma list_set_length {A} k (v : A) l : length (list_set k v l) = length l.
Proof.
  revert k; induction l as [|x l IH]; intros [|k]; simpl; auto.
Qed.

Lemma nth_list_set_eq {A} k (v d : A) l :
  (k < length l)%nat -> nth k (list_set k v l) d = v.
Proof.
  revert k; induction l as [|x l IH]; intros [|k] H; simpl in *; try lia; auto.
  apply IH; lia.
Qed.

Lemma nth_list_set_neq {A} k j (v d : A) l :
  k <> j -> nth j (list_set k v l) d = nth j l d.
Proof.
  revert k j; induction l as [|x l IH]; intros [|k] [|j] H; simpl; auto; try lia.
Qed.

Lemma list_set_twice {A} k (v w : A) l :
  list_set k v (list_set k w l) = list_set k v l.
Proof.
  revert k; induction l as [|x l IH]; intros [|k]; simpl; auto.
  now rewrite IH.
Qed.

(** ** [_copysign] *)

Lemma int64_bounds : int64_min = - 2 ^ 63 /\ int64_max = 2 ^ 63 - 1 /\ 2 ^ 63 > 0.
Proof. repeat split. Qed.

Lemma wrap_int64_id z : is_int64 z -> wrap_int64 z = z.
Proof.
  unfold is_int64, wrap_int64. destruct int64_bounds as [-> [-> Hp]]. intros Hz.
  replace (2 ^ 64) with (2 * 2 ^ 63) by reflexivity.
  rewrite Z.mod_small; lia.
Qed.

(** Away from [x2 = 0] and from the least integer the product has the
    magnitude of [x1], and the sign of [x2] unless it is zero itself. *)
Lemma copysign_nonzero (x1 x2 : Z) :
  is_int64 x1 -> x1 <> int64_min ->
  x2 <> 0 ->
  _copysign x1 x2 = Z.abs x1 * Z.sgn x2 /\
  Z.abs (_copysign x1 x2) = Z.abs x1 /\
  (x1 <> 0 -> Z.sgn (_copysign x1 x2) = Z.sgn x2).
Proof.
  intros Hr Hmin H2.
  assert (Heq : _copysign x1 x2 = Z.abs x1 * Z.sgn x2).
  { unfold _copysign, np_multiply, np_abs, np_sign.
    unfold is_int64 in Hr. pose proof wrap_int64_id as Hw. unfold is_int64 in Hw.
    destruct int64_bounds as [Em [EM Hp]]. rewrite Em, EM in *.
    rewrite (Hw (Z.abs x1)) by lia.
    apply Hw. destruct x2; try lia; simpl Z.sgn; lia. }
  rewrite Heq. split; [reflexivity|]. split.
  - destruct x2; try lia; simpl; lia.
  - intros H1. destruct x1, x2; simpl; lia.
Qed.

(** The least integer has no absolute value in the dtype: the result is
    the least integer whatever the sign of [x2]. *)
Lemma copysign_least (x2 : Z) : x2 <> 0 -> _copysign int64_min x2 = int64_min.
Proof.
  intros H2. unfold _copysign, np_sign.
  destruct x2; [contradiction| |]; reflexivity.
Qed.

(** C9, at the input [x1 = 3], [x2 = 0]: [np.sign(0)] is [0], so the
    product is [0]; neither its magnitude is that of [x1] nor is it what
    [np.copysign(3, 0)] gives, which is [3]. *)
Theorem copysign_zero_second_argument :
  _copysign 3 0 = 0 /\ Z.abs (_copysign 3 0) <> Z.abs 3.
Proof.
  split; [reflexivity | vm_compute; discriminate].
Qed.

(** ** [_bincount] *)

Example float_to_int_truncates :
  float_to_int (Q2Qc (7 # 2)) = 3 /\ float_to_int (Q2Qc (-7 # 2)) = -3.
Proof. split; reflexivity. Qed.

(** A float beyond the dtype: [2.0 ** 64] converts to [-2 ** 63]. *)
Example float_to_int_out_of_range :
  float_to_int (Q2Qc (inject_Z (2 ^ 64))) = - 2 ^ 63 /\
  float_to_int (Q2Qc (inject_Z (2 ^ 63))) = - 2 ^ 63 /\
  float_to_int (Q2Qc (inject_Z (2 ^ 63 - 1024))) = 2 ^ 63 - 1024.
Proof. repeat split; vm_compute; reflexivity. Qed.

(** Comparisons of a float with an integer, on numerator and denominator. *)
Lemma Qc_of_Z_le (z : Z) (q : Qc) :
  (Q2Qc (inject_Z z) <= q)%Qc <-> z * Zpos (Qden q) <= Qnum q.
Proof.
  unfold Qcle. cbn [this Q2Qc]. rewrite Qred_correct.
  unfold Qle. cbn [Qnum Qden inject_Z]. lia.
Qed.

Lemma Qc_of_Z_lt (z : Z) (q : Qc) :
  (Q2Qc (inject_Z z) < q)%Qc <-> z * Zpos (Qden q) < Qnum q.
Proof.
  unfold Qclt. cbn [this Q2Qc]. rewrite Qred_correct.
  unfold Qlt. cbn [Qnum Qden inject_Z]. lia.
Qed.

Lemma Qc_le_of_Z (z : Z) (q : Qc) :
  (q <= Q2Qc (inject_Z z))%Qc <-> Qnum q <= z * Zpos (Qden q).
Proof.
  unfold Qcle. cbn [this Q2Qc]. rewrite Qred_correct.
  unfold Qle. cbn [Qnum Qden inject_Z]. lia.
Qed.

Lemma Qc_lt_of_Z (z : Z) (q : Qc) :
  (q < Q2Qc (inject_Z z))%Qc <-> Qnum q < z * Zpos (Qden q).
Proof.
  unfold Qclt. cbn [this Q2Qc]. rewrite Qred_correct.
  unfold Qlt. cbn [Qnum Qden inject_Z]. lia.
Qed.

(** The conversion does what is asked of it: it truncates toward zero
    the floats that fit and gives the least integer for the others. *)
Lemma float_to_int_integer_part (q : Qc) :
  (fits_int64 q -> integer_part q (float_to_int q)) /\
  (~ fits_int64 q -> float_to_int q = int64_min).
Proof.
  unfold fits_int64, integer_part, float_to_int.
  pose proof (Qc_of_Z_le 0 q) as H0le. pose proof (Qc_le_of_Z 0 q) as Hle0.
  change (Q2Qc (inject_Z 0)) with 0%Qc in H0le, Hle0.
  set (n := Qnum q) in *. set (d := Zpos (Qden q)) in *.
  assert (Hd : 0 < d) by (unfold d; lia).
  set (t := Z.quot n d).
  assert (Hqr : n = d * t + Z.rem n d) by (apply Z.quot_rem'; lia).
  assert (Hpos : 0 <= n -> 0 <= Z.rem n d < d) by (intros; apply Z.rem_bound_pos; lia).
  assert (Hneg : n <= 0 -> - d < Z.rem n d <= 0).
  { intros Hn. apply Z.rem_bound_pos_neg; lia. }
  set (r := Z.rem n d) in *.
  assert (Hm : int64_min <= 0 <= int64_max) by (unfold int64_min, int64_max; lia).
  generalize dependent int64_max. generalize dependent int64_min. intros m M Hm.
  rewrite !Qc_of_Z_lt, !Qc_lt_of_Z, !Qc_of_Z_le, !Qc_le_of_Z.
  fold n d.
  destruct (Z.leb_spec m t) as [Hmt|Hmt], (Z.leb_spec t M) as [HtM|HtM]; cbn [andb].
  - split; [|intros Hfit; exfalso; apply Hfit; destruct (Z.le_ge_cases 0 n); nia].
    intros _. split; intros Hn.
    + apply H0le in Hn. fold n in Hn. specialize (Hpos ltac:(lia)). nia.
    + apply Hle0 in Hn. fold n in Hn. specialize (Hneg ltac:(lia)). nia.
  - split; [|reflexivity]. intros [_ Hfit]. exfalso.
    destruct (Z.le_ge_cases 0 n); [specialize (Hpos ltac:(lia))|specialize (Hneg ltac:(lia))]; nia.
  - split; [|reflexivity]. intros [Hfit _]. exfalso.
    destruct (Z.le_ge_cases 0 n); [specialize (Hpos ltac:(lia))|specialize (Hneg ltac:(lia))]; nia.
  - lia.
Qed.

Example bincount_weights_truncated :
  _bincount [0; 1; 1] (Some [Q2Qc (1 # 2); Q2Qc (3 # 4); Q2Qc (3 # 4)]) (Some 4)
  = Ok (IntArray [0; 1; 0; 0]).
Proof. reflexivity. Qed.

Lemma astype_int_length r : Z.of_nat (length (astype_int r)) = len r.
Proof. destruct r; simpl; auto. now rewrite length_map. Qed.

Lemma astype_int_as_integer r k :
  (k < length (astype_int r))%nat -> as_integer r k (nth k (astype_int r) 0).
Proof.
  destruct r as [l|l]; cbn [astype_int as_integer]; intros Hk; [reflexivity|].
  rewrite length_map in Hk.
  rewrite (nth_indep _ 0 (float_to_int 0%Qc)) by (now rewrite length_map).
  rewrite map_nth. apply float_to_int_integer_part.
Qed.

(** C10: when the native result [r] is shorter than [minlength], the
    fallback returns an integer array of [minlength] entries: first the
    entries of [r] as integers (an integer count as it is, a float
    truncated toward zero, or the least integer when it does not fit the
    dtype), then zeros; otherwise it returns [r] itself. *)
Theorem bincount_minlength (X : list Z) (weights : option (list Qc))
        (minlength : Z) (r : ndarray1) :
  np_bincount X weights = Ok r ->
  (len r < minlength ->
   exists out,
     _bincount X weights (Some minlength) = Ok (IntArray out) /\
     Z.of_nat (length out) = minlength /\
     (forall k, (k < Z.to_nat (len r))%nat -> as_integer r k (nth k out 0)) /\
     skipn (Z.to_nat (len r)) out = repeat 0 (Z.to_nat (minlength - len r))) /\
  (minlength <= len r -> _bincount X weights (Some minlength) = Ok r).
Proof.
  intros Hr; unfold _bincount; rewrite Hr; cbn [rbind len_ge]; split; intros Hlen.
  - assert (Hb : (minlength <=? len r) = false) by (apply Z.leb_gt; lia).
    rewrite Hb. unfold assign_prefix, np_zeros_int.
    pose proof (astype_int_length r) as Hl.
    rewrite repeat_length.
    assert (Hn : length (astype_int r) = Z.to_nat (len r)) by lia.
    assert (Hmin : Nat.min (Z.to_nat (len r)) (Z.to_nat minlength) = Z.to_nat (len r)) by lia.
    rewrite Hmin, Hn, Nat.eqb_refl. simpl.
    eexists; split; [reflexivity|].
    assert (Hskip : skipn (Z.to_nat (len r)) (repeat 0 (Z.to_nat minlength))
                    = repeat 0 (Z.to_nat (minlength - len r))).
    { replace (Z.to_nat minlength) with (Z.to_nat (len r) + Z.to_nat (minlength - len r))%nat by lia.
      rewrite repeat_app, skipn_app, repeat_length, Nat.sub_diag, skipn_all2
        by (rewrite repeat_length; lia).
      reflexivity. }
    rewrite Hskip. repeat split.
    + rewrite length_app, repeat_length. lia.
    + intros k Hk. rewrite app_nth1 by lia.
      apply astype_int_as_integer. lia.
    + rewrite skipn_app, <- Hn, skipn_all, Nat.sub_diag. reflexivity.
  - assert (Hb : (minlength <=? len r) = true) by (apply Z.leb_le; lia).
    now rewrite Hb.
Qed.

Lemma bincount_minlength_witness :
  exists r,
    np_bincount [0; 1; 1] (Some [Q2Qc (1 # 2); Q2Qc (3 # 4); Q2Qc (3 # 4)]) = Ok r /\
    len r < 4 /\
    exists out,
      _bincount [0; 1; 1] (Some [Q2Qc (1 # 2); Q2Qc (3 # 4); Q2Qc (3 # 4)]) (Some 4)
      = Ok (IntArray out) /\
      Z.of_nat (length out) = 4 /\
      (forall k, (k < Z.to_nat (len r))%nat -> as_integer r k (nth k out 0)) /\
      skipn (Z.to_nat (len r)) out = repeat 0 (Z.to_nat (4 - len r)).
Proof.
  eexists. split; [reflexivity|]. split; [reflexivity|].
  apply (proj1 (@bincount_minlength [0; 1; 1]
                  (Some [Q2Qc (1 # 2); Q2Qc (3 # 4); Q2Qc (3 # 4)]) 4 _ eq_refl)).
  reflexivity.
Defined.

(** ** [_firwin2] *)

Lemma Qc_eqb_true p q : Qc_eqb p q = true <-> p = q.
Proof. unfold Qc_eqb; destruct (Qc_eq_dec p q); split; congruence. Qed.

Lemma Qc_eqb_false p q : Qc_eqb p q = false <-> p <> q.
Proof. unfold Qc_eqb; destruct (Qc_eq_dec p q); split; congruence. Qed.

Lemma Qc_ltb_false p q : Qc_ltb p q = false <-> (q <= p)%Qc.
Proof.
  unfold Qc_ltb; destruct (Qclt_le_dec p q) as [Hlt|Hle]; split; auto; try congruence.
  intros Hqp. exfalso. exact (Qclt_not_le _ _ Hlt Hqp).
Qed.

(** C5: with an even [numtaps] and a gain at the Nyquist rate that is not
    zero, every call raises [InvalidArgument], returns no coefficients and
    leaves [freq] as it was. *)
Theorem firwin2_even_numtaps_nonzero_nyquist `{FirBackend}
        (numtaps : Z) (freq gain : list Qc) (nfreqs : option Z)
        (window : option window_spec) (nyq : Qc) :
  numtaps mod 2 = 0 ->
  last gain 0%Qc <> 0%Qc ->
  exists msg,
    _firwin2 numtaps freq gain nfreqs window nyq = (freq, Err (InvalidArgument msg)).
Proof.
  intros Heven Hgain. unfold _firwin2.
  destruct (Nat.eqb (length freq) (length gain)) eqn:Hlen; simpl; [|eauto].
  destruct (match nfreqs with Some n => n <=? numtaps | None => false end); [eauto|].
  destruct freq as [|f0 freq'].
  - apply Nat.eqb_eq in Hlen. destruct gain; simpl in *; [congruence|discriminate].
  - destruct (negb (Qc_eqb f0 0%Qc) || negb (Qc_eqb (last (f0 :: freq') 0%Qc) nyq));
      [eauto|].
    destruct (existsb _ (np_diff (f0 :: freq'))); [eauto|].
    destruct (existsb _ (map2 _ _ _)); [eauto|].
    apply Z.eqb_eq in Heven. rewrite Heven.
    apply Qc_eqb_false in Hgain. rewrite Hgain. simpl. eauto.
Qed.

Lemma firwin2_even_numtaps_nonzero_nyquist_witness :
  exists msg,
    _firwin2 4 [0%Qc; 1%Qc] [1%Qc; 1%Qc] None (Some tt) 1%Qc
    = ([0%Qc; 1%Qc], Err (InvalidArgument msg)).
Proof.
  apply (@firwin2_even_numtaps_nonzero_nyquist reference_backend).
  - reflexivity.
  - intro Hq; apply (f_equal this) in Hq; vm_compute in Hq; discriminate.
Defined.

Lemma nth_map2 {A B C} (f : A -> B -> C) l1 l2 i d1 d2 d :
  (i < length l1)%nat -> (i < length l2)%nat ->
  nth i (map2 f l1 l2) d = f (nth i l1 d1) (nth i l2 d2).
Proof.
  revert l2 i; induction l1 as [|x l1 IH]; intros [|y l2] [|i] H1 H2;
    simpl in *; try lia; auto.
  apply IH; lia.
Qed.

Lemma nth_tl {A} (l : list A) i d : nth i (tl l) d = nth (S i) l d.
Proof. destruct l; simpl; auto. now destruct i. Qed.

Lemma length_tl {A} (l : list A) : length (tl l) = (length l - 1)%nat.
Proof. destruct l; simpl; lia. Qed.

Lemma length_removelast {A} (l : list A) : length (removelast l) = (length l - 1)%nat.
Proof.
  induction l as [|x [|y l] IH]; simpl in *; auto. lia.
Qed.

Lemma nth_removelast {A} (l : list A) i d :
  (S i < length l)%nat -> nth i (removelast l) d = nth i l d.
Proof.
  revert i; induction l as [|x [|y l] IH]; intros i H; simpl in *; try lia.
  destruct i; auto. apply IH. simpl. lia.
Qed.

Lemma np_diff_length a : length (np_diff a) = (length a - 1)%nat.
Proof.
  unfold np_diff. rewrite map2_length, length_tl, length_removelast. lia.
Qed.

Lemma nth_np_diff a i :
  (S i < length a)%nat ->
  nth i (np_diff a) 0%Qc = (nth (S i) a 0 - nth i a 0)%Qc.
Proof.
  intros Hi. unfold np_diff.
  rewrite (@nth_map2 _ _ _ _ _ _ i 0%Qc 0%Qc)
    by (rewrite ?length_tl, ?length_removelast; lia).
  now rewrite nth_tl, nth_removelast.
Qed.

Lemma existsb_nth_false {A} (f : A -> bool) l d :
  (forall i, (i < length l)%nat -> f (nth i l d) = false) -> existsb f l = false.
Proof.
  intros Hf. destruct (existsb f l) eqn:E; auto.
  apply existsb_exists in E. destruct E as [v [Hin Hv]].
  destruct (In_nth _ _ d Hin) as [i [Hi Hnth]].
  rewrite <- Hnth, Hf in Hv; auto.
Qed.

(** The arithmetic of the two scans over the differences of [freq]. *)
Lemma diff_nonneg (p q : Qc) : (p <= q)%Qc -> Qc_ltb (q - p)%Qc 0%Qc = false.
Proof.
  intros Hpq. apply Qc_ltb_false. now apply -> Qcle_minus_iff.
Qed.

Lemma diff_sum_nonzero (p q r : Qc) : p <> r -> Qc_eqb ((q - p) + (r - q))%Qc 0%Qc = false.
Proof.
  intros Hpr. apply Qc_eqb_false. intros Hz. apply Hpr.
  transitivity (r - ((q - p) + (r - q)))%Qc; [ring|]. rewrite Hz. ring.
Qed.

Lemma py_slice_head_length {A} (l : list A) (n : Z) :
  0 <= n <= Z.of_nat (length l) ->
  length (py_slice l None (Some n)) = Z.to_nat n.
Proof.
  intros Hn. unfold py_slice, slice_bounds, clip_index.
  assert (Hneg : (n <? 0) = false) by (apply Z.ltb_ge; lia).
  rewrite Hneg. simpl. rewrite length_firstn. lia.
Qed.

Lemma broadcast2_same_length {A B C} (f : A -> B -> C) l1 l2 :
  length l1 = length l2 ->
  broadcast2 f l1 l2 = Ok (map2 f l1 l2).
Proof.
  intros Hl. unfold broadcast2. now rewrite Hl, Nat.eqb_refl.
Qed.

(** The numeric part returns [numtaps] coefficients on any mesh larger
    than [numtaps]. *)
Lemma design_length `{FirBackend} numtaps freq gain nfreqs window nyq :
  1 <= numtaps -> numtaps < nfreqs ->
  exists out,
    design numtaps freq gain nfreqs window nyq = Ok out /\
    Z.of_nat (length out) = numtaps.
Proof.
  intros Hpos Hlt. unfold design.
  pose proof (@np_linspace_length _ 0%Qc nyq nfreqs ltac:(lia)) as Hx.
  set (x := np_linspace 0%Qc nyq nfreqs) in *.
  rewrite broadcast2_same_length
    by now rewrite np_interp_length, phase_shift_length.
  simpl.
  destruct (@irfft_length _ (map2 scale (np_interp x freq gain) (phase_shift numtaps nyq x)))
    as [out_full [Hirfft Hfull]].
  { rewrite map2_length, np_interp_length, phase_shift_length. lia. }
  rewrite Hirfft. simpl.
  rewrite map2_length, np_interp_length, phase_shift_length in Hfull.
  assert (Hhead : length (py_slice out_full None (Some numtaps)) = Z.to_nat numtaps)
    by (apply py_slice_head_length; lia).
  destruct window as [w|].
  - rewrite broadcast2_same_length by now rewrite get_window_length.
    eexists; split; [reflexivity|].
    rewrite map2_length, get_window_length. lia.
  - eexists; split; [reflexivity|]. rewrite length_map. lia.
Qed.

(** C6: on a valid input the call returns exactly [numtaps] coefficients.
    Valid: a positive number of taps; [freq] and [gain] of the same
    length; [freq] from 0 to [nyq], nondecreasing, no value more than
    twice; [numtaps] below [nfreqs] when [nfreqs] is given; an odd
    [numtaps] when the gain at the Nyquist rate is not zero. *)
Theorem firwin2_returns_numtaps_coefficients `{FirBackend}
        (numtaps : Z) (freq gain : list Qc) (nfreqs : option Z)
        (window : option window_spec) (nyq : Qc) :
  1 <= numtaps ->
  length freq = length gain ->
  hd_error freq = Some 0%Qc ->
  last freq 0%Qc = nyq ->
  (forall i, (i + 1 < length freq)%nat -> (nth i freq 0 <= nth (i + 1) freq 0)%Qc) ->
  (forall i, (i + 2 < length freq)%nat -> nth i freq 0%Qc <> nth (i + 2) freq 0%Qc) ->
  (forall n, nfreqs = Some n -> numtaps < n) ->
  (last gain 0%Qc <> 0%Qc -> numtaps mod 2 = 1) ->
  exists out,
    snd (_firwin2 numtaps freq gain nfreqs window nyq) = Ok out /\
    Z.of_nat (length out) = numtaps.
Proof.
  intros Hpos Hlen Hzero Hnyq Hmono Htwice Hnf Hodd. unfold _firwin2.
  rewrite Hlen, Nat.eqb_refl. simpl.
  assert (Hmesh : match nfreqs with Some n => n <=? numtaps | None => false end = false).
  { destruct nfreqs as [n|]; auto. apply Z.leb_gt. now apply Hnf. }
  rewrite Hmesh.
  destruct freq as [|f0 freq']; [discriminate|].
  simpl in Hzero. injection Hzero as ->.
  assert (H0 : Qc_eqb 0%Qc 0%Qc = true) by now apply Qc_eqb_true.
  assert (Hn : Qc_eqb (last (0%Qc :: freq') 0%Qc) nyq = true) by now apply Qc_eqb_true.
  rewrite H0, Hn. simpl negb. simpl orb. cbv iota.
  set (freq := 0%Qc :: freq') in *.
  assert (Hd : existsb (fun v => Qc_ltb v 0%Qc) (np_diff freq) = false).
  { apply existsb_nth_false with (d := 0%Qc). intros i Hi.
    rewrite np_diff_length in Hi. rewrite nth_np_diff by lia.
    apply diff_nonneg. replace (S i) with (i + 1)%nat by lia. apply Hmono. lia. }
  rewrite Hd.
  assert (Hd2 : existsb (fun v => Qc_eqb v 0%Qc)
                  (map2 Qcplus (removelast (np_diff freq)) (tl (np_diff freq))) = false).
  { apply existsb_nth_false with (d := 0%Qc). intros i Hi.
    rewrite map2_length, length_removelast, length_tl, np_diff_length in Hi.
    rewrite (@nth_map2 _ _ _ _ _ _ i 0%Qc 0%Qc)
      by (rewrite ?length_removelast, ?length_tl, np_diff_length; lia).
    rewrite nth_removelast, nth_tl, !nth_np_diff by (rewrite ?np_diff_length; lia).
    apply diff_sum_nonzero. replace (S (S i)) with (i + 2)%nat by lia.
    apply Htwice. lia. }
  rewrite Hd2.
  assert (Hparity : (numtaps mod 2 =? 0) && negb (Qc_eqb (last gain 0%Qc) 0%Qc) = false).
  { destruct (Qc_eq_dec (last gain 0%Qc) 0%Qc) as [Hg|Hg].
    - apply Qc_eqb_true in Hg. rewrite Hg. apply andb_false_r.
    - rewrite (Hodd Hg). reflexivity. }
  rewrite Hparity.
  assert (Hmesh' : exists n,
             match nfreqs with Some n => Ok n | None => default_nfreqs numtaps end = Ok n
             /\ numtaps < n).
  { destruct nfreqs as [n|].
    - exists n; auto.
    - unfold default_nfreqs.
      assert (Hle : (numtaps <=? 0) = false) by (apply Z.leb_gt; lia).
      rewrite Hle. eexists; split; [reflexivity|].
      destruct (ceil_log2_spec Hpos). lia. }
  destruct Hmesh' as [n [-> Hn']]. simpl.
  now apply design_length.
Qed.

Lemma firwin2_returns_numtaps_coefficients_witness :
  exists out,
    snd (_firwin2 3 [0%Qc; Q2Qc (1 # 2); Q2Qc (1 # 2); 1%Qc]
                  [1%Qc; 1%Qc; 0%Qc; 0%Qc] None (Some tt) 1%Qc) = Ok out /\
    Z.of_nat (length out) = 3.
Proof.
  apply (@firwin2_returns_numtaps_coefficients reference_backend).
  - lia.
  - reflexivity.
  - reflexivity.
  - reflexivity.
  - intros [|[|[|i]]] Hi; simpl in Hi; try lia; vm_compute; discriminate.
  - intros [|[|i]] Hi; simpl in Hi; try lia;
      intro Hq; apply (f_equal this) in Hq; vm_compute in Hq; discriminate.
  - discriminate.
  - intros Hg. exfalso. apply Hg. reflexivity.
Defined.

(** C8, at the input [freq = [0, 0.5, 0.5, 1]]: the loop over the
    repeated values writes [0.5 - eps] and [0.5 + eps] into the caller's
    [freq], which is not what it was after the call. *)
Theorem firwin2_overwrites_repeated_freq `{FirBackend} :
  let freq := [0%Qc; Q2Qc (1 # 2); Q2Qc (1 # 2); 1%Qc] in
  fst (_firwin2 3 freq [1%Qc; 1%Qc; 0%Qc; 0%Qc] None None 1%Qc)
  = [0%Qc; (Q2Qc (1 # 2) - eps)%Qc; (Q2Qc (1 # 2) + eps)%Qc; 1%Qc] /\
  fst (_firwin2 3 freq [1%Qc; 1%Qc; 0%Qc; 0%Qc] None None 1%Qc) <> freq.
Proof.
  intros freq.
  assert (E : fst (_firwin2 3 freq [1%Qc; 1%Qc; 0%Qc; 0%Qc] None None 1%Qc)
              = [0%Qc; (Q2Qc (1 # 2) - eps)%Qc; (Q2Qc (1 # 2) + eps)%Qc; 1%Qc])
    by reflexivity.
  split; [exact E|].
  rewrite E. intros Hq.
  apply (f_equal (fun l => this (nth 1 l 0%Qc))) in Hq.
  vm_compute in Hq. discriminate.
Qed.

(** The arguments are untouched on every path that raises before the
    loop, and when no value of [freq] is repeated. *)
Lemma tweak_step_distinct freq k :
  (forall i, (i + 1 < length freq)%nat -> nth i freq 0%Qc <> nth (i + 1) freq 0%Qc) ->
  tweak_step freq k = freq.
Proof.
  intros Hd. unfold tweak_step.
  destruct (Nat.ltb_spec k (length freq - 1)); simpl; auto.
  assert (Hne : Qc_eqb (nth k freq 0%Qc) (nth (k + 1) freq 0%Qc) = false)
    by (apply Qc_eqb_false, Hd; lia).
  now rewrite Hne.
Qed.

Lemma tweak_distinct freq :
  (forall i, (i + 1 < length freq)%nat -> nth i freq 0%Qc <> nth (i + 1) freq 0%Qc) ->
  tweak freq = freq.
Proof.
  intros Hd. unfold tweak. generalize (seq 0 (length freq)) as ks.
  induction ks as [|k ks IH]; simpl; auto.
  now rewrite tweak_step_distinct.
Qed.

(** ** The models on the examples of the library documentation *)

(** The examples of the docstrings of [odd_ext], [even_ext] and
    [const_ext] in [scipy.signal._arraytools]. *)
Example odd_ext1_doc :
  map this (odd_ext1 2 (floats [1; 2; 3; 4; 5])) = map inject_Z [-1; 0; 1; 2; 3; 4; 5; 6; 7] /\
  map this (odd_ext1 2 (floats [0; 1; 4; 9; 16])) = map inject_Z [-4; -1; 0; 1; 4; 9; 16; 23; 28].
Proof. split; vm_compute; reflexivity. Qed.

Example even_ext1_doc :
  map this (even_ext1 2 (floats [1; 2; 3; 4; 5])) = map inject_Z [3; 2; 1; 2; 3; 4; 5; 4; 3] /\
  map this (even_ext1 2 (floats [0; 1; 4; 9; 16])) = map inject_Z [4; 1; 0; 1; 4; 9; 16; 9; 4].
Proof. split; vm_compute; reflexivity. Qed.

Example const_ext1_doc :
  map this (const_ext1 2 (floats [1; 2; 3; 4; 5])) = map inject_Z [1; 1; 1; 2; 3; 4; 5; 5; 5] /\
  map this (const_ext1 2 (floats [0; 1; 4; 9; 16])) = map inject_Z [0; 0; 0; 1; 4; 9; 16; 16; 16].
Proof. split; vm_compute; reflexivity. Qed.

(** The steady state of the one-pole filter: with the output settled at
    the gain 0.5, the delay holds [-a[1] * 0.5 = 0.25]. *)
Example lfilter_zi_one_pole :
  match lfilter_zi one_pole_b one_pole_a with
  | Ok zi => map this zi
  | Err _ => []
  end = [(1 # 4)%Q].
Proof. vm_compute. reflexivity. Qed.

(** A run of [_filtfilt]: the calls it makes and the samples it returns. *)
Example filtfilt_one_pole_run :
  let run := _filtfilt one_pole_b one_pole_a ones7 (-1) (Some "odd"%string) None in
  fst run = [PadCall "odd"; InitialConditionCall; FilterCall; FilterCall] /\
  match snd run with
  | Ok y => (shape y, map (fun i => this (get y [i])) (seq 0 7))
  | Err _ => ([], [])
  end = ([7%nat], repeat (1 # 4)%Q 7).
Proof. split; vm_compute; reflexivity. Qed.

Example argsort_stable : argsort [3; 1; 3; 1; 2] = [1; 3; 4; 0; 2]%nat.
Proof. reflexivity. Qed.

Example unique_with_index_and_inverse :
  _unique [3; 1; 3; 7; 2] true true
  = mk_unique [1; 2; 3; 7] (Some [1; 4; 0; 3]%nat) (Some [2; 0; 2; 3; 1]).
Proof. reflexivity. Qed.

(** ** Lanes of n-dimensional arrays *)

Lemma list_set_nth_same {A} k (d : A) l : list_set k (nth k l d) l = l.
Proof.
  revert k; induction l as [|x l IH]; intros [|k]; simpl; auto.
  now rewrite IH.
Qed.

Lemma map_nth_seq {A} (l : list A) d :
  map (fun i => nth i l d) (seq 0 (length l)) = l.
Proof.
  induction l as [|x l IH]; simpl; auto.
  f_equal. rewrite <- seq_shift, map_map. exact IH.
Qed.

Lemma firstn_skipn_seq lo cnt n :
  (lo + cnt <= n)%nat -> firstn cnt (skipn lo (seq 0 n)) = seq lo cnt.
Proof.
  intros H. replace n with (lo + (cnt + (n - lo - cnt)))%nat by lia.
  rewrite seq_app, skipn_app, length_seq, Nat.sub_diag, skipn_all2 by (rewrite length_seq; lia).
  simpl. rewrite seq_app, firstn_app, length_seq, Nat.sub_diag.
  rewrite firstn_all2 by (rewrite length_seq; lia). simpl. apply app_nil_r.
Qed.

Lemma rev_seq n : rev (seq 0 n) = map (fun i => (n - 1 - i)%nat) (seq 0 n).
Proof.
  induction n as [|n IH]; auto.
  rewrite seq_S at 1. rewrite rev_app_distr. simpl rev. simpl app.
  simpl seq. simpl map. f_equal; [lia|].
  rewrite IH, <- seq_shift, map_map. apply map_ext_in. intros i Hi.
  apply in_seq in Hi. lia.
Qed.

Lemma lane_length x ax idx : length (lane x ax idx) = axis_len x ax.
Proof. unfold lane. now rewrite length_map, length_seq. Qed.

Lemma lane_list_set x ax i idx : lane x ax (list_set ax i idx) = lane x ax idx.
Proof.
  unfold lane. apply map_ext. intros j. now rewrite list_set_twice.
Qed.

Lemma lane_along_axis f m x ax idx :
  (ax < ndim x)%nat -> (ax < length idx)%nat ->
  length (f (lane x ax idx)) = m ->
  lane (along_axis f m x ax) ax idx = f (lane x ax idx).
Proof.
  intros Hax Hidx Hm.
  transitivity (map (fun i => nth i (f (lane x ax idx)) 0%Qc) (seq 0 m)).
  - unfold lane at 1. unfold axis_len, along_axis. cbn [shape get].
    rewrite nth_list_set_eq by exact Hax.
    apply map_ext. intros i.
    now rewrite nth_list_set_eq, lane_list_set by exact Hidx.
  - rewrite <- Hm. apply map_nth_seq.
Qed.

Lemma slice_bounds_le n start stop :
  (fst (slice_bounds n start stop) + snd (slice_bounds n start stop) <= n)%nat.
Proof.
  unfold slice_bounds, clip_index. simpl.
  destruct start as [s|], stop as [t|]; lia.
Qed.

Lemma map_seq_offset {A} (g : nat -> A) lo cnt :
  map (fun i => g (lo + i)%nat) (seq 0 cnt) = map g (seq lo cnt).
Proof.
  revert lo; induction cnt as [|cnt IH]; intros lo; simpl; auto.
  rewrite Nat.add_0_r. f_equal.
  rewrite <- seq_shift, map_map, <- IH. apply map_ext. intros i. f_equal. lia.
Qed.

Lemma lane_axis_slice x start stop ax idx :
  (ax < ndim x)%nat -> (ax < length idx)%nat ->
  lane (axis_slice x start stop ax) ax idx = py_slice (lane x ax idx) start stop.
Proof.
  intros Hax Hidx. unfold py_slice. rewrite lane_length.
  pose proof (slice_bounds_le (axis_len x ax) start stop) as Hle.
  unfold lane at 1. unfold axis_len at 1. unfold axis_slice.
  destruct (slice_bounds (axis_len x ax) start stop) as [lo cnt]. cbn [shape get fst snd] in *.
  rewrite nth_list_set_eq by exact Hax.
  unfold lane. rewrite skipn_map, firstn_map, firstn_skipn_seq by exact Hle.
  rewrite <- (map_seq_offset (fun j => get x (list_set ax j idx))).
  apply map_ext. intros i.
  now rewrite nth_list_set_eq, list_set_twice by exact Hidx.
Qed.

Lemma lane_axis_reverse x ax idx :
  (ax < length idx)%nat ->
  lane (axis_reverse x ax) ax idx = rev (lane x ax idx).
Proof.
  intros Hidx. unfold lane. rewrite <- map_rev, rev_seq, map_map.
  unfold axis_len, axis_reverse. cbn [shape get].
  apply map_ext. intros i.
  now rewrite nth_list_set_eq, list_set_twice by exact Hidx.
Qed.

Lemma lfilter1_length b a z xs : length (fst (lfilter1 b a z xs)) = length xs.
Proof.
  revert z; induction xs as [|x xs IH]; intros z; cbn [lfilter1]; auto.
  destruct (lfilter_step b a z x) as [y z'].
  specialize (IH z'). destruct (lfilter1 b a z' xs) as [ys zf].
  cbn [fst length] in *. now rewrite IH.
Qed.

(** ** Broadcasting the steady state over the signal *)

Lemma prod_cons s shp : prod (s :: shp) = (s * prod shp)%nat.
Proof. reflexivity. Qed.

Lemma prod_repeat_one n : prod (repeat 1%nat n) = 1%nat.
Proof.
  induction n as [|n IH]; [reflexivity|].
  cbn [repeat]. rewrite prod_cons, IH. reflexivity.
Qed.

Lemma prod_unit_axis ax m nd :
  (ax < nd)%nat -> prod (list_set ax m (repeat 1%nat nd)) = m.
Proof.
  revert nd; induction ax as [|ax IH]; intros [|nd] H; try lia;
    cbn [repeat list_set]; rewrite prod_cons.
  - rewrite prod_repeat_one. lia.
  - rewrite IH by lia. lia.
Qed.

Lemma bcast_dim_one_l s : bcast_dim 1 s = Some s.
Proof.
  unfold bcast_dim. destruct (Nat.eqb_spec 1 s); [now subst|reflexivity].
Qed.

Lemma bcast_dim_one_r m : bcast_dim m 1 = Some m.
Proof.
  unfold bcast_dim. destruct (Nat.eqb_spec m 1); auto.
Qed.

Lemma bcast_shape_ones shp : bcast_shape (repeat 1%nat (length shp)) shp = Some shp.
Proof.
  induction shp as [|s shp IH]; simpl; auto.
  now rewrite bcast_dim_one_l, IH.
Qed.

Lemma bcast_shape_unit_axis ax m shp :
  (ax < length shp)%nat ->
  bcast_shape (list_set ax m (repeat 1%nat (length shp))) (list_set ax 1%nat shp)
  = Some (list_set ax m shp).
Proof.
  revert shp; induction ax as [|ax IH]; intros [|s shp] H; simpl in *; try lia.
  - now rewrite bcast_dim_one_r, bcast_shape_ones.
  - now rewrite bcast_dim_one_l, IH by lia.
Qed.

Lemma ravel_clamp_ones idx : ravel (repeat 1%nat (length idx)) (clamp (repeat 1%nat (length idx)) idx) = O.
Proof.
  induction idx as [|i idx IH]; [reflexivity|].
  cbn [length repeat clamp map2 ravel]. fold (clamp (repeat 1%nat (length idx)) idx).
  rewrite IH, Nat.eqb_refl. reflexivity.
Qed.

(** Reading the reshaped steady state through the broadcast: entry [i]
    along the axis, whatever the other coordinates. *)
Lemma ravel_clamp_unit_axis ax m i idx :
  (ax < length idx)%nat -> (i < m)%nat ->
  let zi_shape := list_set ax m (repeat 1%nat (length idx)) in
  ravel zi_shape (clamp zi_shape (list_set ax i idx)) = i.
Proof.
  revert idx; induction ax as [|ax IH]; intros [|j idx] H Hi; cbn [length] in H; try lia;
    cbn zeta; cbn [length repeat list_set clamp map2 ravel].
  - fold (clamp (repeat 1%nat (length idx)) idx).
    rewrite prod_repeat_one, ravel_clamp_ones.
    destruct (Nat.eqb_spec m 1); lia.
  - fold (clamp (list_set ax m (repeat 1%nat (length idx))) (list_set ax i idx)).
    rewrite Nat.eqb_refl. specialize (IH idx ltac:(lia) Hi). cbn zeta in IH.
    rewrite IH. lia.
Qed.

Lemma off_axis_ok_cons_zero s shp i idx :
  off_axis_ok 0 (s :: shp) (i :: idx) ->
  length idx = length shp /\ forall k, (k < length shp)%nat -> (nth k idx O < nth k shp O)%nat.
Proof.
  intros [Hl Hk]; simpl in Hl; split; [lia|].
  intros k Hlt. apply (Hk (S k)); simpl; lia.
Qed.

Lemma off_axis_ok_cons_succ ax s shp i idx :
  off_axis_ok (S ax) (s :: shp) (i :: idx) ->
  (i < s)%nat /\ off_axis_ok ax shp idx.
Proof.
  intros [Hl Hk]; simpl in Hl; split.
  - apply (Hk O); simpl; lia.
  - split; [lia|]. intros k Hne Hlt. apply (Hk (S k)); simpl; lia.
Qed.

Lemma clamp_in_bounds shp idx :
  length idx = length shp ->
  (forall k, (k < length shp)%nat -> (nth k idx O < nth k shp O)%nat) ->
  clamp shp idx = idx.
Proof.
  revert idx; induction shp as [|s shp IH]; intros [|i idx] Hl Hk;
    cbn [length] in *; try lia; auto.
  cbn [clamp map2]. fold (clamp shp idx). rewrite IH.
  - specialize (Hk O ltac:(lia)). cbn [nth] in Hk.
    destruct (Nat.eqb_spec s 1); [f_equal; lia|reflexivity].
  - lia.
  - intros k Hlt. apply (Hk (S k)). lia.
Qed.

(** Reading an array of extent one along [ax] through the broadcast: its
    only entry along the axis. *)
Lemma clamp_unit_axis ax shp i idx :
  (ax < length shp)%nat ->
  off_axis_ok ax shp idx ->
  clamp (list_set ax 1%nat shp) (list_set ax i idx) = list_set ax O idx.
Proof.
  revert shp idx; induction ax as [|ax IH]; intros [|s shp] [|j idx] Hax Hok;
    cbn [length] in *; try lia; try (destruct Hok as [Hl _]; cbn [length] in Hl; lia);
    cbn [list_set clamp map2].
  - apply off_axis_ok_cons_zero in Hok. destruct Hok as [Hl Hk].
    fold (clamp shp idx). now rewrite clamp_in_bounds.
  - apply off_axis_ok_cons_succ in Hok. destruct Hok as [Hj Hok].
    fold (clamp (list_set ax 1%nat shp) (list_set ax i idx)).
    rewrite IH by (auto; lia).
    destruct (Nat.eqb_spec s 1); [f_equal; lia|reflexivity].
Qed.

Lemma off_axis_ok_length ax shp idx :
  (ax < length shp)%nat -> off_axis_ok ax shp idx -> (ax < length idx)%nat.
Proof. intros H [Hl _]. lia. Qed.

Lemma off_axis_ok_list_set ax m shp idx :
  off_axis_ok ax shp idx -> off_axis_ok ax (list_set ax m shp) idx.
Proof.
  intros [Hl Hk]. split; [now rewrite list_set_length|].
  intros k Hne Hlt. rewrite list_set_length in Hlt.
  rewrite nth_list_set_neq by congruence. now apply Hk.
Qed.

(** [zi * x0]: the steady state reshaped along the axis, times the slice
    [s] of extent one.  Every lane of the product is [zi] scaled by the
    entry of [s] in that lane. *)
Lemma scaled_initial_condition zi s ax shp :
  (ax < length shp)%nat ->
  shape s = list_set ax 1%nat shp ->
  exists zi_arr,
    np_reshape zi (list_set ax (length zi) (repeat 1%nat (length shp))) = Ok zi_arr /\
    exists zs,
      np_mul zi_arr s = Ok zs /\
      shape zs = list_set ax (length zi) shp /\
      forall idx, off_axis_ok ax shp idx ->
        lane zs ax idx = map (fun z => z * hd 0 (lane s ax idx))%Qc zi.
Proof.
  intros Hax Hs. unfold np_reshape.
  rewrite prod_unit_axis, Nat.eqb_refl by exact Hax.
  eexists; split; [reflexivity|].
  unfold np_mul. cbn [shape get]. rewrite Hs, bcast_shape_unit_axis by exact Hax.
  eexists; split; [reflexivity|]. cbn [shape]. split; [reflexivity|].
  intros idx Hok. pose proof (off_axis_ok_length Hax Hok) as Hidx.
  assert (Hlen : length idx = length shp) by (destruct Hok; auto).
  unfold lane at 1. unfold axis_len. cbn [shape get].
  rewrite nth_list_set_eq by exact Hax.
  assert (Hs1 : lane s ax idx = [get s (list_set ax O idx)]).
  { unfold lane, axis_len. rewrite Hs, nth_list_set_eq by exact Hax. reflexivity. }
  rewrite Hs1. cbn [hd].
  rewrite <- (map_nth_seq zi 0%Qc) at 2. rewrite map_map.
  apply map_ext_in. intros i Hi. apply in_seq in Hi.
  rewrite clamp_unit_axis by assumption.
  rewrite <- Hlen, ravel_clamp_unit_axis by (auto; lia).
  reflexivity.
Qed.

(** ** The stages of [_filtfilt], lane by lane *)

Lemma slice_bounds_first n : (1 <= n)%nat -> slice_bounds n None (Some 1) = (O, 1%nat).
Proof.
  intros Hn. unfold slice_bounds, clip_index. cbn [Z.ltb Z.compare]. f_equal. lia.
Qed.

Lemma slice_bounds_last n :
  (1 <= n)%nat -> slice_bounds n (Some (-1)) None = ((n - 1)%nat, 1%nat).
Proof.
  intros Hn. unfold slice_bounds, clip_index. cbn [Z.ltb Z.compare]. f_equal; lia.
Qed.

Lemma slice_bounds_trim n e :
  0 < e ->
  slice_bounds (n + 2 * Z.to_nat e) (Some e) (Some (- e)) = (Z.to_nat e, n).
Proof.
  intros He. unfold slice_bounds, clip_index.
  assert (H1 : (e <? 0) = false) by (apply Z.ltb_ge; lia).
  assert (H2 : (- e <? 0) = true) by (apply Z.ltb_lt; lia).
  rewrite H1, H2. f_equal; lia.
Qed.

Lemma norm_axis_lt n axis ax : norm_axis n axis = Ok ax -> (ax < n)%nat.
Proof.
  unfold norm_axis.
  destruct (Z.leb_spec 0 axis), (Z.ltb_spec axis (Z.of_nat n)); cbn [andb];
    try (intros [= <-]; lia);
    destruct (Z.ltb_spec axis 0), (Z.leb_spec (- Z.of_nat n) axis); cbn [andb];
    try discriminate; intros [= <-]; lia.
Qed.

Lemma left_ext_length l n : (n <= length l - 1)%nat -> length (left_ext l n) = n.
Proof.
  intros H. unfold left_ext. rewrite length_rev, length_firstn, length_tl. lia.
Qed.

Lemma right_ext_length l n : (n <= length l - 1)%nat -> length (right_ext l n) = n.
Proof.
  intros H. unfold right_ext. rewrite length_firstn, length_tl, length_rev. lia.
Qed.

Lemma odd_ext1_length n l :
  (n <= length l - 1)%nat -> length (odd_ext1 n l) = (length l + 2 * n)%nat.
Proof.
  intros H. unfold odd_ext1.
  rewrite !length_app, !length_map, left_ext_length, right_ext_length by exact H. lia.
Qed.

Lemma even_ext1_length n l :
  (n <= length l - 1)%nat -> length (even_ext1 n l) = (length l + 2 * n)%nat.
Proof.
  intros H. unfold even_ext1.
  rewrite !length_app, left_ext_length, right_ext_length by exact H. lia.
Qed.

Lemma const_ext1_length n l : length (const_ext1 n l) = (length l + 2 * n)%nat.
Proof.
  unfold const_ext1. rewrite !length_app, !repeat_length. lia.
Qed.

Lemma stage_along_axis f m x ax :
  (ax < ndim x)%nat ->
  (forall idx, length (f (lane x ax idx)) = m) ->
  stage x ax m (fun idx => f (lane x ax idx)) (along_axis f m x ax).
Proof.
  intros Hax Hm. split; [reflexivity|].
  intros idx Hidx. now apply lane_along_axis.
Qed.

Lemma odd_ext_stage x e ax :
  (ax < ndim x)%nat -> 1 <= e <= Z.of_nat (axis_len x ax) - 1 ->
  exists ext, odd_ext x e ax = Ok ext /\
    stage x ax (axis_len x ax + 2 * Z.to_nat e)
          (fun idx => odd_ext1 (Z.to_nat e) (lane x ax idx)) ext.
Proof.
  intros Hax He. unfold odd_ext.
  destruct (Z.ltb_spec e 1); [lia|].
  destruct (Z.ltb_spec (Z.of_nat (axis_len x ax) - 1) e); [lia|].
  eexists; split; [reflexivity|]. apply stage_along_axis; auto.
  intros idx. rewrite odd_ext1_length; rewrite lane_length; lia.
Qed.

Lemma even_ext_stage x e ax :
  (ax < ndim x)%nat -> 1 <= e <= Z.of_nat (axis_len x ax) - 1 ->
  exists ext, even_ext x e ax = Ok ext /\
    stage x ax (axis_len x ax + 2 * Z.to_nat e)
          (fun idx => even_ext1 (Z.to_nat e) (lane x ax idx)) ext.
Proof.
  intros Hax He. unfold even_ext.
  destruct (Z.ltb_spec e 1); [lia|].
  destruct (Z.ltb_spec (Z.of_nat (axis_len x ax) - 1) e); [lia|].
  eexists; split; [reflexivity|]. apply stage_along_axis; auto.
  intros idx. rewrite even_ext1_length; rewrite lane_length; lia.
Qed.

Lemma const_ext_stage x e ax :
  (ax < ndim x)%nat -> 1 <= e <= Z.of_nat (axis_len x ax) - 1 ->
  exists ext, const_ext x e ax = Ok ext /\
    stage x ax (axis_len x ax + 2 * Z.to_nat e)
          (fun idx => const_ext1 (Z.to_nat e) (lane x ax idx)) ext.
Proof.
  intros Hax He. unfold const_ext.
  destruct (Z.ltb_spec e 1); [lia|].
  destruct (Nat.eqb_spec (axis_len x ax) 0); [lia|].
  eexists; split; [reflexivity|]. apply stage_along_axis; auto.
  intros idx. rewrite const_ext1_length, lane_length; lia.
Qed.

Lemma stage_self x ax : stage x ax (axis_len x ax) (fun idx => lane x ax idx) x.
Proof.
  split; [|reflexivity]. unfold axis_len. now rewrite list_set_nth_same.
Qed.

Lemma stage_axis_len x ax m F y :
  (ax < ndim x)%nat -> stage x ax m F y -> axis_len y ax = m /\ ndim y = ndim x.
Proof.
  intros Hax [Hs _]. unfold axis_len, ndim. rewrite Hs.
  now rewrite nth_list_set_eq, list_set_length by exact Hax.
Qed.

(** The padding step: the extended array, whose lanes are the extended
    lanes of [x]. *)
Lemma padding_stage x ax (padtype : option string) edge :
  (ax < ndim x)%nat ->
  padtype_valid padtype = true ->
  (padtype = None -> edge = 0) ->
  edge < Z.of_nat (axis_len x ax) ->
  exists tr ext,
    match padtype with
    | Some kind =>
      if 0 <? edge then
        if String.eqb kind "even" then call (PadCall kind) (even_ext x edge ax)
        else if String.eqb kind "odd" then call (PadCall kind) (odd_ext x edge ax)
        else call (PadCall kind) (const_ext x edge ax)
      else ret x
    | None => ret x
    end = (tr, Ok ext) /\
    stage x ax (padded_len (axis_len x ax) edge)
          (fun idx => ext1 padtype edge (lane x ax idx)) ext.
Proof.
  intros Hax Hvalid Hnone He. unfold padded_len, ext1.
  destruct padtype as [kind|].
  - destruct (Z.ltb_spec 0 edge).
    + destruct (String.eqb kind "even");
        [|destruct (String.eqb kind "odd")].
      * destruct (@even_ext_stage x edge ax Hax ltac:(lia)) as [ext [-> Hst]].
        unfold call. eauto.
      * destruct (@odd_ext_stage x edge ax Hax ltac:(lia)) as [ext [-> Hst]].
        unfold call. eauto.
      * destruct (@const_ext_stage x edge ax Hax ltac:(lia)) as [ext [-> Hst]].
        unfold call. eauto.
    + unfold ret. do 2 eexists; split; [reflexivity|].
      replace (Z.to_nat edge) with O by lia. rewrite Nat.add_0_r. apply stage_self.
  - unfold ret. do 2 eexists; split; [reflexivity|].
    rewrite Hnone by reflexivity. rewrite Nat.add_0_r. apply stage_self.
Qed.

Lemma strip_zeros_nonzero a : hd 0%Qc a <> 0%Qc -> strip_zeros a = a.
Proof.
  destruct a as [|a0 [|a1 a]]; simpl; auto.
  intros H. apply Qc_eqb_false in H. now rewrite H.
Qed.

Lemma normalize_length n a0 l : (length l <= n)%nat -> length (normalize n a0 l) = n.
Proof.
  intros H. unfold normalize, pad_to. rewrite length_app, repeat_length, length_map. lia.
Qed.

Lemma suffix_sums_length l : length (suffix_sums l) = length l.
Proof. induction l; simpl; auto. Qed.

Lemma Qc_sum_app l1 l2 : Qc_sum (l1 ++ l2) = (Qc_sum l1 + Qc_sum l2)%Qc.
Proof.
  induction l1 as [|x l1 IH]; simpl; [ring|]. rewrite IH. ring.
Qed.

Lemma Qc_sum_zeros n : Qc_sum (repeat 0%Qc n) = 0%Qc.
Proof. induction n as [|n IH]; simpl; auto. rewrite IH. ring. Qed.

Lemma Qc_sum_div a0 l : a0 <> 0%Qc -> Qc_sum (map (fun v => v / a0)%Qc l) = (Qc_sum l / a0)%Qc.
Proof.
  intros H. induction l as [|x l IH]; simpl.
  - field. exact H.
  - rewrite IH. field. exact H.
Qed.

Lemma Qc_sum_normalize n a0 l :
  a0 <> 0%Qc -> Qc_sum (normalize n a0 l) = (Qc_sum l / a0)%Qc.
Proof.
  intros H. unfold normalize, pad_to.
  rewrite Qc_sum_app, Qc_sum_zeros, Qc_sum_div by exact H. ring.
Qed.

Lemma Qc_div_nonzero p q : p <> 0%Qc -> q <> 0%Qc -> (p / q)%Qc <> 0%Qc.
Proof.
  intros Hp Hq Hz. apply Hp.
  transitivity (p / q * q)%Qc; [field; exact Hq|]. rewrite Hz. ring.
Qed.

Lemma lfilter_zi_accepted b a :
  accepted_filter b a ->
  let n := Nat.max (length a) (length b) in
  let b' := normalize n (hd 0%Qc a) b in
  let a' := normalize n (hd 0%Qc a) a in
  exists zi,
    lfilter_zi b a = Ok zi /\
    length zi = (n - 1)%nat /\
    zi = suffix_sums (map2 (fun bj aj => bj - aj * (Qc_sum b' / Qc_sum a'))%Qc (tl b') (tl a')).
Proof.
  intros [Ha0 [Hn Hsum]] n b' a'. unfold lfilter_zi.
  rewrite strip_zeros_nonzero by exact Ha0.
  destruct a as [|a0 ar]; [now elim Ha0|]. cbn [hd] in *.
  apply Qc_eqb_false in Ha0. rewrite Ha0. apply Qc_eqb_false in Ha0.
  fold n. fold b'. fold a'.
  destruct (Nat.ltb_spec n 2); [lia|].
  assert (Hs : Qc_eqb (Qc_sum a') 0%Qc = false).
  { apply Qc_eqb_false. unfold a'. rewrite Qc_sum_normalize by exact Ha0.
    now apply Qc_div_nonzero. }
  rewrite Hs. eexists; split; [reflexivity|]. split; [|reflexivity].
  rewrite suffix_sums_length, map2_length, !length_tl.
  unfold b', a'. rewrite !normalize_length by lia. lia.
Qed.

Lemma lfilter_stage b a x ax zi :
  hd 0%Qc a <> 0%Qc ->
  (ax < ndim x)%nat ->
  let n := Nat.max (length a) (length b) in
  shape zi = list_set ax (n - 1)%nat (shape x) ->
  exists y zf,
    lfilter b a x ax zi = Ok (y, zf) /\
    stage x ax (axis_len x ax)
          (fun idx => fst (lfilter1 (normalize n (hd 0%Qc a) b) (normalize n (hd 0%Qc a) a)
                                    (lane zi ax idx) (lane x ax idx))) y.
Proof.
  intros Ha0 Hax n Hzi. unfold lfilter.
  destruct a as [|a0 ar]; [now elim Ha0|]. cbn [hd] in *.
  apply Qc_eqb_false in Ha0. rewrite Ha0. fold n.
  destruct (list_eq_dec Nat.eq_dec (shape zi) (list_set ax (n - 1)%nat (shape x)));
    [|contradiction].
  do 2 eexists; split; [reflexivity|]. split.
  - cbn [shape]. unfold axis_len. now rewrite list_set_nth_same.
  - intros idx Hidx.
    set (F := fun idx => fst (lfilter1 (normalize n a0 b) (normalize n a0 (a0 :: ar))
                                       (lane zi ax idx) (lane x ax idx))).
    transitivity (map (fun i => nth i (F idx) 0%Qc) (seq 0 (axis_len x ax))).
    + unfold lane at 1. unfold axis_len at 1. cbn [shape get].
      apply map_ext. intros i.
      rewrite nth_list_set_eq by exact Hidx. unfold F.
      now rewrite !lane_list_set.
    + rewrite <- (lane_length x ax idx).
      rewrite <- (lfilter1_length (normalize n a0 b) (normalize n a0 (a0 :: ar))
                                  (lane zi ax idx) (lane x ax idx)).
      apply map_nth_seq.
Qed.

Lemma snd_bind_ok {A B} (m : M A) (k : A -> M B) t a :
  m = (t, Ok a) -> snd (bind m k) = snd (k a).
Proof. intros ->. unfold bind. now destruct (k a). Qed.

Lemma fst_bind_ok {A B} (m : M A) (k : A -> M B) t a :
  m = (t, Ok a) -> fst (bind m k) = t ++ fst (k a).
Proof. intros ->. unfold bind. now destruct (k a). Qed.

Lemma stage_shape_same x ax F y : stage x ax (axis_len x ax) F y -> shape y = shape x.
Proof. intros [Hs _]. rewrite Hs. unfold axis_len. apply list_set_nth_same. Qed.

Lemma shape_axis_slice x start stop ax :
  shape (axis_slice x start stop ax)
  = list_set ax (snd (slice_bounds (axis_len x ax) start stop)) (shape x).
Proof.
  unfold axis_slice. now destruct (slice_bounds (axis_len x ax) start stop).
Qed.

Lemma shape_axis_reverse x ax : shape (axis_reverse x ax) = shape x.
Proof. reflexivity. Qed.

Lemma effective_edge_none b a padlen : effective_edge b a None padlen = 0.
Proof. reflexivity. Qed.

(** [_filtfilt] on an accepted filter, a valid axis and padding and a
    permitted pad length: the call returns, the result has the shape of
    [x], and each of its lanes along the axis is the one-dimensional
    forward-backward filter of the same lane of [x]. *)
Lemma filtfilt_lanes b a x axis padtype padlen ax :
  accepted_filter b a ->
  padtype_valid padtype = true ->
  norm_axis (ndim x) axis = Ok ax ->
  0 <= effective_edge b a padtype padlen < Z.of_nat (axis_len x ax) ->
  exists zi y,
    lfilter_zi b a = Ok zi /\
    snd (_filtfilt b a x axis padtype padlen) = Ok y /\
    shape y = shape x /\
    forall idx, off_axis_ok ax (shape x) idx ->
      lane y ax idx
      = _filtfilt1 b a padtype (effective_edge b a padtype padlen) zi (lane x ax idx).
Proof.
  intros Hacc Hvalid Hax He.
  pose proof (norm_axis_lt _ _ Hax) as Haxlt.
  destruct (lfilter_zi_accepted Hacc) as [zi [Hzi [Hzilen _]]].
  destruct Hacc as [Ha0 _].
  exists zi. unfold _filtfilt. rewrite Hvalid. cbn [negb].
  set (edge := effective_edge b a padtype padlen) in *.
  rewrite (@snd_bind_ok _ _ _ _ [] ax) by (unfold lift; now rewrite Hax).
  destruct (Z.leb_spec (Z.of_nat (axis_len x ax)) edge); [lia|].
  assert (Hnone : padtype = None -> edge = 0) by (intros ->; reflexivity).
  destruct (@padding_stage x ax padtype edge Haxlt Hvalid Hnone (proj2 He))
    as [tr [ext [Hpad Hext]]].
  rewrite (snd_bind_ok _ Hpad).
  rewrite (@snd_bind_ok _ _ _ _ [InitialConditionCall] zi)
    by (unfold call; now rewrite Hzi).
  destruct (stage_axis_len Haxlt Hext) as [Hextlen Hextdim].
  assert (Haxext : (ax < length (shape ext))%nat) by (fold (ndim ext); lia).
  assert (Hext1 : (1 <= axis_len ext ax)%nat) by (unfold padded_len in Hextlen; lia).
  (* forward pass *)
  set (x0 := axis_slice ext None (Some 1) ax).
  assert (Hx0 : shape x0 = list_set ax 1%nat (shape ext)).
  { unfold x0, axis_slice. now rewrite slice_bounds_first. }
  destruct (@scaled_initial_condition zi x0 ax (shape ext) Haxext Hx0)
    as [zi_arr [Hresh [zx0 [Hmul [Hzx0 Hzx0lanes]]]]].
  replace (ndim x) with (length (shape ext)) by (fold (ndim ext); lia).
  rewrite (@snd_bind_ok _ _ _ _ [] zi_arr) by (unfold lift; now rewrite Hresh).
  rewrite (@snd_bind_ok _ _ _ _ [] zx0) by (unfold lift; now rewrite Hmul).
  rewrite Hzilen in Hzx0.
  destruct (@lfilter_stage b a ext ax zx0 Ha0 ltac:(fold (ndim ext) in Haxext; exact Haxext) Hzx0)
    as [y [zf [Hlf Hy]]].
  rewrite (@snd_bind_ok _ _ _ _ [FilterCall] (y, zf)) by (unfold call; now rewrite Hlf).
  cbn [fst].
  pose proof (stage_shape_same Hy) as Hyshape.
  assert (Hylen : axis_len y ax = axis_len ext ax) by (unfold axis_len; now rewrite Hyshape).
  (* backward pass *)
  set (y0 := axis_slice y (Some (-1)) None ax).
  assert (Hy0 : shape y0 = list_set ax 1%nat (shape ext)).
  { unfold y0, axis_slice. rewrite slice_bounds_last by lia. cbn [shape]. now rewrite Hyshape. }
  destruct (@scaled_initial_condition zi y0 ax (shape ext) Haxext Hy0)
    as [zi_arr' [Hresh' [zy0 [Hmul' [Hzy0 Hzy0lanes]]]]].
  rewrite Hresh in Hresh'. injection Hresh' as <-.
  rewrite (@snd_bind_ok _ _ _ _ [] zy0) by (unfold lift; now rewrite Hmul').
  rewrite Hzilen in Hzy0.
  assert (Hrevshape : shape (axis_reverse y ax) = shape ext) by exact Hyshape.
  rewrite <- Hrevshape in Hzy0.
  assert (Haxrev : (ax < ndim (axis_reverse y ax))%nat)
    by (unfold ndim; rewrite Hrevshape; exact Haxext).
  destruct (@lfilter_stage b a (axis_reverse y ax) ax zy0 Ha0 Haxrev Hzy0)
    as [y2 [zf2 [Hlf2 Hy2]]].
  rewrite (@snd_bind_ok _ _ _ _ [FilterCall] (y2, zf2)) by (unfold call; now rewrite Hlf2).
  cbn [fst ret snd].
  pose proof (stage_shape_same Hy2) as Hy2shape. rewrite Hrevshape in Hy2shape.
  eexists; split; [exact Hzi|]. split; [reflexivity|].
  assert (Hextshape : shape ext = list_set ax (padded_len (axis_len x ax) edge) (shape x))
    by (destruct Hext; assumption).
  split.
  - destruct (Z.ltb_spec 0 edge).
    + rewrite shape_axis_slice. unfold axis_len at 1.
      rewrite shape_axis_reverse, Hy2shape.
      fold (axis_len ext ax). rewrite Hextlen. unfold padded_len.
      rewrite slice_bounds_trim by lia. cbn [snd].
      rewrite Hextshape, list_set_twice. unfold axis_len. apply list_set_nth_same.
    + rewrite shape_axis_reverse, Hy2shape, Hextshape.
      unfold padded_len. replace edge with 0 by lia. rewrite Nat.add_0_r.
      unfold axis_len. apply list_set_nth_same.
  - intros idx Hok.
    assert (Hidx : (ax < length idx)%nat) by (destruct Hok; unfold ndim in Haxlt; lia).
    assert (Hokext : off_axis_ok ax (shape ext) idx)
      by (rewrite Hextshape; now apply off_axis_ok_list_set).
    assert (Hlane_ext : lane ext ax idx = ext1 padtype edge (lane x ax idx))
      by (destruct Hext as [_ Hl]; now apply Hl).
    assert (Hlane_y : lane y ax idx
              = fst (lfilter1 (normalize (Nat.max (length a) (length b)) (hd 0%Qc a) b)
                              (normalize (Nat.max (length a) (length b)) (hd 0%Qc a) a)
                              (map (fun z => z * hd 0 (py_slice (lane ext ax idx) None (Some 1%Z)))%Qc zi)
                              (lane ext ax idx))).
    { destruct Hy as [_ Hl]. rewrite Hl by exact Hidx.
      rewrite Hzx0lanes by exact Hokext. unfold x0.
      now rewrite lane_axis_slice by (auto; fold (ndim ext) in Haxext; exact Haxext). }
    assert (Hlane_y2 : lane y2 ax idx
              = fst (lfilter1 (normalize (Nat.max (length a) (length b)) (hd 0%Qc a) b)
                              (normalize (Nat.max (length a) (length b)) (hd 0%Qc a) a)
                              (map (fun z => z * hd 0 (py_slice (lane y ax idx) (Some (-1)%Z) None))%Qc zi)
                              (rev (lane y ax idx)))).
    { destruct Hy2 as [_ Hl]. rewrite Hl by exact Hidx.
      rewrite Hzy0lanes by exact Hokext. unfold y0.
      rewrite lane_axis_slice by (auto; unfold ndim; rewrite Hyshape; exact Haxext).
      now rewrite lane_axis_reverse by exact Hidx. }
    unfold _filtfilt1. cbv zeta.
    rewrite <- Hlane_ext, <- Hlane_y, <- Hlane_y2.
    destruct (Z.ltb_spec 0 edge).
    + rewrite lane_axis_slice by (auto; unfold ndim;
                                  rewrite shape_axis_reverse, Hy2shape; exact Haxext).
      now rewrite lane_axis_reverse by exact Hidx.
    + now rewrite lane_axis_reverse by exact Hidx.
Qed.

(** ** [_filtfilt]: shape, validation, pad length *)

Lemma one_pole_accepted : accepted_filter one_pole_b one_pole_a.
Proof.
  repeat split.
  - intro Hq; apply (f_equal this) in Hq; vm_compute in Hq; discriminate.
  - simpl; lia.
  - intro Hq; apply (f_equal this) in Hq; vm_compute in Hq; discriminate.
Qed.

Lemma snd_bind_inv {A B} (m : M A) (k : A -> M B) y :
  snd (bind m k) = Ok y -> exists t a, m = (t, Ok a) /\ snd (k a) = Ok y.
Proof.
  destruct m as [t [a|e]]; cbn [bind].
  - intros H. exists t, a. split; [reflexivity|]. now destruct (k a).
  - discriminate.
Qed.

Lemma lfilter_shape b a x ax zi y zf :
  lfilter b a x ax zi = Ok (y, zf) -> shape y = shape x.
Proof.
  unfold lfilter. destruct a as [|a0 ar]; [discriminate|].
  destruct (Qc_eqb a0 0%Qc); [discriminate|].
  destruct (list_eq_dec Nat.eq_dec _ _); [|discriminate].
  intros [= <- _]. reflexivity.
Qed.

(** Whatever the coefficients, an array that [_filtfilt] returns has the
    shape of [x]. *)
Lemma filtfilt_returned_shape b a x axis padtype padlen ax y :
  padtype_valid padtype = true ->
  norm_axis (ndim x) axis = Ok ax ->
  effective_edge b a padtype padlen < Z.of_nat (axis_len x ax) ->
  snd (_filtfilt b a x axis padtype padlen) = Ok y ->
  shape y = shape x.
Proof.
  intros Hvalid Hax He.
  pose proof (norm_axis_lt _ _ Hax) as Haxlt.
  unfold _filtfilt. rewrite Hvalid. cbn [negb].
  set (edge := effective_edge b a padtype padlen) in *.
  rewrite (@snd_bind_ok _ _ _ _ [] ax) by (unfold lift; now rewrite Hax).
  destruct (Z.leb_spec (Z.of_nat (axis_len x ax)) edge); [lia|].
  assert (Hnone : padtype = None -> edge = 0) by (intros ->; reflexivity).
  destruct (@padding_stage x ax padtype edge Haxlt Hvalid Hnone He)
    as [tr [ext [Hpad [Hext _]]]].
  rewrite (snd_bind_ok _ Hpad). intros Hrun.
  apply snd_bind_inv in Hrun. destruct Hrun as [t1 [zi [_ Hrun]]].
  apply snd_bind_inv in Hrun. destruct Hrun as [t2 [zi_arr [_ Hrun]]].
  apply snd_bind_inv in Hrun. destruct Hrun as [t3 [zx0 [_ Hrun]]].
  apply snd_bind_inv in Hrun. destruct Hrun as [t4 [[y1 zf1] [Hlf1 Hrun]]].
  apply snd_bind_inv in Hrun. destruct Hrun as [t5 [zy0 [_ Hrun]]].
  apply snd_bind_inv in Hrun. destruct Hrun as [t6 [[y2 zf2] [Hlf2 Hrun]]].
  unfold call in Hlf1, Hlf2. injection Hlf1 as _ Hlf1. injection Hlf2 as _ Hlf2.
  apply lfilter_shape in Hlf1. apply lfilter_shape in Hlf2.
  cbn [fst] in Hlf2. rewrite shape_axis_reverse, Hlf1 in Hlf2.
  cbn [fst ret snd] in Hrun. injection Hrun as <-.
  destruct (Z.ltb_spec 0 edge).
  - rewrite shape_axis_slice. unfold axis_len at 1.
    rewrite shape_axis_reverse, Hlf2, Hext, nth_list_set_eq by exact Haxlt.
    unfold padded_len. rewrite slice_bounds_trim by lia. cbn [snd].
    rewrite list_set_twice. unfold axis_len. apply list_set_nth_same.
  - rewrite shape_axis_reverse, Hlf2, Hext.
    unfold padded_len. replace (Z.to_nat edge) with O by lia. rewrite Nat.add_0_r.
    unfold axis_len. apply list_set_nth_same.
Qed.

(** C1: for every coefficient vectors, a valid axis, a valid padtype and
    an effective pad length below the extent of [x] along the axis, an
    array that [_filtfilt] returns has exactly the shape of [x]; and it
    does return one for the coefficient vectors that the scipy primitives
    accept. *)
Theorem filtfilt_preserves_shape (b a : list Qc) (x : ndarray) (axis : Z)
        (padtype : option string) (padlen : option Z) (ax : nat) :
  padtype_valid padtype = true ->
  norm_axis (ndim x) axis = Ok ax ->
  0 <= effective_edge b a padtype padlen < Z.of_nat (axis_len x ax) ->
  (forall y, snd (_filtfilt b a x axis padtype padlen) = Ok y -> shape y = shape x) /\
  (accepted_filter b a ->
   exists y, snd (_filtfilt b a x axis padtype padlen) = Ok y /\ shape y = shape x).
Proof.
  intros Hvalid Hax He. split.
  - intros y. apply filtfilt_returned_shape with (ax := ax); auto. lia.
  - intros Hacc.
    destruct (@filtfilt_lanes b a x axis padtype padlen ax Hacc Hvalid Hax He)
      as [zi [y [_ [Hy [Hs _]]]]].
    exists y. split; assumption.
Qed.

Lemma filtfilt_preserves_shape_witness :
  exists y,
    snd (_filtfilt one_pole_b one_pole_a ones7 (-1) (Some "odd"%string) None) = Ok y /\
    shape y = shape ones7.
Proof.
  apply (@filtfilt_preserves_shape one_pole_b one_pole_a ones7 (-1)
           (Some "odd"%string) None 0%nat).
  - reflexivity.
  - reflexivity.
  - vm_compute. split; [discriminate|reflexivity].
  - exact one_pole_accepted.
Defined.

(** C3: a padtype that is none of ['even'], ['odd'], ['constant'] and
    [None] raises [InvalidArgument] whatever the other arguments are, and
    before any call into the padding, initial-condition or filter
    routines: the record of calls is empty. *)
Theorem filtfilt_rejects_unknown_padtype (b a : list Qc) (x : ndarray) (axis : Z)
        (padtype : option string) (padlen : option Z) :
  padtype <> None ->
  padtype <> Some "even"%string ->
  padtype <> Some "odd"%string ->
  padtype <> Some "constant"%string ->
  _filtfilt b a x axis padtype padlen = ([], Err (InvalidArgument msg_padtype)).
Proof.
  intros Hnone Heven Hodd Hconst. unfold _filtfilt.
  assert (Hv : padtype_valid padtype = false).
  { destruct padtype as [s|]; [|now elim Hnone]. unfold padtype_valid.
    destruct (String.eqb_spec s "even"); [subst; now elim Heven|].
    destruct (String.eqb_spec s "odd"); [subst; now elim Hodd|].
    destruct (String.eqb_spec s "constant"); [subst; now elim Hconst|].
    reflexivity. }
  rewrite Hv. reflexivity.
Qed.

Lemma filtfilt_rejects_unknown_padtype_witness :
  _filtfilt one_pole_b one_pole_a ones7 (-1) (Some "bogus"%string) None
  = ([], Err (InvalidArgument msg_padtype)).
Proof.
  apply filtfilt_rejects_unknown_padtype; discriminate.
Defined.

Lemma other_error_bind {A B} (m : M A) (k : A -> M B) :
  other_error (snd m) -> (forall a, other_error (snd (k a))) ->
  other_error (snd (bind m k)).
Proof.
  intros Hm Hk. destruct m as [t [a|e]]; cbn [bind].
  - specialize (Hk a). destruct (k a). exact Hk.
  - intros e' He'. cbn [snd] in *. injection He' as ->.
    exact (Hm e' eq_refl).
Qed.

Ltac crush_other_error :=
  repeat match goal with
         | |- other_error (if ?c then _ else _) => destruct c
         | |- other_error (match ?v with _ => _ end) => destruct v
         end;
  try (intros ? ?; discriminate).

Lemma odd_ext_other x e ax : other_error (odd_ext x e ax).
Proof. unfold odd_ext. crush_other_error. Qed.

Lemma even_ext_other x e ax : other_error (even_ext x e ax).
Proof. unfold even_ext. crush_other_error. Qed.

Lemma const_ext_other x e ax : other_error (const_ext x e ax).
Proof. unfold const_ext. crush_other_error. Qed.

Lemma lfilter_zi_other b a : other_error (lfilter_zi b a).
Proof. unfold lfilter_zi. crush_other_error. Qed.

Lemma np_reshape_other v shp : other_error (np_reshape v shp).
Proof. unfold np_reshape. crush_other_error. Qed.

Lemma np_mul_other x y : other_error (np_mul x y).
Proof. unfold np_mul. crush_other_error. Qed.

Lemma lfilter_other b a x ax zi : other_error (lfilter b a x ax zi).
Proof. unfold lfilter. crush_other_error. Qed.

Lemma In_fst_bind_call {A B} ev (r : result A) (k : A -> M B) :
  In ev (fst (bind (call ev r) k)).
Proof.
  unfold call, bind. destruct r as [a|e]; [destruct (k a)|]; simpl; auto.
Qed.

(** Past the length check, [_filtfilt] calls into scipy, and whatever
    those calls raise is not the error of the length check. *)
Lemma filtfilt_past_length_check b a x axis padtype padlen ax :
  padtype_valid padtype = true ->
  norm_axis (ndim x) axis = Ok ax ->
  effective_edge b a padtype padlen < Z.of_nat (axis_len x ax) ->
  other_error (snd (_filtfilt b a x axis padtype padlen)) /\
  In InitialConditionCall (fst (_filtfilt b a x axis padtype padlen)).
Proof.
  intros Hvalid Hax He.
  pose proof (norm_axis_lt _ _ Hax) as Haxlt.
  unfold _filtfilt. rewrite Hvalid. cbn [negb].
  set (edge := effective_edge b a padtype padlen) in *.
  assert (Hnone : padtype = None -> edge = 0) by (intros ->; reflexivity).
  destruct (@padding_stage x ax padtype edge Haxlt Hvalid Hnone He)
    as [tr [ext [Hpad _]]].
  split.
  - rewrite (@snd_bind_ok _ _ _ _ [] ax) by (unfold lift; now rewrite Hax).
    destruct (Z.leb_spec (Z.of_nat (axis_len x ax)) edge); [lia|].
    rewrite (snd_bind_ok _ Hpad).
    apply other_error_bind; [apply lfilter_zi_other|intros zi].
    apply other_error_bind; [apply np_reshape_other|intros zi_arr].
    apply other_error_bind; [apply np_mul_other|intros zx0].
    apply other_error_bind; [apply lfilter_other|intros yzf].
    apply other_error_bind; [apply np_mul_other|intros zy0].
    apply other_error_bind; [apply lfilter_other|intros yzf2].
    intros e He'. discriminate.
  - rewrite (@fst_bind_ok _ _ _ _ [] ax) by (unfold lift; now rewrite Hax).
    destruct (Z.leb_spec (Z.of_nat (axis_len x ax)) edge); [lia|].
    rewrite (fst_bind_ok _ Hpad). cbn [app]. apply in_or_app. right.
    apply In_fst_bind_call.
Qed.

(** C2, as the code has it: for a valid padtype and axis, the length
    check raises [InsufficientDataLength] exactly when the effective pad
    length is at least the extent of [x] along the axis; below that
    extent [_filtfilt] goes on to the initial-condition computation. *)
Theorem filtfilt_insufficient_data_iff (b a : list Qc) (x : ndarray) (axis : Z)
        (padtype : option string) (padlen : option Z) (ax : nat) :
  padtype_valid padtype = true ->
  norm_axis (ndim x) axis = Ok ax ->
  let p := effective_edge b a padtype padlen in
  ((exists e, snd (_filtfilt b a x axis padtype padlen) = Err (InsufficientDataLength e))
   <-> Z.of_nat (axis_len x ax) <= p) /\
  (p < Z.of_nat (axis_len x ax) ->
   In InitialConditionCall (fst (_filtfilt b a x axis padtype padlen))).
Proof.
  intros Hvalid Hax p. split; [split|].
  - intros [e He]. destruct (Z.le_gt_cases (Z.of_nat (axis_len x ax)) p) as [|Hlt]; auto.
    exfalso.
    destruct (@filtfilt_past_length_check b a x axis padtype padlen ax Hvalid Hax Hlt)
      as [Hother _].
    exact (Hother e He).
  - intros Hle. unfold _filtfilt. rewrite Hvalid. cbn [negb].
    rewrite (@snd_bind_ok _ _ _ _ [] ax) by (unfold lift; now rewrite Hax).
    fold p. destruct (Z.leb_spec (Z.of_nat (axis_len x ax)) p); [|lia].
    eexists. reflexivity.
  - intros Hlt.
    now destruct (@filtfilt_past_length_check b a x axis padtype padlen ax Hvalid Hax Hlt).
Qed.

Lemma filtfilt_insufficient_data_iff_witness :
  ((exists e, snd (_filtfilt one_pole_b one_pole_a ones7 (-1) (Some "odd"%string) (Some 7))
              = Err (InsufficientDataLength e))
   <-> Z.of_nat (axis_len ones7 0) <= 7) /\
  (7 < Z.of_nat (axis_len ones7 0) ->
   In InitialConditionCall
      (fst (_filtfilt one_pole_b one_pole_a ones7 (-1) (Some "odd"%string) (Some 7)))).
Proof.
  exact (@filtfilt_insufficient_data_iff one_pole_b one_pole_a ones7 (-1)
           (Some "odd"%string) (Some 7) 0%nat eq_refl eq_refl).
Defined.

(** C2 as stated fails at a pad length of [x.shape[axis] - 1]: seven
    samples, the default pad length of six; the claim has the call raise
    [InsufficientDataLength], the code pads, filters and returns. *)
Lemma filtfilt_pad_length_extent_minus_one :
  let run := _filtfilt one_pole_b one_pole_a ones7 (-1) (Some "odd"%string) None in
  let p := effective_edge one_pole_b one_pole_a (Some "odd"%string) None in
  ~ ((exists e, snd run = Err (InsufficientDataLength e))
     <-> p >= Z.of_nat (axis_len ones7 0) - 1).
Proof.
  intros run p [_ Hraise].
  assert (Hp : p >= Z.of_nat (axis_len ones7 0) - 1) by (vm_compute; discriminate).
  destruct (Hraise Hp) as [e He].
  assert (Hok : is_ok (snd run) = true) by (vm_compute; reflexivity).
  rewrite He in Hok. discriminate.
Qed.

(** ** [_filtfilt] on a constant signal *)

Lemma tl_repeat {A} (c : A) n : tl (repeat c n) = repeat c (n - 1).
Proof. destruct n; simpl; auto. now rewrite Nat.sub_0_r. Qed.

Lemma firstn_repeat {A} (c : A) e m : (e <= m)%nat -> firstn e (repeat c m) = repeat c e.
Proof.
  revert m; induction e as [|e IH]; intros [|m] H; simpl; auto; try lia.
  f_equal. apply IH. lia.
Qed.

Lemma skipn_repeat {A} (c : A) e m : skipn e (repeat c m) = repeat c (m - e).
Proof.
  revert m; induction e as [|e IH]; intros [|m]; simpl; auto.
Qed.

Lemma hd_repeat {A} (c d : A) n : (1 <= n)%nat -> hd d (repeat c n) = c.
Proof. destruct n; simpl; auto; lia. Qed.

Lemma last_repeat {A} (c d : A) n : (1 <= n)%nat -> last (repeat c n) d = c.
Proof.
  induction n as [|[|n] IH]; intros H; try lia; auto.
  change (last (c :: repeat c (S n)) d) with (last (repeat c (S n)) d).
  apply IH. lia.
Qed.

Lemma nth_repeat_in {A} (c d : A) j n : (j < n)%nat -> nth j (repeat c n) d = c.
Proof.
  revert j; induction n as [|n IH]; intros [|j] H; simpl; auto; try lia.
  apply IH. lia.
Qed.

Lemma left_ext_repeat c n e : (e <= n - 1)%nat -> left_ext (repeat c n) e = repeat c e.
Proof.
  intros H. unfold left_ext. now rewrite tl_repeat, firstn_repeat, rev_repeat.
Qed.

Lemma right_ext_repeat c n e : (e <= n - 1)%nat -> right_ext (repeat c n) e = repeat c e.
Proof.
  intros H. unfold right_ext. now rewrite rev_repeat, tl_repeat, firstn_repeat.
Qed.

Lemma two_c_minus_c (c : Qc) : (Q2Qc 2 * c - c = c)%Qc.
Proof.
  assert (H2 : Q2Qc 2 = (1 + 1)%Qc) by (apply Qc_is_canon; reflexivity).
  rewrite H2. ring.
Qed.

Lemma repeat_three {A} (c : A) e n : repeat c e ++ repeat c n ++ repeat c e = repeat c (n + 2 * e).
Proof.
  rewrite <- !repeat_app. f_equal. lia.
Qed.

(** Each of the three extensions of a constant lane is constant. *)
Lemma ext1_constant padtype edge c n :
  (padtype = None -> edge = 0) ->
  edge < Z.of_nat n ->
  ext1 padtype edge (repeat c n) = repeat c (padded_len n edge).
Proof.
  intros Hnone He. unfold ext1, padded_len.
  destruct padtype as [kind|].
  - destruct (Z.ltb_spec 0 edge).
    + assert (Hn : (1 <= n)%nat) by lia.
      assert (Hle : (Z.to_nat edge <= n - 1)%nat) by lia.
      destruct (String.eqb kind "even"); [|destruct (String.eqb kind "odd")].
      * unfold even_ext1. rewrite left_ext_repeat, right_ext_repeat by exact Hle.
        apply repeat_three.
      * unfold odd_ext1. rewrite left_ext_repeat, right_ext_repeat by exact Hle.
        rewrite !map_repeat, hd_repeat, last_repeat, two_c_minus_c by exact Hn.
        apply repeat_three.
      * unfold const_ext1. rewrite hd_repeat, last_repeat by exact Hn.
        apply repeat_three.
    + f_equal. lia.
  - rewrite Hnone by reflexivity. f_equal. simpl. lia.
Qed.

Lemma hd_slice_first (v : Qc) m :
  (1 <= m)%nat -> hd 0%Qc (py_slice (repeat v m) None (Some 1)) = v.
Proof.
  intros Hm. unfold py_slice. rewrite repeat_length, slice_bounds_first by exact Hm.
  destruct m; [lia|reflexivity].
Qed.

Lemma hd_slice_last (v : Qc) m :
  (1 <= m)%nat -> hd 0%Qc (py_slice (repeat v m) (Some (-1)) None) = v.
Proof.
  intros Hm. unfold py_slice. rewrite repeat_length, slice_bounds_last by exact Hm.
  rewrite skipn_repeat. replace (m - (m - 1))%nat with 1%nat by lia. reflexivity.
Qed.

Lemma slice_trim_repeat (v : Qc) n e :
  0 < e ->
  py_slice (repeat v (padded_len n e)) (Some e) (Some (- e)) = repeat v n.
Proof.
  intros He. unfold py_slice, padded_len.
  rewrite repeat_length, slice_bounds_trim by exact He.
  rewrite skipn_repeat, firstn_repeat by lia. reflexivity.
Qed.

(** *** The steady state of the filter *)

Lemma Qc_sum_hd_tl l : Qc_sum l = (hd 0 l + Qc_sum (tl l))%Qc.
Proof. destruct l; simpl; ring. Qed.

Lemma hd_suffix_sums t : hd 0%Qc (suffix_sums t) = Qc_sum t.
Proof.
  induction t as [|x t IH]; simpl; auto. now rewrite IH.
Qed.

Lemma hd_map_scale (c : Qc) l : hd 0%Qc (map (fun z => z * c)%Qc l) = (hd 0 l * c)%Qc.
Proof. destruct l; simpl; ring. Qed.

Lemma Qc_sum_steady tb ta G :
  length tb = length ta ->
  Qc_sum (map2 (fun bj aj => bj - aj * G)%Qc tb ta) = (Qc_sum tb - G * Qc_sum ta)%Qc.
Proof.
  revert ta; induction tb as [|bj tb IH]; intros [|aj ta] H; simpl in *; try lia.
  - ring.
  - rewrite IH by lia. ring.
Qed.

(** With the output at [G c], the new state is the old one: the state
    [zi c] is a fixed point of the filter fed with the constant [c]. *)
Lemma steady_state_shift tb ta (c G : Qc) :
  let t := map2 (fun bj aj => bj - aj * G)%Qc tb ta in
  map2 Qcplus (map2 (fun bi ai => bi * c - ai * (G * c))%Qc tb ta)
              (tl (map (fun z => z * c)%Qc (suffix_sums t)) ++ [0%Qc])
  = map (fun z => z * c)%Qc (suffix_sums t).
Proof.
  revert ta; induction tb as [|bi tb IH]; intros [|ai ta]; try reflexivity.
  specialize (IH ta). cbv zeta in *.
  cbn [map2 suffix_sums map tl].
  set (t' := map2 (fun bj aj => (bj - aj * G)%Qc) tb ta) in *.
  destruct (suffix_sums t') as [|s ss] eqn:Hss.
  - assert (Ht' : t' = []) by (destruct t'; [reflexivity|discriminate]).
    unfold t' in Ht'.
    assert (Hrest : map2 (fun bi0 ai0 => (bi0 * c - ai0 * (G * c))%Qc) tb ta = []).
    { destruct tb, ta; try reflexivity. discriminate. }
    rewrite Hrest. cbn [map app map2 hd]. f_equal. ring.
  - cbn [map tl app map2 hd] in *. f_equal; [ring|]. exact IH.
Qed.

Lemma lfilter_step_steady b a (c : Qc) :
  length a = length b ->
  hd 0%Qc a = 1%Qc ->
  Qc_sum a <> 0%Qc ->
  let G := (Qc_sum b / Qc_sum a)%Qc in
  let zi := suffix_sums (map2 (fun bj aj => bj - aj * G)%Qc (tl b) (tl a)) in
  lfilter_step b a (map (fun z => z * c)%Qc zi) c
  = ((G * c)%Qc, map (fun z => z * c)%Qc zi).
Proof.
  intros Hlen Hhd Hsum G zi. unfold lfilter_step.
  assert (Hy : (hd 0 b * c + hd 0 (map (fun z => z * c) zi))%Qc = (G * c)%Qc).
  { rewrite hd_map_scale. unfold zi. rewrite hd_suffix_sums.
    rewrite Qc_sum_steady by (rewrite !length_tl; lia).
    unfold G. rewrite (Qc_sum_hd_tl b), (Qc_sum_hd_tl a) in *. rewrite Hhd in *.
    field. exact Hsum. }
  rewrite Hy. f_equal. apply steady_state_shift.
Qed.

Lemma lfilter1_steady b a (c : Qc) m :
  length a = length b ->
  hd 0%Qc a = 1%Qc ->
  Qc_sum a <> 0%Qc ->
  let G := (Qc_sum b / Qc_sum a)%Qc in
  let zi := suffix_sums (map2 (fun bj aj => bj - aj * G)%Qc (tl b) (tl a)) in
  lfilter1 b a (map (fun z => z * c)%Qc zi) (repeat c m)
  = (repeat (G * c)%Qc m, map (fun z => z * c)%Qc zi).
Proof.
  intros Hlen Hhd Hsum G zi.
  induction m as [|m IH]; [reflexivity|].
  cbn [repeat lfilter1].
  pose proof (@lfilter_step_steady b a c Hlen Hhd Hsum) as Hstep. cbv zeta in Hstep.
  fold G in Hstep. fold zi in Hstep. rewrite Hstep, IH. reflexivity.
Qed.

Lemma normalize_hd_one n a : hd 0%Qc a <> 0%Qc -> hd 0%Qc (normalize n (hd 0%Qc a) a) = 1%Qc.
Proof.
  destruct a as [|a0 ar]; cbn [hd]; intros H; [now elim H|].
  unfold normalize, pad_to. cbn [map app hd]. field. exact H.
Qed.

Lemma dc_gain_normalized n b a :
  hd 0%Qc a <> 0%Qc -> Qc_sum a <> 0%Qc ->
  (Qc_sum (normalize n (hd 0 a) b) / Qc_sum (normalize n (hd 0 a) a))%Qc = dc_gain b a.
Proof.
  intros Ha0 Hsum. rewrite !Qc_sum_normalize by exact Ha0. unfold dc_gain.
  field. split; assumption.
Qed.

(** The one-dimensional forward-backward filter multiplies a constant
    lane by the square of the gain of the filter at zero frequency. *)
Lemma filtfilt1_constant b a padtype edge zi (c : Qc) n :
  accepted_filter b a ->
  lfilter_zi b a = Ok zi ->
  (padtype = None -> edge = 0) ->
  0 <= edge < Z.of_nat n ->
  _filtfilt1 b a padtype edge zi (repeat c n)
  = repeat (dc_gain b a * dc_gain b a * c)%Qc n.
Proof.
  intros Hacc Hzi Hnone He.
  destruct (lfilter_zi_accepted Hacc) as [zi' [Hzi' [_ Heq]]].
  rewrite Hzi in Hzi'. injection Hzi' as <-.
  destruct Hacc as [Ha0 [Hn Hsum]].
  unfold _filtfilt1. cbv zeta.
  set (N := Nat.max (length a) (length b)) in *.
  set (b' := normalize N (hd 0%Qc a) b) in *.
  set (a' := normalize N (hd 0%Qc a) a) in *.
  assert (Hlen : length a' = length b')
    by (unfold a', b'; rewrite !normalize_length; lia).
  assert (Hhd : hd 0%Qc a' = 1%Qc) by now apply normalize_hd_one.
  assert (Hsum' : Qc_sum a' <> 0%Qc).
  { unfold a'. rewrite Qc_sum_normalize by exact Ha0. now apply Qc_div_nonzero. }
  assert (HG : (Qc_sum b' / Qc_sum a')%Qc = dc_gain b a) by now apply dc_gain_normalized.
  pose proof (fun c m => @lfilter1_steady b' a' c m Hlen Hhd Hsum') as Hsteady.
  cbv zeta in Hsteady. rewrite <- Heq, HG in Hsteady.
  rewrite ext1_constant by (auto; lia).
  assert (Hm : (1 <= padded_len n edge)%nat) by (unfold padded_len; lia).
  rewrite hd_slice_first by exact Hm.
  rewrite Hsteady. cbn [fst].
  rewrite hd_slice_last by exact Hm.
  rewrite rev_repeat, Hsteady. cbn [fst]. rewrite rev_repeat.
  replace (dc_gain b a * (dc_gain b a * c))%Qc with (dc_gain b a * dc_gain b a * c)%Qc by ring.
  destruct (Z.ltb_spec 0 edge).
  - now apply slice_trim_repeat.
  - f_equal. unfold padded_len. lia.
Qed.

Lemma Forall2_lt_of_nth shp idx :
  length idx = length shp ->
  (forall k, (k < length shp)%nat -> (nth k idx O < nth k shp O)%nat) ->
  in_bounds shp idx.
Proof.
  unfold in_bounds.
  revert idx; induction shp as [|s shp IH]; intros [|i idx] Hl Hk;
    cbn [length] in *; try lia; constructor.
  - apply (Hk O). lia.
  - apply IH; [lia|]. intros k Hlt. apply (Hk (S k)). lia.
Qed.

Lemma in_bounds_nth shp idx :
  in_bounds shp idx ->
  length idx = length shp /\
  forall k, (k < length shp)%nat -> (nth k idx O < nth k shp O)%nat.
Proof.
  unfold in_bounds. induction 1 as [|i s idx shp His Hrest [IHl IHk]].
  - split; [reflexivity|]. intros k Hk. simpl in Hk. lia.
  - split; [simpl; lia|]. intros [|k] Hk; simpl in *; [exact His|].
    apply IHk. lia.
Qed.

Lemma in_bounds_off_axis ax shp idx : in_bounds shp idx -> off_axis_ok ax shp idx.
Proof.
  intros H. destruct (in_bounds_nth H) as [Hl Hk]. split; auto.
Qed.

Lemma in_bounds_list_set ax shp idx i :
  (ax < length shp)%nat ->
  off_axis_ok ax shp idx ->
  (i < nth ax shp O)%nat ->
  in_bounds shp (list_set ax i idx).
Proof.
  intros Hax [Hl Hk] Hi. apply Forall2_lt_of_nth.
  - now rewrite list_set_length.
  - intros k Hlt. destruct (Nat.eq_dec ax k) as [<-|Hne].
    + rewrite nth_list_set_eq by lia. exact Hi.
    + rewrite nth_list_set_neq by exact Hne. apply Hk; auto.
Qed.

Lemma lane_constant x ax idx (c : Qc) :
  (ax < ndim x)%nat ->
  off_axis_ok ax (shape x) idx ->
  (forall idx, in_bounds (shape x) idx -> get x idx = c) ->
  lane x ax idx = repeat c (axis_len x ax).
Proof.
  intros Hax Hok Hc. unfold lane.
  transitivity (map (fun _ : nat => c) (seq 0 (axis_len x ax)));
    [|now rewrite map_const, length_seq].
  apply map_ext_in. intros i Hi. apply in_seq in Hi.
  apply Hc. apply in_bounds_list_set; auto. unfold axis_len in Hi. lia.
Qed.

Lemma get_from_lane y ax idx :
  (nth ax idx O < axis_len y ax)%nat ->
  get y idx = nth (nth ax idx O) (lane y ax idx) 0%Qc.
Proof.
  intros Hlt. unfold lane.
  rewrite (nth_indep _ 0%Qc (get y (list_set ax O idx)))
    by (rewrite length_map, length_seq; exact Hlt).
  rewrite (map_nth (fun i => get y (list_set ax i idx))), seq_nth by exact Hlt.
  cbn [Nat.add]. now rewrite list_set_nth_same.
Qed.

(** C4, as the code has it: on a signal whose samples all equal [c], an
    accepted filter returns the signal whose samples all equal
    [c * (sum(b) / sum(a))^2], the square of the gain at zero frequency
    times [c]. *)
Theorem filtfilt_constant_signal (b a : list Qc) (x : ndarray) (axis : Z)
        (padtype : option string) (padlen : option Z) (ax : nat) (c : Qc) :
  accepted_filter b a ->
  padtype_valid padtype = true ->
  norm_axis (ndim x) axis = Ok ax ->
  0 <= effective_edge b a padtype padlen < Z.of_nat (axis_len x ax) ->
  (forall idx, in_bounds (shape x) idx -> get x idx = c) ->
  exists y,
    snd (_filtfilt b a x axis padtype padlen) = Ok y /\
    shape y = shape x /\
    forall idx, in_bounds (shape x) idx ->
      get y idx = (dc_gain b a * dc_gain b a * c)%Qc.
Proof.
  intros Hacc Hvalid Hax He Hc.
  pose proof (norm_axis_lt _ _ Hax) as Haxlt.
  destruct (@filtfilt_lanes b a x axis padtype padlen ax Hacc Hvalid Hax He)
    as [zi [y [Hzi [Hy [Hs Hl]]]]].
  exists y. split; [exact Hy|]. split; [exact Hs|].
  intros idx Hin.
  pose proof (@in_bounds_off_axis ax _ _ Hin) as Hok.
  destruct (in_bounds_nth Hin) as [Hlen Hk].
  assert (Hj : (nth ax idx O < axis_len y ax)%nat).
  { unfold axis_len. rewrite Hs. apply Hk. exact Haxlt. }
  rewrite (@get_from_lane y ax idx Hj), Hl by exact Hok.
  rewrite (@lane_constant x ax idx c Haxlt Hok Hc).
  assert (Hnone : padtype = None -> effective_edge b a padtype padlen = 0)
    by (intros ->; reflexivity).
  rewrite (@filtfilt1_constant b a padtype _ zi c (axis_len x ax) Hacc Hzi Hnone He).
  apply nth_repeat_in. unfold axis_len in Hj. rewrite Hs in Hj. exact Hj.
Qed.

Lemma ones7_constant idx : in_bounds (shape ones7) idx -> get ones7 idx = 1%Qc.
Proof. reflexivity. Qed.

Lemma filtfilt_constant_signal_witness :
  exists y,
    snd (_filtfilt one_pole_b one_pole_a ones7 (-1) (Some "odd"%string) None) = Ok y /\
    shape y = shape ones7 /\
    forall idx, in_bounds (shape ones7) idx ->
      get y idx = (dc_gain one_pole_b one_pole_a * dc_gain one_pole_b one_pole_a * 1)%Qc.
Proof.
  apply (@filtfilt_constant_signal one_pole_b one_pole_a ones7 (-1)
           (Some "odd"%string) None 0%nat 1%Qc).
  - exact one_pole_accepted.
  - reflexivity.
  - reflexivity.
  - vm_compute. split; [discriminate|reflexivity].
  - exact ones7_constant.
Defined.

(** With [sum(b) = sum(a)] the constant is returned as it is. *)
Corollary filtfilt_constant_unit_gain (b a : list Qc) (x : ndarray) (axis : Z)
        (padtype : option string) (padlen : option Z) (ax : nat) (c : Qc) :
  accepted_filter b a ->
  Qc_sum b = Qc_sum a ->
  padtype_valid padtype = true ->
  norm_axis (ndim x) axis = Ok ax ->
  0 <= effective_edge b a padtype padlen < Z.of_nat (axis_len x ax) ->
  (forall idx, in_bounds (shape x) idx -> get x idx = c) ->
  exists y,
    snd (_filtfilt b a x axis padtype padlen) = Ok y /\
    forall idx, in_bounds (shape x) idx -> get y idx = c.
Proof.
  intros Hacc Hunit Hvalid Hax He Hc.
  pose proof (norm_axis_lt _ _ Hax) as Haxlt.
  destruct (@filtfilt_lanes b a x axis padtype padlen ax Hacc Hvalid Hax He)
    as [zi [y [Hzi [Hy [Hs Hl]]]]].
  exists y. split; [exact Hy|].
  intros idx Hin.
  pose proof (@in_bounds_off_axis ax _ _ Hin) as Hok.
  destruct (in_bounds_nth Hin) as [Hlen Hk].
  assert (Hj : (nth ax idx O < axis_len y ax)%nat).
  { unfold axis_len. rewrite Hs. apply Hk. exact Haxlt. }
  rewrite (@get_from_lane y ax idx Hj), Hl by exact Hok.
  rewrite (@lane_constant x ax idx c Haxlt Hok Hc).
  assert (Hnone : padtype = None -> effective_edge b a padtype padlen = 0)
    by (intros ->; reflexivity).
  rewrite (@filtfilt1_constant b a padtype _ zi c (axis_len x ax) Hacc Hzi Hnone He).
  rewrite nth_repeat_in by (unfold axis_len in Hj; rewrite Hs in Hj; exact Hj).
  destruct Hacc as [_ [_ Hsum]]. unfold dc_gain. rewrite Hunit. field. exact Hsum.
Qed.

Lemma filtfilt_constant_signal_aux :
  exists y,
    snd (_filtfilt one_pole_b one_pole_a ones7 (-1) (Some "odd"%string) None) = Ok y /\
    get y [0%nat]
    = (dc_gain one_pole_b one_pole_a * dc_gain one_pole_b one_pole_a * 1)%Qc.
Proof.
  destruct (@filtfilt_lanes one_pole_b one_pole_a ones7 (-1) (Some "odd"%string) None 0%nat
              one_pole_accepted eq_refl eq_refl)
    as [zi [y [Hzi [Hy [Hs Hl]]]]].
  { vm_compute. split; [discriminate|reflexivity]. }
  exists y. split; [exact Hy|].
  assert (Hok : off_axis_ok 0 (shape ones7) [0%nat]).
  { split; [reflexivity|]. intros k Hne Hlt. simpl in Hlt. lia. }
  assert (Hj : (nth 0 [0%nat] O < axis_len y 0)%nat).
  { unfold axis_len. rewrite Hs. simpl. lia. }
  rewrite (@get_from_lane y 0%nat [0%nat] Hj), Hl by exact Hok.
  assert (Hlane : lane ones7 0 [0%nat] = repeat 1%Qc 7) by reflexivity.
  rewrite Hlane.
  rewrite (@filtfilt1_constant one_pole_b one_pole_a (Some "odd"%string) _ zi 1%Qc 7%nat
             one_pole_accepted Hzi).
  - reflexivity.
  - discriminate.
  - vm_compute. split; [discriminate|reflexivity].
Qed.

(** C4 as stated fails for a filter whose gain at zero frequency is not
    one: [b = [0.25]], [a = [1, -0.5]] has gain 0.5, and the seven ones
    come back as seven quarters. *)
Lemma filtfilt_constant_not_preserved :
  ~ (exists y,
       snd (_filtfilt one_pole_b one_pole_a ones7 (-1) (Some "odd"%string) None) = Ok y /\
       forall idx, in_bounds (shape ones7) idx -> get y idx = 1%Qc).
Proof.
  intros [y' [Hy' Hall]].
  destruct filtfilt_constant_signal_aux as [y [Hy Hget]].
  rewrite Hy in Hy'. injection Hy' as <-.
  assert (Hin : in_bounds (shape ones7) [0%nat]).
  { unfold in_bounds. simpl. repeat constructor. }
  rewrite (Hall _ Hin) in Hget.
  apply (f_equal this) in Hget. vm_compute in Hget. discriminate.
Qed.

(** ** Stable sorting of indices *)

Lemma lex_lt_spec a i j :
  lex_lt a i j = true <->
  (nth i a 0 < nth j a 0 \/ (nth i a 0 = nth j a 0 /\ (i < j)%nat)).
Proof.
  unfold lex_lt.
  destruct (Z.ltb_spec (nth i a 0) (nth j a 0)), (Z.eqb_spec (nth i a 0) (nth j a 0)),
    (Nat.ltb_spec i j); simpl; split; intros; try lia; auto; discriminate.
Qed.

Lemma lex_lt_false a i j :
  i <> j -> lex_lt a i j = false -> lex_lt a j i = true.
Proof.
  intros Hne Hf. apply lex_lt_spec.
  destruct (lex_lt a i j) eqn:E; [discriminate|].
  assert (Hn : ~ (nth i a 0 < nth j a 0 \/ (nth i a 0 = nth j a 0 /\ (i < j)%nat))).
  { intros H. apply lex_lt_spec in H. congruence. }
  lia.
Qed.

Lemma lex_lt_trans a i j k :
  lex_lt a i j = true -> lex_lt a j k = true -> lex_lt a i k = true.
Proof.
  rewrite !lex_lt_spec. lia.
Qed.

Lemma lex_lt_asym a i j : lex_lt a i j = true -> lex_lt a j i = true -> False.
Proof.
  rewrite !lex_lt_spec. lia.
Qed.

Lemma insert_index_perm a i l : Permutation (insert_index a i l) (i :: l).
Proof.
  induction l as [|j l IH]; simpl; auto.
  destruct (lex_lt a i j); auto.
  rewrite IH. apply perm_swap.
Qed.

Lemma insert_index_sorted a i l :
  ~ In i l -> sorted_by a l -> sorted_by a (insert_index a i l).
Proof.
  unfold sorted_by. intros Hnin Hs. induction Hs as [|j l Hs IH Hall]; simpl.
  - repeat constructor.
  - destruct (lex_lt a i j) eqn:E.
    + constructor; [constructor; assumption|].
      constructor; [exact E|].
      eapply Forall_impl; [|exact Hall]. intros k Hk. cbv beta in Hk.
      eapply lex_lt_trans; eassumption.
    + constructor.
      * apply IH. intros Hin. apply Hnin. now right.
      * assert (Hji : lex_lt a j i = true).
        { apply lex_lt_false; auto. intros ->. apply Hnin. now left. }
        apply Forall_forall. intros k Hk.
        apply (Permutation_in _ (insert_index_perm a i l)) in Hk.
        destruct Hk as [<-|Hk]; [exact Hji|].
        rewrite Forall_forall in Hall. now apply Hall.
Qed.

Lemma sort_indices_spec a l :
  NoDup l ->
  Permutation (fold_right (insert_index a) [] l) l /\
  sorted_by a (fold_right (insert_index a) [] l).
Proof.
  induction 1 as [|i l Hnin Hnd [IHp IHs]]; simpl.
  - split; [constructor|constructor].
  - split.
    + rewrite insert_index_perm. now constructor.
    + apply insert_index_sorted; auto.
      intros Hin. apply Hnin. eapply Permutation_in; eassumption.
Qed.

Lemma argsort_perm a : Permutation (argsort a) (seq 0 (length a)).
Proof. apply sort_indices_spec, seq_NoDup. Qed.

Lemma argsort_sorted a : sorted_by a (argsort a).
Proof. apply sort_indices_spec, seq_NoDup. Qed.

Lemma argsort_length a : length (argsort a) = length a.
Proof.
  rewrite (Permutation_length (argsort_perm a)). apply length_seq.
Qed.

Lemma argsort_In a i : In i (argsort a) <-> (i < length a)%nat.
Proof.
  split; intros H.
  - apply (Permutation_in _ (argsort_perm a)) in H. apply in_seq in H. lia.
  - apply (Permutation_in _ (Permutation_sym (argsort_perm a))). apply in_seq. lia.
Qed.

Lemma argsort_NoDup a : NoDup (argsort a).
Proof.
  apply (Permutation_NoDup (Permutation_sym (argsort_perm a))), seq_NoDup.
Qed.

Lemma StronglySorted_nth {A} (R : A -> A -> Prop) l d p q :
  StronglySorted R l -> (p < q)%nat -> (q < length l)%nat ->
  R (nth p l d) (nth q l d).
Proof.
  intros Hs. revert p q. induction Hs as [|x l Hs IH Hall]; intros p q Hpq Hq.
  - simpl in Hq. lia.
  - destruct q as [|q]; [lia|]. destruct p as [|p]; simpl in *.
    + rewrite Forall_forall in Hall. apply Hall. apply nth_In. lia.
    + apply IH; lia.
Qed.

Lemma StronglySorted_map_in {A B} (R : A -> A -> Prop) (R' : B -> B -> Prop) (f : A -> B) l :
  StronglySorted R l ->
  (forall x y, In x l -> In y l -> R x y -> R' (f x) (f y)) ->
  StronglySorted R' (map f l).
Proof.
  induction 1 as [|x l Hs IH Hall]; intros Hf; simpl; constructor.
  - apply IH. intros u v Hu Hv. apply Hf; now right.
  - rewrite Forall_forall in *. intros y Hy. apply in_map_iff in Hy.
    destruct Hy as [v [<- Hv]]. apply Hf; [now left|now right|now apply Hall].
Qed.

Lemma seq_strictly_sorted s n : StronglySorted lt (seq s n).
Proof.
  revert s; induction n as [|n IH]; intros s; simpl; constructor; auto.
  apply Forall_forall. intros x Hx. apply in_seq in Hx. lia.
Qed.

Lemma strictly_sorted_ext l1 l2 :
  StronglySorted lt l1 -> StronglySorted lt l2 ->
  (forall x, In x l1 <-> In x l2) -> l1 = l2.
Proof.
  intros H1. revert l2. induction H1 as [|x l1 H1 IH Hall1]; intros l2 H2 Hext.
  - destruct l2 as [|y l2]; auto. exfalso. apply (Hext y). now left.
  - destruct H2 as [|y l2 H2 Hall2].
    + exfalso. apply (Hext x). now left.
    + rewrite Forall_forall in Hall1, Hall2.
      assert (Hxy : x = y).
      { destruct (proj1 (Hext x) (or_introl eq_refl)) as [Hx|Hx]; auto.
        destruct (proj2 (Hext y) (or_introl eq_refl)) as [Hy|Hy]; auto.
        specialize (Hall1 _ Hy). specialize (Hall2 _ Hx). lia. }
      subst y. f_equal. apply IH; auto.
      intros z. split; intros Hz.
      * destruct (proj1 (Hext z) (or_intror Hz)) as [Hz'|Hz']; auto.
        subst z. specialize (Hall1 _ Hz). lia.
      * destruct (proj2 (Hext z) (or_intror Hz)) as [Hz'|Hz']; auto.
        subst z. specialize (Hall2 _ Hz). lia.
Qed.

Lemma sorted_perm_seq l n :
  StronglySorted lt l -> Permutation l (seq 0 n) -> l = seq 0 n.
Proof.
  intros Hs Hp. apply strictly_sorted_ext; auto using seq_strictly_sorted.
  intros x. split; intros H.
  - eapply Permutation_in; eassumption.
  - eapply Permutation_in; [apply Permutation_sym|]; eassumption.
Qed.

(** The argsort of a permutation is its inverse. *)
Lemma argsort_inverse order n :
  Permutation order (seq 0 n) ->
  let inv := argsort (map Z.of_nat order) in
  Permutation inv (seq 0 n) /\
  forall i, (i < n)%nat -> nth (nth i inv O) order O = i.
Proof.
  intros Hp inv.
  assert (Hlen : length order = n)
    by (rewrite (Permutation_length Hp); apply length_seq).
  assert (Hnd : NoDup order)
    by (apply (Permutation_NoDup (Permutation_sym Hp)), seq_NoDup).
  assert (Hpi : Permutation inv (seq 0 n)).
  { unfold inv. rewrite <- Hlen, <- (length_map Z.of_nat order). apply argsort_perm. }
  split; [exact Hpi|].
  assert (Hm : map (fun q => nth q order O) inv = seq 0 n).
  { apply sorted_perm_seq.
    - apply StronglySorted_map_in with (R := fun i j => lex_lt (map Z.of_nat order) i j = true).
      + apply argsort_sorted.
      + intros q1 q2 Hq1 Hq2 Hlex.
        apply argsort_In in Hq1. apply argsort_In in Hq2.
        rewrite length_map in Hq1, Hq2.
        apply lex_lt_spec in Hlex.
        change 0 with (Z.of_nat O) in Hlex. rewrite !map_nth in Hlex.
        destruct Hlex as [Hlt|[Heq Hlt]]; [lia|].
        exfalso. apply Nat2Z.inj in Heq.
        rewrite NoDup_nth in Hnd. specialize (Hnd q1 q2 Hq1 Hq2 Heq). lia.
    - rewrite (Permutation_map (fun q => nth q order O) Hpi).
      rewrite <- Hlen, map_nth_seq, Hlen. exact Hp. }
  intros i Hi.
  assert (Hi' : (i < length inv)%nat)
    by (rewrite (Permutation_length Hpi), length_seq; exact Hi).
  pose proof (f_equal (fun l => nth i l O) Hm) as Hnth. cbv beta in Hnth.
  rewrite seq_nth in Hnth by exact Hi. cbn [Nat.add] in Hnth.
  transitivity (nth i (map (fun q => nth q order O) inv) O); [|exact Hnth].
  rewrite (nth_indep (map (fun q => nth q order O) inv) O (nth O order O))
    by (rewrite length_map; exact Hi').
  symmetry. apply (map_nth (fun q => nth q order O)).
Qed.

(** ** [_in1d] on arrays without repeated values *)

Lemma nth_take {A} (d : A) a idx i :
  (i < length idx)%nat -> nth i (take d a idx) d = nth (nth i idx O) a d.
Proof.
  intros Hi. unfold take.
  rewrite (nth_indep _ d (nth O a d)) by (rewrite length_map; exact Hi).
  apply (map_nth (fun j => nth j a d)).
Qed.

Lemma take_length {A} (d : A) a idx : length (take d a idx) = length idx.
Proof. apply length_map. Qed.

Lemma eq_adjacent_length s : length (eq_adjacent s) = (length s - 1)%nat.
Proof.
  unfold eq_adjacent. rewrite map2_length, length_tl, length_removelast. lia.
Qed.

(** [flag[p]] tells whether the value after position [p] of the sorted
    array equals the value at [p]; the last flag is false. *)
Lemma flag_spec s p :
  nth p (eq_adjacent s ++ [false]) false = true <->
  ((p + 1 < length s)%nat /\ nth (p + 1) s 0 = nth p s 0).
Proof.
  destruct (Nat.lt_ge_cases (p + 1) (length s)) as [Hlt|Hge].
  - rewrite app_nth1 by (rewrite eq_adjacent_length; lia).
    unfold eq_adjacent.
    rewrite (@nth_map2 _ _ _ _ _ _ p 0 0)
      by (rewrite ?length_tl, ?length_removelast; lia).
    rewrite nth_tl, nth_removelast by lia.
    replace (S p) with (p + 1)%nat by lia.
    rewrite Z.eqb_eq. tauto.
  - rewrite app_nth2 by (rewrite eq_adjacent_length; lia).
    split; [|lia]. intros H.
    destruct (p - length (eq_adjacent s))%nat as [|[|k]]; simpl in H; discriminate.
Qed.

Lemma in1d_unique_core ar1 ar2 :
  NoDup ar1 -> NoDup ar2 ->
  let ar := ar1 ++ ar2 in
  let order := argsort ar in
  let sar := take 0 ar order in
  let flag := eq_adjacent sar ++ [false] in
  let indx := firstn (length ar1) (argsort (map Z.of_nat order)) in
  length (take false flag indx) = length ar1 /\
  forall i, (i < length ar1)%nat ->
    (nth i (take false flag indx) false = true <-> In (nth i ar1 0) ar2).
Proof.
  intros Hnd1 Hnd2 ar order sar flag indx.
  set (n := length ar).
  assert (Hn : n = (length ar1 + length ar2)%nat) by (unfold n, ar; apply length_app).
  pose proof (argsort_perm ar) as Hperm. fold order in Hperm. fold n in Hperm.
  pose proof (argsort_sorted ar) as Hsorted. fold order in Hsorted.
  pose proof (argsort_NoDup ar) as Hndo. fold order in Hndo.
  assert (Hlo : length order = n) by apply argsort_length.
  destruct (@argsort_inverse order n Hperm) as [Hpinv Hinv].
  set (inv := argsort (map Z.of_nat order)) in *.
  assert (Hlinv : length inv = n)
    by (rewrite (Permutation_length Hpinv); apply length_seq).
  assert (Hlindx : length indx = length ar1)
    by (unfold indx; rewrite length_firstn; lia).
  split; [now rewrite take_length|].
  intros i Hi.
  rewrite nth_take by lia.
  unfold indx at 1. rewrite nth_firstn.
  destruct (Nat.ltb_spec i (length ar1)) as [_|]; [|lia].
  set (p := nth i inv O).
  assert (Hp : (p < n)%nat).
  { assert (Hin : In p inv) by (apply nth_In; lia).
    apply (Permutation_in _ Hpinv) in Hin. apply in_seq in Hin. lia. }
  assert (Hop : nth p order O = i) by (apply Hinv; lia).
  assert (Hsar : forall q, (q < n)%nat -> nth q sar 0 = nth (nth q order O) ar 0).
  { intros q Hq. unfold sar. apply nth_take. lia. }
  assert (Hlsar : length sar = n) by (unfold sar; rewrite take_length; exact Hlo).
  assert (Hari : nth i ar 0 = nth i ar1 0) by (unfold ar; now rewrite app_nth1).
  assert (Hord_lt : forall q, (q < n)%nat -> (nth q order O < n)%nat).
  { intros q Hq. assert (Hin : In (nth q order O) order) by (apply nth_In; lia).
    apply (Permutation_in _ Hperm) in Hin. apply in_seq in Hin. lia. }
  unfold flag. rewrite flag_spec, Hlsar. split.
  - intros [Hlt Heq]. rewrite !Hsar in Heq by lia. rewrite Hop, Hari in Heq.
    set (j := nth (p + 1) order O) in *.
    assert (Hj : (j < n)%nat) by (apply Hord_lt; lia).
    assert (Hji : j <> i).
    { intros Hji. rewrite <- Hop in Hji. unfold j in Hji.
      rewrite NoDup_nth in Hndo. apply Hndo in Hji; lia. }
    destruct (Nat.lt_ge_cases j (length ar1)) as [Hj1|Hj2].
    + exfalso. unfold ar in Heq. rewrite app_nth1 in Heq by exact Hj1.
      rewrite NoDup_nth in Hnd1. apply Hnd1 in Heq; lia.
    + unfold ar in Heq. rewrite app_nth2 in Heq by lia.
      rewrite <- Heq. apply nth_In. lia.
  - intros Hin. destruct (In_nth _ _ 0 Hin) as [j' [Hj' Hnj']].
    set (j := (length ar1 + j')%nat).
    assert (Harj : nth j ar 0 = nth i ar 0).
    { unfold j, ar at 1. now rewrite app_nth2_plus, Hnj'. }
    assert (Hlex : lex_lt ar i j = true)
      by (apply lex_lt_spec; right; split; [symmetry; exact Harj|unfold j; lia]).
    assert (Hjin : In j order).
    { apply (Permutation_in _ (Permutation_sym Hperm)). apply in_seq. unfold j. lia. }
    destruct (In_nth _ _ O Hjin) as [q [Hq Hoq]].
    assert (Hpq : (p < q)%nat).
    { destruct (Nat.lt_trichotomy p q) as [|[Heq|Hgt]]; auto; exfalso.
      - subst q. rewrite Hop in Hoq. unfold j in Hoq. lia.
      - pose proof (@StronglySorted_nth _ _ order O q p Hsorted Hgt ltac:(lia)) as Hqp.
        cbv beta in Hqp. rewrite Hop, Hoq in Hqp.
        exact (lex_lt_asym _ _ _ Hlex Hqp). }
    split; [lia|].
    rewrite !Hsar by lia. rewrite Hop.
    set (k := nth (p + 1) order O).
    pose proof (@StronglySorted_nth _ _ order O p (p + 1) Hsorted ltac:(lia) ltac:(lia)) as Hik.
    cbv beta in Hik. rewrite Hop in Hik. fold k in Hik. apply lex_lt_spec in Hik.
    destruct (Nat.eq_dec (p + 1) q) as [Heq|Hne].
    + unfold k. rewrite Heq, Hoq. exact Harj.
    + pose proof (@StronglySorted_nth _ _ order O (p + 1) q Hsorted ltac:(lia) ltac:(lia)) as Hkj.
      cbv beta in Hkj. rewrite Hoq in Hkj. fold k in Hkj. apply lex_lt_spec in Hkj.
      lia.
Qed.

(** ** [_unique]: run heads of the sorted array *)

Lemma neq_adjacent_cons x y l :
  neq_adjacent (x :: y :: l) = negb (y =? x) :: neq_adjacent (y :: l).
Proof. reflexivity. Qed.

Lemma neq_adjacent_length s : length (neq_adjacent s) = (length s - 1)%nat.
Proof.
  unfold neq_adjacent. rewrite map2_length, length_tl, length_removelast. lia.
Qed.

Lemma cumsum_from_length acc flag : length (cumsum_from acc flag) = length flag.
Proof.
  revert acc; induction flag as [|f flag IH]; intros acc; simpl; auto.
Qed.

Lemma mask_In {A} flag (l : list A) x : In x (mask flag l) -> In x l.
Proof.
  revert l; induction flag as [|f flag IH]; intros [|y l] H; simpl in *;
    try contradiction.
  destruct f; [destruct H as [->|H]|]; auto.
Qed.

(** Position [p] of the array after [x] lies in the run whose head the
    running count of flags selects among the run heads. *)
Lemma run_index x l acc p :
  (p < length l)%nat ->
  let F := neq_adjacent (x :: l) in
  let k := nth p (cumsum_from acc F) 0 - acc in
  0 <= k /\
  (Z.to_nat k <= length (mask F l))%nat /\
  nth (Z.to_nat k) (x :: mask F l) 0 = nth p l 0.
Proof.
  revert x acc p; induction l as [|y l IH]; intros x acc p Hp; [simpl in Hp; lia|].
  cbv zeta. rewrite neq_adjacent_cons. cbn [cumsum_from mask].
  destruct (Z.eqb_spec y x) as [->|Hne]; cbn [negb].
  - rewrite Z.add_0_r. destruct p as [|p]; cbn [nth].
    + rewrite Z.sub_diag. simpl. repeat split; lia.
    + apply IH. simpl in Hp. lia.
  - destruct p as [|p]; cbn [nth length].
    + replace (acc + 1 - acc) with 1 by lia. simpl. repeat split; lia.
    + specialize (IH y (acc + 1) p ltac:(simpl in Hp; lia)). cbv zeta in IH.
      destruct IH as [H0 [Hle Hnth]].
      set (c := nth p (cumsum_from (acc + 1) (neq_adjacent (y :: l))) 0) in *.
      replace (Z.to_nat (c - acc)) with (S (Z.to_nat (c - (acc + 1)))) by lia.
      cbn [nth]. repeat split; try lia. exact Hnth.
Qed.

Lemma run_heads_sorted x l :
  StronglySorted Z.le (x :: l) ->
  StronglySorted Z.lt (x :: mask (neq_adjacent (x :: l)) l).
Proof.
  revert x; induction l as [|y l IH]; intros x Hs.
  - repeat constructor.
  - rewrite neq_adjacent_cons. cbn [mask].
    inversion Hs as [|? ? Hs' Hall]; subst.
    specialize (IH y Hs').
    destruct (Z.eqb_spec y x) as [->|Hne]; cbn [negb]; [exact IH|].
    assert (Hxy : x < y) by (inversion Hall; subst; lia).
    constructor; [exact IH|].
    inversion IH as [|? ? _ Hally]; subst.
    constructor; [exact Hxy|].
    eapply Forall_impl; [|exact Hally]. intros z Hz. cbv beta in Hz. lia.
Qed.

Lemma strictly_sorted_NoDup l : StronglySorted Z.lt l -> NoDup l.
Proof.
  induction 1 as [|x l Hs IH Hall]; constructor; auto.
  intros Hin. rewrite Forall_forall in Hall. specialize (Hall _ Hin). lia.
Qed.

(** The values that [_unique] and [np.unique] return: the run heads of
    the sorted array, without repetition, the same values as the array. *)
Lemma run_heads_spec s :
  StronglySorted Z.le s ->
  let v := mask (true :: neq_adjacent s) s in
  NoDup v /\ forall z, In z v <-> In z s.
Proof.
  intros Hs v. destruct s as [|x l]; [split; [constructor|reflexivity]|].
  unfold v. cbn [mask]. split.
  - apply strictly_sorted_NoDup, run_heads_sorted, Hs.
  - intros z. split.
    + intros [->|Hin]; [now left|]. right. eapply mask_In; eassumption.
    + intros [->|Hin]; [now left|].
      destruct (In_nth _ _ 0 Hin) as [p [Hp <-]].
      destruct (@run_index x l 0 p Hp) as [_ [Hle Hnth]].
      rewrite <- Hnth. apply nth_In. simpl. lia.
Qed.

Lemma take_argsort_perm a : Permutation (take 0 a (argsort a)) a.
Proof.
  unfold take. rewrite (Permutation_map _ (argsort_perm a)).
  now rewrite map_nth_seq.
Qed.

Lemma take_argsort_sorted a : StronglySorted Z.le (take 0 a (argsort a)).
Proof.
  unfold take.
  apply StronglySorted_map_in with (R := fun i j => lex_lt a i j = true).
  - apply argsort_sorted.
  - intros i j _ _ H. apply lex_lt_spec in H. lia.
Qed.

Lemma np_unique_spec ar :
  NoDup (np_unique ar) /\ forall z, In z (np_unique ar) <-> In z ar.
Proof.
  unfold np_unique, np_sort. cbv zeta.
  destruct (run_heads_spec (take_argsort_sorted ar)) as [Hnd Hin].
  split; [exact Hnd|]. intros z. rewrite Hin.
  split; apply Permutation_in;
    [apply take_argsort_perm|apply Permutation_sym, take_argsort_perm].
Qed.

Lemma nth_map_in {A B} (f : A -> B) l p d d' :
  (p < length l)%nat -> nth p (map f l) d' = f (nth p l d).
Proof.
  intros Hp. rewrite (nth_indep _ d' (f d)) by (rewrite length_map; exact Hp).
  apply map_nth.
Qed.

(** [unique(ar, return_inverse=True)]: values without repetition, and an
    inverse array that maps every position of [ar] to the position of
    its value among them. *)
Lemma unique_inverse_spec ar :
  let u := _unique ar false true in
  NoDup (u_values u) /\
  exists rev,
    u_inverse u = Some rev /\
    length rev = length ar /\
    forall i, (i < length ar)%nat ->
      0 <= nth i rev 0 /\
      (Z.to_nat (nth i rev 0%Z) < length (u_values u))%nat /\
      nth (Z.to_nat (nth i rev 0)) (u_values u) 0 = nth i ar 0.
Proof.
  destruct ar as [|a0 ar'].
  - simpl. split; [constructor|]. exists []. repeat split; simpl; intros; lia.
  - set (ar := a0 :: ar'). unfold _unique. fold ar. cbn [orb]. cbv zeta.
    set (perm := argsort ar). set (aux := take 0 ar perm).
    set (iperm := argsort (map Z.of_nat perm)).
    cbn [u_values u_inverse].
    pose proof (take_argsort_sorted ar) as Hsorted. fold perm in Hsorted. fold aux in Hsorted.
    destruct (run_heads_spec Hsorted) as [Hnd _]. split; [exact Hnd|].
    eexists; split; [reflexivity|].
    pose proof (argsort_perm ar) as Hperm. fold perm in Hperm.
    destruct (@argsort_inverse perm (length ar) Hperm) as [Hpinv Hinv]. fold iperm in Hpinv, Hinv.
    assert (Hliperm : length iperm = length ar)
      by (rewrite (Permutation_length Hpinv); apply length_seq).
    assert (Hlaux : length aux = length ar)
      by (unfold aux; rewrite take_length; apply argsort_length).
    split; [now rewrite take_length|].
    intros i Hi. rewrite nth_take by lia.
    set (p := nth i iperm O).
    assert (Hp : (p < length ar)%nat).
    { assert (Hin : In p iperm) by (apply nth_In; lia).
      apply (Permutation_in _ Hpinv) in Hin. apply in_seq in Hin. lia. }
    assert (Hauxp : nth p aux 0 = nth i ar 0).
    { unfold aux. rewrite nth_take by (unfold perm; rewrite argsort_length; exact Hp).
      f_equal. apply Hinv. exact Hi. }
    rewrite <- Hauxp. clearbody aux p. clear Hauxp.
    destruct aux as [|x l]; [simpl in Hlaux; unfold ar in Hlaux; simpl in Hlaux; lia|].
    cbn [mask np_cumsum cumsum_from map]. rewrite Z.add_0_l.
    replace (1 - 1) with 0 by lia.
    destruct p as [|p]; cbn [nth].
    + simpl. repeat split; lia.
    + assert (Hpl : (p < length l)%nat)
        by (change (length (x :: l)) with (S (length l)) in Hlaux; lia).
      rewrite (@nth_map_in _ _ (fun c => c - 1) _ p 0 0)
        by (rewrite cumsum_from_length, neq_adjacent_length; simpl; lia).
      destruct (@run_index x l 1 p Hpl) as [H0 [Hle Hnth]].
      repeat split; [exact H0|simpl; lia|exact Hnth].
Qed.

(** ** [_in1d] *)

(** C7: the result has one entry per entry of [ar1], true exactly when
    that entry of [ar1] occurs in [ar2]; with [assume_unique] the arrays
    are taken to have no repeated value. *)
Theorem in1d_membership (ar1 ar2 : list Z) (assume_unique : bool) :
  (assume_unique = true -> NoDup ar1 /\ NoDup ar2) ->
  length (_in1d ar1 ar2 assume_unique) = length ar1 /\
  forall i, (i < length ar1)%nat ->
    (nth i (_in1d ar1 ar2 assume_unique) false = true <-> In (nth i ar1 0) ar2).
Proof.
  intros Hpre. unfold _in1d. destruct assume_unique; cbn [negb].
  - destruct (Hpre eq_refl) as [Hnd1 Hnd2]. cbv zeta.
    exact (in1d_unique_core Hnd1 Hnd2).
  - clear Hpre. unfold unique.
    destruct (unique_inverse_spec ar1) as [Hnd1 [rev [Hrev [Hlrev Hinv]]]].
    cbv zeta in Hnd1, Hrev, Hinv. rewrite Hrev.
    destruct (np_unique_spec ar2) as [Hnd2 Hin2].
    destruct (in1d_unique_core Hnd1 Hnd2) as [Hlen Hcore]. cbv zeta in Hlen, Hcore.
    split.
    + now rewrite take_length, length_map.
    + intros i Hi. specialize (Hinv i Hi). destruct Hinv as [H0 [Hlt Hval]].
      rewrite nth_take by (rewrite length_map; lia).
      rewrite (@nth_map_in _ _ Z.to_nat rev i 0 O) by lia.
      rewrite Hcore by exact Hlt.
      rewrite Hval. apply Hin2.
Qed.

Lemma in1d_membership_witness :
  length (_in1d [3; 1; 7; 2] [2; 9; 3] true) = length [3; 1; 7; 2] /\
  forall i, (i < length [3; 1; 7; 2])%nat ->
    (nth i (_in1d [3; 1; 7; 2] [2; 9; 3] true) false = true
     <-> In (nth i [3; 1; 7; 2] 0) [2; 9; 3]).
Proof.
  apply (@in1d_membership [3; 1; 7; 2] [2; 9; 3] true).
  intros _. split.
  - repeat constructor; simpl; intuition lia.
  - repeat constructor; simpl; intuition lia.
Defined.

Example in1d_repeated_values :
  _in1d [3; 1; 3; 7; 2] [2; 3; 3; 9] false = [true; false; true; false; true].
Proof. reflexivity. Qed.

(** * Further properties of the fallbacks *)

(** ** [_copysign] away from zero *)

(** X1: on 64-bit integers, with a second argument that is not zero.
    Unless the first argument is the least integer, the result has its
    magnitude and, unless it is zero, the sign of the second argument,
    and copying the sign a second time changes nothing.  The least
    integer, whose absolute value wraps around, comes back as it is,
    whatever the sign of the second argument. *)
Theorem copysign_magnitude_and_sign (x1 x2 : Z) :
  is_int64 x1 -> is_int64 x2 ->
  x2 <> 0 ->
  (x1 <> int64_min ->
   Z.abs (_copysign x1 x2) = Z.abs x1 /\
   (x1 <> 0 -> Z.sgn (_copysign x1 x2) = Z.sgn x2) /\
   _copysign (_copysign x1 x2) x2 = _copysign x1 x2) /\
  (x1 = int64_min -> _copysign x1 x2 = int64_min).
Proof.
  intros Hr1 Hr2 H2. split.
  - intros Hmin.
    destruct (@copysign_nonzero x1 x2 Hr1 Hmin H2) as [Heq [Habs Hsgn]].
    split; [exact Habs|]. split; [exact Hsgn|].
    assert (Hy : is_int64 (_copysign x1 x2) /\ _copysign x1 x2 <> int64_min).
    { unfold is_int64 in *. destruct int64_bounds as [Em [EM Hp]].
      rewrite Em, EM in *. lia. }
    destruct Hy as [Hy Hymin].
    destruct (@copysign_nonzero (_copysign x1 x2) x2 Hy Hymin H2) as [Heq' _].
    rewrite Heq', Habs. symmetry. exact Heq.
  - intros ->. now apply copysign_least.
Qed.

Lemma copysign_magnitude_and_sign_witness :
  (-3 <> int64_min ->
   Z.abs (_copysign (-3) (-2)) = Z.abs (-3) /\
   (-3 <> 0 -> Z.sgn (_copysign (-3) (-2)) = Z.sgn (-2)) /\
   _copysign (_copysign (-3) (-2)) (-2) = _copysign (-3) (-2)) /\
  (-3 = int64_min -> _copysign (-3) (-2) = int64_min).
Proof.
  apply (@copysign_magnitude_and_sign (-3) (-2)).
  - unfold is_int64, int64_min, int64_max. lia.
  - unfold is_int64, int64_min, int64_max. lia.
  - discriminate.
Defined.

(** ** [count_nonzero] *)

Lemma filter_seq_shift (f : nat -> bool) s n :
  length (filter f (seq (S s) n)) = length (filter (fun i => f (S i)) (seq s n)).
Proof.
  rewrite <- seq_shift. revert s. induction n as [|n IH]; intros s; simpl; auto.
  destruct (f (S s)); simpl; now rewrite IH.
Qed.

(** X2: the fallback counts exactly the entries that are not zero: with
    the number of zeros it adds up to the size, and it adds over
    concatenation. *)
Theorem count_nonzero_counts (X Y : list Z) :
  (count_nonzero X + count_occ Z.eq_dec X 0%Z = length X)%nat /\
  count_nonzero (X ++ Y) = (count_nonzero X + count_nonzero Y)%nat.
Proof.
  assert (Hcons : forall v l,
             count_nonzero (v :: l)
             = ((if (v =? 0)%Z then 0 else 1) + count_nonzero l)%nat).
  { intros v l. unfold count_nonzero, np_flatnonzero.
    cbn [length seq filter nth].
    pose proof (filter_seq_shift (fun i => negb (nth i (v :: l) 0 =? 0)) 0 (length l)) as Hs.
    cbn [nth] in Hs.
    destruct (v =? 0); cbn [negb length Nat.add]; now rewrite Hs. }
  split.
  - induction X as [|v X IH]; [reflexivity|].
    rewrite Hcons. cbn [count_occ length].
    destruct (Z.eq_dec v 0) as [->|Hne].
    + simpl. lia.
    + destruct (Z.eqb_spec v 0); [contradiction|].
      destruct (Z.eq_dec v 0); [contradiction|]. lia.
  - induction X as [|v X IH]; [reflexivity|].
    cbn [app]. rewrite !Hcons, IH. lia.
Qed.

(** ** [_unique] *)

Lemma unique_values_eq ar return_index return_inverse :
  u_values (_unique ar return_index return_inverse)
  = mask (true :: neq_adjacent (take 0 ar (argsort ar))) (take 0 ar (argsort ar)).
Proof.
  destruct ar as [|a0 ar']; [reflexivity|].
  set (ar := a0 :: ar'). unfold _unique. fold ar.
  destruct return_index, return_inverse; reflexivity.
Qed.

Lemma run_heads_strictly_sorted s :
  StronglySorted Z.le s -> StronglySorted Z.lt (mask (true :: neq_adjacent s) s).
Proof.
  intros Hs. destruct s as [|x l]; [constructor|].
  cbn [mask]. now apply run_heads_sorted.
Qed.

Lemma unique_values_spec ar return_index return_inverse :
  StronglySorted Z.lt (u_values (_unique ar return_index return_inverse)) /\
  forall z, In z (u_values (_unique ar return_index return_inverse)) <-> In z ar.
Proof.
  rewrite unique_values_eq.
  pose proof (take_argsort_sorted ar) as Hs. split.
  - now apply run_heads_strictly_sorted.
  - intros z. destruct (run_heads_spec Hs) as [_ Hin]. rewrite Hin.
    split; apply Permutation_in;
      [apply take_argsort_perm|apply Permutation_sym, take_argsort_perm].
Qed.

(** X3: whatever outputs are asked for, the values that [_unique]
    returns are strictly increasing (sorted, none twice) and are exactly
    the values that occur in the array. *)
Theorem unique_values_sorted_distinct (ar : list Z) (return_index return_inverse : bool) :
  let values := u_values (_unique ar return_index return_inverse) in
  StronglySorted Z.lt values /\ forall z, In z values <-> In z ar.
Proof.
  cbv zeta. apply unique_values_spec.
Qed.

Lemma mask_map {A B} (f : A -> B) flag l : mask flag (map f l) = map f (mask flag l).
Proof.
  revert l; induction flag as [|b flag IH]; intros [|x l]; simpl; auto.
  destruct b; simpl; now rewrite IH.
Qed.

(** X4: with [return_index], the index array has one entry per value,
    each a position of the array, and the array holds value [k] at
    position [index[k]]. *)
Theorem unique_index_points_at_values (ar : list Z) (return_inverse : bool) :
  let u := _unique ar true return_inverse in
  exists index,
    u_index u = Some index /\
    length index = length (u_values u) /\
    forall k, (k < length index)%nat ->
      (nth k index O < length ar)%nat /\
      nth (nth k index O) ar 0 = nth k (u_values u) 0.
Proof.
  cbv zeta. rewrite unique_values_eq.
  destruct ar as [|a0 ar'].
  - exists []. destruct return_inverse; repeat split; simpl in *; lia.
  - set (ar := a0 :: ar').
    exists (mask (true :: neq_adjacent (take 0 ar (argsort ar))) (argsort ar)).
    split; [unfold _unique; fold ar; destruct return_inverse; reflexivity|].
    set (flag := true :: neq_adjacent (take 0 ar (argsort ar))).
    assert (Hm : mask flag (take 0 ar (argsort ar))
                 = map (fun i => nth i ar 0) (mask flag (argsort ar)))
      by apply mask_map.
    rewrite Hm, length_map. split; [reflexivity|].
    intros k Hk. split.
    + apply argsort_In. eapply mask_In. apply nth_In. exact Hk.
    + symmetry.
      exact (@nth_map_in _ _ (fun i => nth i ar 0) (mask flag (argsort ar)) k O 0 Hk).
Qed.

Lemma unique_inverse_eq ar return_index :
  u_inverse (_unique ar return_index true) = u_inverse (_unique ar false true).
Proof.
  destruct ar as [|a0 ar']; [now destruct return_index|].
  set (ar := a0 :: ar'). unfold _unique. fold ar.
  destruct return_index; reflexivity.
Qed.

(** X5: with [return_inverse], indexing the values with the inverse
    array gives the array back. *)
Theorem unique_inverse_rebuilds_array (ar : list Z) (return_index : bool) :
  let u := _unique ar return_index true in
  exists inverse,
    u_inverse u = Some inverse /\
    length inverse = length ar /\
    (forall i, (i < length ar)%nat ->
       0 <= nth i inverse 0 < Z.of_nat (length (u_values u))) /\
    take 0 (u_values u) (map Z.to_nat inverse) = ar.
Proof.
  cbv zeta. rewrite unique_inverse_eq, unique_values_eq.
  destruct (unique_inverse_spec ar) as [_ [rev [Hrev [Hlen Hspec]]]].
  cbv zeta in Hrev, Hspec. rewrite unique_values_eq in Hspec.
  exists rev. split; [exact Hrev|]. split; [exact Hlen|]. split.
  - intros i Hi. destruct (Hspec i Hi) as [H0 [Hlt _]]. lia.
  - apply nth_ext with (d := 0) (d' := 0).
    + now rewrite take_length, length_map.
    + intros i Hi. rewrite take_length, length_map in Hi.
      rewrite nth_take by (rewrite length_map; exact Hi).
      rewrite (@nth_map_in _ _ Z.to_nat rev i 0 O) by exact Hi.
      apply Hspec. lia.
Qed.

Lemma strictly_sorted_Z_ext l1 l2 :
  StronglySorted Z.lt l1 -> StronglySorted Z.lt l2 ->
  (forall x, In x l1 <-> In x l2) -> l1 = l2.
Proof.
  intros H1. revert l2. induction H1 as [|x l1 H1 IH Hall1]; intros l2 H2 Hext.
  - destruct l2 as [|y l2]; auto. exfalso. apply (Hext y). now left.
  - destruct H2 as [|y l2 H2 Hall2].
    + exfalso. apply (Hext x). now left.
    + rewrite Forall_forall in Hall1, Hall2.
      assert (Hxy : x = y).
      { destruct (proj1 (Hext x) (or_introl eq_refl)) as [Hx|Hx]; auto.
        destruct (proj2 (Hext y) (or_introl eq_refl)) as [Hy|Hy]; auto.
        specialize (Hall1 _ Hy). specialize (Hall2 _ Hx). lia. }
      subst y. f_equal. apply IH; auto.
      intros z. split; intros Hz.
      * destruct (proj1 (Hext z) (or_intror Hz)) as [Hz'|Hz']; auto.
        subst z. specialize (Hall1 _ Hz). lia.
      * destruct (proj2 (Hext z) (or_intror Hz)) as [Hz'|Hz']; auto.
        subst z. specialize (Hall2 _ Hz). lia.
Qed.

(** X6: [_unique] does nothing to an array that is already strictly
    increasing; in particular applying it to its own values gives them
    back. *)
Theorem unique_idempotent (ar : list Z) (ri rv ri' rv' : bool) :
  let values := u_values (_unique ar ri rv) in
  u_values (_unique values ri' rv') = values.
Proof.
  cbv zeta.
  destruct (unique_values_spec ar ri rv) as [Hs _].
  set (values := u_values (_unique ar ri rv)) in *.
  destruct (unique_values_spec values ri' rv') as [Hs' Hin].
  now apply strictly_sorted_Z_ext.
Qed.

(** ** [_tril_indices] *)

Example tril_indices_doc :
  _tril_indices 3 0 = ([0; 1; 1; 2; 2; 2], [0; 0; 1; 0; 1; 2]) /\
  _tril_indices 3 1 = ([0; 0; 1; 1; 1; 2; 2; 2], [0; 1; 0; 1; 2; 0; 1; 2]) /\
  _tril_indices 3 (-1) = ([1; 2; 2], [0; 0; 1]) /\
  _tril_indices 0 0 = ([], []).
Proof. repeat split; reflexivity. Qed.

Lemma combine_fst_snd {A B} (l : list (A * B)) : combine (map fst l) (map snd l) = l.
Proof. induction l as [|[a b] l IH]; simpl; congruence. Qed.

Lemma np_arange_length n : length (np_arange n) = Z.to_nat n.
Proof. unfold np_arange. now rewrite length_map, length_seq. Qed.

Lemma nth_np_arange n i : (i < Z.to_nat n)%nat -> nth i (np_arange n) 0 = Z.of_nat i.
Proof.
  intros Hi. unfold np_arange.
  rewrite (@nth_map_in _ _ Z.of_nat (seq 0 (Z.to_nat n)) i O 0)
    by (rewrite length_seq; exact Hi).
  now rewrite seq_nth.
Qed.

(** Row [i] of the mask: column [j] is set when [i - j >= -k]. *)
Lemma tril_mask_row n k i :
  (i < Z.to_nat n)%nat ->
  nth i (greater_equal (subtract_outer (np_arange n) (np_arange n)) (- k)) []
  = map (fun j => - k <=? Z.of_nat i - Z.of_nat j) (seq 0 (Z.to_nat n)).
Proof.
  intros Hi. unfold greater_equal, subtract_outer.
  rewrite map_map.
  rewrite (@nth_map_in _ _ _ (np_arange n) i 0 [])
    by (rewrite np_arange_length; exact Hi).
  rewrite nth_np_arange by exact Hi.
  unfold np_arange. now rewrite !map_map.
Qed.

Lemma tril_mask_length n k :
  length (greater_equal (subtract_outer (np_arange n) (np_arange n)) (- k)) = Z.to_nat n.
Proof.
  unfold greater_equal, subtract_outer. now rewrite !length_map, np_arange_length.
Qed.

Lemma flat_map_ext_in {A B} (f g : A -> list B) l :
  (forall x, In x l -> f x = g x) -> flat_map f l = flat_map g l.
Proof.
  induction l as [|x l IH]; intros H; simpl; auto.
  rewrite (H x) by now left. f_equal. apply IH. intros y Hy. apply H. now right.
Qed.

Lemma filter_ext_in_seq (f g : nat -> bool) s n :
  (forall j, (s <= j < s + n)%nat -> f j = g j) ->
  filter f (seq s n) = filter g (seq s n).
Proof.
  intros H. apply filter_ext_in. intros j Hj. apply in_seq in Hj. now apply H.
Qed.

(** The cells that [_tril_indices] lists, row by row. *)
Lemma tril_cells n k :
  combine (fst (_tril_indices n k)) (snd (_tril_indices n k))
  = flat_map (fun i => map (fun j => (Z.of_nat i, Z.of_nat j))
                           (filter (fun j => - k <=? Z.of_nat i - Z.of_nat j)
                                   (seq 0 (Z.to_nat n))))
             (seq 0 (Z.to_nat n)).
Proof.
  unfold _tril_indices, np_where. cbv zeta. cbn [fst snd].
  rewrite combine_fst_snd, tril_mask_length.
  apply flat_map_ext_in. intros i Hi. apply in_seq in Hi.
  unfold where_row. rewrite tril_mask_row by lia.
  rewrite length_map, length_seq. f_equal.
  apply filter_ext_in_seq. intros j Hj.
  rewrite (@nth_map_in _ _ (fun j0 => - k <=? Z.of_nat i - Z.of_nat j0)
                       (seq 0 (Z.to_nat n)) j O false)
    by (rewrite length_seq; lia).
  rewrite seq_nth by lia. reflexivity.
Qed.

Lemma tril_indices_lengths n k :
  length (fst (_tril_indices n k)) = length (snd (_tril_indices n k)).
Proof.
  unfold _tril_indices, np_where. cbv zeta. cbn [fst snd]. now rewrite !length_map.
Qed.

(** X7: the two arrays have the same length, and the pair (row, column)
    at a common position ranges exactly over the cells of the [n] by [n]
    square with [column <= row + k]. *)
Theorem tril_indices_cells (n k i j : Z) :
  length (fst (_tril_indices n k)) = length (snd (_tril_indices n k)) /\
  (In (i, j) (combine (fst (_tril_indices n k)) (snd (_tril_indices n k)))
   <-> 0 <= i < n /\ 0 <= j < n /\ j <= i + k).
Proof.
  split; [apply tril_indices_lengths|].
  rewrite tril_cells, in_flat_map. split.
  - intros [i0 [Hi0 Hin]]. apply in_seq in Hi0.
    apply in_map_iff in Hin. destruct Hin as [j0 [Heq Hj0]].
    apply filter_In in Hj0. destruct Hj0 as [Hj0 Hle]. apply in_seq in Hj0.
    injection Heq as <- <-. apply Z.leb_le in Hle. lia.
  - intros [Hi [Hj Hle]]. exists (Z.to_nat i). split; [apply in_seq; lia|].
    apply in_map_iff. exists (Z.to_nat j). split.
    + f_equal; lia.
    + apply filter_In. split; [apply in_seq; lia|]. apply Z.leb_le. lia.
Qed.

Lemma StronglySorted_app {A} (R : A -> A -> Prop) l1 l2 :
  StronglySorted R l1 -> StronglySorted R l2 ->
  (forall x y, In x l1 -> In y l2 -> R x y) ->
  StronglySorted R (l1 ++ l2).
Proof.
  intros H1 H2 Hc. induction H1 as [|x l1 H1 IH Hall]; simpl; auto.
  constructor.
  - apply IH. intros u v Hu Hv. apply Hc; [now right|exact Hv].
  - apply Forall_app. split; [exact Hall|].
    apply Forall_forall. intros y Hy. apply Hc; [now left|exact Hy].
Qed.

Lemma StronglySorted_filter {A} (R : A -> A -> Prop) (f : A -> bool) l :
  StronglySorted R l -> StronglySorted R (filter f l).
Proof.
  induction 1 as [|x l Hs IH Hall]; simpl; [constructor|].
  destruct (f x); auto. constructor; auto.
  rewrite Forall_forall in *. intros y Hy. apply filter_In in Hy. now apply Hall.
Qed.

Lemma row_major_cells (cols : nat -> list nat) l :
  StronglySorted lt l ->
  (forall i, StronglySorted lt (cols i)) ->
  StronglySorted row_major_lt
    (flat_map (fun i => map (fun j => (Z.of_nat i, Z.of_nat j)) (cols i)) l).
Proof.
  intros Hl Hcols. induction Hl as [|i l Hl IH Hall]; simpl; [constructor|].
  apply StronglySorted_app.
  - apply StronglySorted_map_in with (R := lt); [apply Hcols|].
    intros j1 j2 _ _ Hlt. right. simpl. lia.
  - exact IH.
  - intros p q Hp Hq. apply in_map_iff in Hp. destruct Hp as [j [<- _]].
    apply in_flat_map in Hq. destruct Hq as [i' [Hi' Hq]].
    apply in_map_iff in Hq. destruct Hq as [j' [<- _]].
    rewrite Forall_forall in Hall. specialize (Hall _ Hi'). left. simpl. lia.
Qed.

(** X8: the cells come in row-major order, each once: the positions
    are strictly increasing by row, then by column. *)
Theorem tril_indices_row_major (n k : Z) :
  StronglySorted row_major_lt
    (combine (fst (_tril_indices n k)) (snd (_tril_indices n k))).
Proof.
  rewrite tril_cells. apply row_major_cells.
  - apply seq_strictly_sorted.
  - intros i. apply StronglySorted_filter, seq_strictly_sorted.
Qed.

Lemma filter_le_seq_length i m :
  length (filter (fun j => (j <=? i)%nat) (seq 0 m)) = Nat.min m (S i).
Proof.
  induction m as [|m IH]; [reflexivity|].
  rewrite seq_S, filter_app, length_app, IH. cbn [Nat.add filter].
  destruct (Nat.leb_spec m i); simpl; lia.
Qed.

Lemma tril_count_upto (n m : nat) :
  (m <= n)%nat ->
  (2 * length (flat_map (fun i => map (fun j => (Z.of_nat i, Z.of_nat j))
                                      (filter (fun j => (- 0 <=? Z.of_nat i - Z.of_nat j)%Z)
                                              (seq 0 n)))
                        (seq 0 m))
   = m * (m + 1))%nat.
Proof.
  induction m as [|m IH]; intros Hm; [reflexivity|].
  rewrite seq_S, flat_map_app, length_app. cbn [Nat.add flat_map].
  rewrite app_nil_r, length_map.
  rewrite (@filter_ext_in_seq _ (fun j => (j <=? m)%nat) 0 n).
  - rewrite filter_le_seq_length. specialize (IH ltac:(lia)). lia.
  - intros j _. destruct (Nat.leb_spec j m), (Z.leb_spec (- 0) (Z.of_nat m - Z.of_nat j)); lia.
Qed.

(** X9: with [k = 0] the lower triangle of an [n] by [n] square has
    [n (n + 1) / 2] cells; a non-positive [n] gives none. *)
Theorem tril_indices_count (n : Z) :
  2 * Z.of_nat (length (fst (_tril_indices n 0))) = Z.max 0 n * (Z.max 0 n + 1).
Proof.
  assert (Hlen : length (fst (_tril_indices n 0))
                 = length (combine (fst (_tril_indices n 0)) (snd (_tril_indices n 0)))).
  { rewrite length_combine, <- tril_indices_lengths. lia. }
  rewrite Hlen, tril_cells.
  pose proof (@tril_count_upto (Z.to_nat n) (Z.to_nat n) (le_n _)) as H.
  nia.
Qed.

(** ** [_unravel_index] *)

Example unravel_index_doc :
  _unravel_index (mk_index_array [3%nat] [22; 41; 37]) [7; 6]%nat
  = Ok (CoordinateArrays [[3; 6; 6]; [4; 5; 1]]) /\
  _unravel_index (mk_index_array [] [1621]) [6; 7; 8; 9]%nat
  = Ok (Coordinates [3; 1; 4; 1]) /\
  _unravel_index (mk_index_array [1%nat] [1621]) [6; 7; 8; 9]%nat
  = Ok (CoordinateArrays [[3]; [1]; [4]; [1]]).
Proof. repeat split; reflexivity. Qed.

Lemma unravel_length dims idx : length (unravel dims idx) = length dims.
Proof.
  revert idx; induction dims as [|d dims IH]; intros idx; simpl; auto.
Qed.

Lemma unravel_in_bounds dims idx :
  (idx < prod dims)%nat -> in_bounds dims (unravel dims idx).
Proof.
  unfold in_bounds. revert idx; induction dims as [|d dims IH]; intros idx H.
  - constructor.
  - rewrite prod_cons in H. cbn [unravel].
    assert (Hp : (prod dims <> 0)%nat) by (intros Hz; rewrite Hz in H; lia).
    constructor.
    + apply Nat.Div0.div_lt_upper_bound. lia.
    + apply IH. apply Nat.mod_upper_bound. exact Hp.
Qed.

Lemma ravel_unravel dims idx :
  (idx < prod dims)%nat -> ravel dims (unravel dims idx) = idx.
Proof.
  revert idx; induction dims as [|d dims IH]; intros idx H.
  - cbn in H. cbn. lia.
  - rewrite prod_cons in H. cbn [unravel ravel].
    assert (Hp : (prod dims <> 0)%nat) by (intros Hz; rewrite Hz in H; lia).
    rewrite IH by (apply Nat.mod_upper_bound; exact Hp).
    rewrite (Nat.div_mod_eq idx (prod dims)) at 3. lia.
Qed.

Lemma ravel_lt_prod dims c : in_bounds dims c -> (ravel dims c < prod dims)%nat.
Proof.
  unfold in_bounds. intros H. induction H as [|i d c dims Hid Hrest IH].
  - cbn. lia.
  - cbn [ravel]. rewrite prod_cons. nia.
Qed.

Lemma unravel_ravel dims c : in_bounds dims c -> unravel dims (ravel dims c) = c.
Proof.
  intros H. pose proof H as H'. unfold in_bounds in H.
  induction H as [|i d c dims Hid Hrest IH]; [reflexivity|].
  cbn [ravel unravel].
  pose proof (ravel_lt_prod Hrest) as Hlt.
  assert (Hdiv : ((i * prod dims + ravel dims c) / prod dims = i)%nat).
  { rewrite Nat.div_add_l by lia. rewrite Nat.div_small by exact Hlt. lia. }
  assert (Hmod : ((i * prod dims + ravel dims c) mod prod dims = ravel dims c)%nat).
  { rewrite Nat.add_comm, Nat.Div0.mod_add. now apply Nat.mod_small. }
  rewrite Hdiv, Hmod. f_equal. now apply IH.
Qed.

Lemma map_to_nat_of_nat l : map Z.to_nat (map Z.of_nat l) = l.
Proof.
  rewrite map_map. rewrite <- (map_id l) at 2. apply map_ext. intros. apply Nat2Z.id.
Qed.

Lemma coordinates_ok_of_nat dims u :
  in_bounds dims u -> coordinates_ok dims (map Z.of_nat u).
Proof.
  unfold in_bounds, coordinates_ok. induction 1; simpl; constructor; auto. lia.
Qed.

Lemma coordinates_ok_to_nat dims c :
  coordinates_ok dims c -> in_bounds dims (map Z.to_nat c) /\ map Z.of_nat (map Z.to_nat c) = c.
Proof.
  unfold in_bounds, coordinates_ok. induction 1 as [|v d c dims Hv Hrest [IH1 IH2]]; simpl.
  - split; constructor.
  - split; [constructor; [lia|exact IH1]|]. rewrite IH2. f_equal. lia.
Qed.

Lemma np_unravel_index_valid idx dims :
  0 <= idx < Z.of_nat (prod dims) ->
  exists c,
    np_unravel_index idx dims = Ok c /\
    c = map Z.of_nat (unravel dims (Z.to_nat idx)) /\
    length c = length dims /\
    coordinates_ok dims c /\
    ravel_Z dims c = idx.
Proof.
  intros H. unfold np_unravel_index.
  destruct (Z.leb_spec 0 idx), (Z.ltb_spec idx (Z.of_nat (prod dims))); try lia.
  cbn [andb]. eexists; split; [reflexivity|]. split; [reflexivity|].
  assert (Hlt : (Z.to_nat idx < prod dims)%nat) by lia.
  repeat split.
  - now rewrite length_map, unravel_length.
  - apply coordinates_ok_of_nat, unravel_in_bounds, Hlt.
  - unfold ravel_Z. rewrite map_to_nat_of_nat, ravel_unravel by exact Hlt. lia.
Qed.

Lemma np_unravel_index_invalid idx dims :
  ~ (0 <= idx < Z.of_nat (prod dims)) ->
  np_unravel_index idx dims = Err (LibraryValueError "Invalid index").
Proof.
  intros H. unfold np_unravel_index.
  destruct (Z.leb_spec 0 idx), (Z.ltb_spec idx (Z.of_nat (prod dims)));
    try lia; reflexivity.
Qed.

Lemma transpose_rows_single (c : list Z) :
  transpose_rows (length c) [c] = map (fun v => [v]) c.
Proof.
  unfold transpose_rows. cbn [map].
  rewrite <- (map_nth_seq c 0) at 2. now rewrite map_map.
Qed.

(** The two results of [_unravel_index] on a single valid index: the
    tuple of coordinates for a scalar, one-entry arrays for an array. *)
Lemma unravel_index_single (shp : list nat) (idx : Z) (dims : list nat) (c : list Z) :
  np_unravel_index idx dims = Ok c ->
  length c = length dims ->
  _unravel_index (mk_index_array [] [idx]) dims = Ok (Coordinates c) /\
  (shp <> [] ->
   _unravel_index (mk_index_array shp [idx]) dims
   = Ok (CoordinateArrays (map (fun v => [v]) c))).
Proof.
  intros Hc Hlen. unfold _unravel_index, np_unravel_index_array.
  cbn [ia_flat ia_shape length Nat.eqb hd unravel_rows].
  rewrite Hc. cbn [rbind]. split; [reflexivity|].
  intros Hshp. destruct shp as [|n shp]; [contradiction|].
  now rewrite <- Hlen, transpose_rows_single.
Qed.

(** X10: on a single index, [_unravel_index] and the row-major flat
    index are inverse to each other.  A valid flat index gives
    coordinates that address an entry and ravel to that index, and the
    flat index of valid coordinates unravels to them.  For a scalar the
    result is the tuple of the coordinates; for an array of one entry
    (any shape that is not the empty one) it is a tuple of arrays, each
    holding the one coordinate. *)
Theorem unravel_index_single_round_trip (shp : list nat) (idx : Z) (dims : list nat) (c : list Z) :
  (0 <= idx < Z.of_nat (prod dims) ->
   exists c',
     coordinates_ok dims c' /\ ravel_Z dims c' = idx /\
     _unravel_index (mk_index_array [] [idx]) dims = Ok (Coordinates c') /\
     (shp <> [] ->
      _unravel_index (mk_index_array shp [idx]) dims
      = Ok (CoordinateArrays (map (fun v => [v]) c')))) /\
  (coordinates_ok dims c ->
   _unravel_index (mk_index_array [] [ravel_Z dims c]) dims = Ok (Coordinates c) /\
   (shp <> [] ->
    _unravel_index (mk_index_array shp [ravel_Z dims c]) dims
    = Ok (CoordinateArrays (map (fun v => [v]) c)))).
Proof.
  split.
  - intros H. destruct (np_unravel_index_valid dims H) as [c' [Hc' [_ [Hlen [Hok Hr]]]]].
    exists c'. split; [exact Hok|]. split; [exact Hr|].
    now apply unravel_index_single.
  - intros Hc. destruct (coordinates_ok_to_nat Hc) as [Hb Hback].
    pose proof (ravel_lt_prod Hb) as Hlt.
    assert (Hv : 0 <= ravel_Z dims c < Z.of_nat (prod dims)) by (unfold ravel_Z; lia).
    destruct (np_unravel_index_valid dims Hv) as [c' [Hc' [Heq [Hlen _]]]].
    assert (Hcc : c' = c).
    { rewrite Heq. unfold ravel_Z. rewrite Nat2Z.id, unravel_ravel by exact Hb. exact Hback. }
    clear Heq. subst c'. now apply unravel_index_single.
Qed.

Lemma unravel_rows_valid indices dims :
  Forall (fun idx => 0 <= idx < Z.of_nat (prod dims)) indices ->
  unravel_rows indices dims
  = Ok (map (fun idx => map Z.of_nat (unravel dims (Z.to_nat idx))) indices).
Proof.
  induction 1 as [|idx indices Hidx Hrest IH]; [reflexivity|].
  cbn [unravel_rows map].
  destruct (np_unravel_index_valid dims Hidx) as [c [Hc [-> _]]].
  rewrite Hc, IH. reflexivity.
Qed.

Lemma unravel_rows_invalid indices dims :
  ~ Forall (fun idx => 0 <= idx < Z.of_nat (prod dims)) indices ->
  unravel_rows indices dims = Err (LibraryValueError "Invalid index").
Proof.
  induction indices as [|idx indices IH]; intros H.
  - elim H. constructor.
  - cbn [unravel_rows].
    destruct (Z.leb_spec 0 idx), (Z.ltb_spec idx (Z.of_nat (prod dims)));
      try (rewrite np_unravel_index_invalid by lia; reflexivity).
    destruct (@np_unravel_index_valid idx dims ltac:(lia)) as [c [-> _]].
    cbn [rbind]. rewrite IH; [reflexivity|].
    intros Hall. apply H. constructor; [lia|exact Hall].
Qed.

(** X11: on a one-dimensional array of indices (not of size one) that
    are all valid, the result is one array per dimension, each as long
    as the array of indices, and the coordinates found at position [k]
    address an entry and ravel to index [k]. *)
Theorem unravel_index_arrays (n : nat) (flat : list Z) (dims : list nat) :
  length flat <> 1%nat ->
  Forall (fun idx => 0 <= idx < Z.of_nat (prod dims)) flat ->
  exists cs,
    _unravel_index (mk_index_array [n] flat) dims = Ok (CoordinateArrays cs) /\
    length cs = length dims /\
    (forall c, In c cs -> length c = length flat) /\
    forall k, (k < length flat)%nat ->
      coordinates_ok dims (map (fun c => nth k c 0) cs) /\
      ravel_Z dims (map (fun c => nth k c 0) cs) = nth k flat 0.
Proof.
  intros Hsize Hvalid. unfold _unravel_index. cbn [ia_flat ia_shape length].
  destruct (Nat.eqb_spec (length flat) 1); [contradiction|].
  cbn [Nat.eqb negb]. rewrite unravel_rows_valid by exact Hvalid. cbn [rbind].
  eexists; split; [reflexivity|].
  set (rows := map (fun idx => map Z.of_nat (unravel dims (Z.to_nat idx))) flat).
  unfold transpose_rows. split; [now rewrite length_map, length_seq|]. split.
  - intros c Hc. apply in_map_iff in Hc. destruct Hc as [d [<- _]].
    unfold rows. now rewrite !length_map.
  - intros k Hk. rewrite map_map.
    assert (Hrow : map (fun d => nth k (map (fun row => nth d row 0) rows) 0)
                       (seq 0 (length dims))
                   = map Z.of_nat (unravel dims (Z.to_nat (nth k flat 0)))).
    { set (row := map Z.of_nat (unravel dims (Z.to_nat (nth k flat 0)))).
      assert (Hnth : nth k rows [] = row).
      { unfold rows.
        exact (@nth_map_in _ _ (fun idx => map Z.of_nat (unravel dims (Z.to_nat idx)))
                           flat k 0 [] Hk). }
      assert (Hlen : length row = length dims)
        by (unfold row; now rewrite length_map, unravel_length).
      transitivity (map (fun d => nth d row 0) (seq 0 (length row)));
        [|apply map_nth_seq].
      rewrite Hlen. apply map_ext. intros d. rewrite <- Hnth.
      apply (@nth_map_in _ _ (fun r => nth d r 0) rows k [] 0).
      unfold rows. now rewrite length_map. }
    rewrite Hrow.
    rewrite Forall_forall in Hvalid.
    destruct (@np_unravel_index_valid (nth k flat 0) dims (Hvalid _ (nth_In _ _ Hk)))
      as [c [_ [-> [_ [Hok Hr]]]]].
    split; assumption.
Qed.

Lemma unravel_index_arrays_witness :
  exists cs,
    _unravel_index (mk_index_array [3%nat] [22; 41; 37]) [7; 6]%nat
    = Ok (CoordinateArrays cs) /\
    length cs = length [7; 6]%nat /\
    (forall c, In c cs -> length c = length [22; 41; 37]) /\
    forall k, (k < length [22; 41; 37])%nat ->
      coordinates_ok [7; 6]%nat (map (fun c => nth k c 0) cs) /\
      ravel_Z [7; 6]%nat (map (fun c => nth k c 0) cs) = nth k [22; 41; 37] 0.
Proof.
  apply (@unravel_index_arrays 3 [22; 41; 37] [7; 6]%nat).
  - simpl. lia.
  - repeat constructor; simpl; lia.
Defined.

(** X12: on indices that are not a single one, an array that is not
    one-dimensional raises [InvalidArgument]; a one-dimensional array
    unravels exactly when all its indices are valid, and raises the
    error of [np.unravel_index] otherwise. *)
Theorem unravel_index_failures (shp : list nat) (flat : list Z) (dims : list nat) :
  length flat <> 1%nat ->
  (length shp <> 1%nat ->
   _unravel_index (mk_index_array shp flat) dims
   = Err (InvalidArgument "indices should be one dimensional")) /\
  (length shp = 1%nat ->
   (is_ok (_unravel_index (mk_index_array shp flat) dims) = true
    <-> Forall (fun idx => 0 <= idx < Z.of_nat (prod dims)) flat) /\
   (is_ok (_unravel_index (mk_index_array shp flat) dims) = false ->
    _unravel_index (mk_index_array shp flat) dims
    = Err (LibraryValueError "Invalid index"))).
Proof.
  intros Hsize. unfold _unravel_index. cbn [ia_flat ia_shape].
  destruct (Nat.eqb_spec (length flat) 1); [contradiction|].
  split.
  - intros Hnd. destruct (Nat.eqb_spec (length shp) 1); [contradiction|]. reflexivity.
  - intros Hnd. destruct (Nat.eqb_spec (length shp) 1); [|contradiction]. cbn [negb].
    destruct (Forall_dec (fun idx => 0 <= idx < Z.of_nat (prod dims))) with (l := flat)
      as [Hall|Hnot].
    + intros idx. destruct (Z_le_dec 0 idx), (Z_lt_dec idx (Z.of_nat (prod dims)));
        [left|right|right|right]; lia.
    + rewrite unravel_rows_valid by exact Hall. cbn [rbind is_ok].
      split; [tauto|discriminate].
    + rewrite unravel_rows_invalid by exact Hnot. cbn [rbind is_ok].
      split; [split; [discriminate|contradiction]|reflexivity].
Qed.

Lemma unravel_index_failures_witness :
  (length [2%nat; 2%nat] <> 1%nat ->
   _unravel_index (mk_index_array [2%nat; 2%nat] [0; 1; 2; 3]) [7; 6]%nat
   = Err (InvalidArgument "indices should be one dimensional")) /\
  (length [2%nat; 2%nat] = 1%nat ->
   (is_ok (_unravel_index (mk_index_array [2%nat; 2%nat] [0; 1; 2; 3]) [7; 6]%nat) = true
    <-> Forall (fun idx => 0 <= idx < Z.of_nat (prod [7; 6]%nat)) [0; 1; 2; 3]) /\
   (is_ok (_unravel_index (mk_index_array [2%nat; 2%nat] [0; 1; 2; 3]) [7; 6]%nat) = false ->
    _unravel_index (mk_index_array [2%nat; 2%nat] [0; 1; 2; 3]) [7; 6]%nat
    = Err (LibraryValueError "Invalid index"))).
Proof.
  apply (@unravel_index_failures [2%nat; 2%nat] [0; 1; 2; 3] [7; 6]%nat).
  simpl. lia.
Defined.

Lemma unravel_index_single_round_trip_witness :
  (exists c',
     coordinates_ok [6; 7; 8; 9]%nat c' /\ ravel_Z [6; 7; 8; 9]%nat c' = 1621 /\
     _unravel_index (mk_index_array [] [1621]) [6; 7; 8; 9]%nat = Ok (Coordinates c') /\
     _unravel_index (mk_index_array [1%nat] [1621]) [6; 7; 8; 9]%nat
     = Ok (CoordinateArrays (map (fun v => [v]) c'))) /\
  _unravel_index (mk_index_array [] [ravel_Z [6; 7; 8; 9]%nat [3; 1; 4; 1]]) [6; 7; 8; 9]%nat
  = Ok (Coordinates [3; 1; 4; 1]) /\
  _unravel_index (mk_index_array [1%nat] [ravel_Z [6; 7; 8; 9]%nat [3; 1; 4; 1]])
                 [6; 7; 8; 9]%nat
  = Ok (CoordinateArrays [[3]; [1]; [4]; [1]]).
Proof.
  destruct (@unravel_index_single_round_trip [1%nat] 1621 [6; 7; 8; 9]%nat [3; 1; 4; 1])
    as [Hflat Hcoord].
  split.
  - destruct Hflat as [c' [Hok [Hr [Hs Ha]]]].
    + vm_compute. split; [discriminate|reflexivity].
    + exists c'. repeat split; [exact Hok|exact Hr|exact Hs|apply Ha; discriminate].
  - destruct Hcoord as [Hs Ha].
    + unfold coordinates_ok. repeat constructor; lia.
    + split; [exact Hs|apply Ha; discriminate].
Defined.

(** ** [Counter] *)

Example counter_example :
  most_common (Counter_init Z.eq_dec (Iterable [3; 1; 3; 2; 1; 3]))
  = [(3, 3); (1, 2); (2, 1)].
Proof. reflexivity. Qed.

Section CounterFacts.

Context {K : Type} (K_eq_dec : forall x y : K, {x = y} + {x <> y}).

Lemma count_of_add_count (c : list (K * Z)) x y n :
  count_of K_eq_dec (add_count K_eq_dec y n c) x
  = count_of K_eq_dec c x + (if K_eq_dec x y then n else 0).
Proof.
  induction c as [|[z m] c IH]; cbn [add_count count_of].
  - destruct (K_eq_dec x y); lia.
  - destruct (K_eq_dec y z) as [->|Hyz]; cbn [count_of].
    + destruct (K_eq_dec x z); lia.
    + destruct (K_eq_dec x z) as [->|Hxz].
      * destruct (K_eq_dec z y); [congruence|lia].
      * exact IH.
Qed.

Lemma add_count_keys (c : list (K * Z)) y n k :
  In k (map fst (add_count K_eq_dec y n c)) <-> k = y \/ In k (map fst c).
Proof.
  induction c as [|[z m] c IH]; cbn [add_count map fst In].
  - intuition.
  - destruct (K_eq_dec y z) as [->|Hyz]; cbn [map fst In]; [|rewrite IH]; intuition.
Qed.

Lemma add_count_keys_unique (c : list (K * Z)) y n :
  NoDup (map fst c) -> NoDup (map fst (add_count K_eq_dec y n c)).
Proof.
  induction c as [|[z m] c IH]; cbn [add_count map fst]; intros Hnd.
  - repeat constructor. intros [].
  - inversion Hnd as [|? ? Hnin Hnd']; subst.
    destruct (K_eq_dec y z) as [->|Hyz]; cbn [map fst]; constructor; auto.
    rewrite add_count_keys. intros [Heq|Hin]; [congruence|contradiction].
Qed.

Lemma update_keys_unique (c : list (K * Z)) arg :
  NoDup (map fst c) -> NoDup (map fst (update K_eq_dec c arg)).
Proof.
  destruct arg as [other|other]; cbn [update]; revert c;
    induction other as [|item other IH]; intros c Hnd; cbn [fold_left]; auto;
    apply IH, add_count_keys_unique, Hnd.
Qed.

Lemma update_iterable_count (c : list (K * Z)) l x :
  count_of K_eq_dec (update K_eq_dec c (Iterable l)) x
  = count_of K_eq_dec c x + Z.of_nat (count_occ K_eq_dec l x).
Proof.
  cbn [update]. revert c. induction l as [|y l IH]; intros c; cbn [fold_left count_occ].
  - lia.
  - rewrite IH, count_of_add_count.
    destruct (K_eq_dec x y), (K_eq_dec y x); try congruence; lia.
Qed.

Lemma count_of_missing (c : list (K * Z)) x :
  ~ In x (map fst c) -> count_of K_eq_dec c x = 0.
Proof.
  induction c as [|[z m] c IH]; cbn [count_of map fst In]; intros H; auto.
  destruct (K_eq_dec x z) as [->|Hne]; [elim H; now left|].
  apply IH. intros Hin. apply H. now right.
Qed.

Lemma update_counter_count (c other : list (K * Z)) x :
  NoDup (map fst other) ->
  count_of K_eq_dec (update K_eq_dec c (OtherCounter other)) x
  = count_of K_eq_dec c x + count_of K_eq_dec other x.
Proof.
  cbn [update]. revert c.
  induction other as [|[y m] other IH]; intros c Hnd; cbn [fold_left count_of fst snd map].
  - lia.
  - cbn [map fst] in Hnd. inversion Hnd as [|? ? Hnin Hnd']; subst.
    rewrite IH by exact Hnd'. rewrite count_of_add_count.
    destruct (K_eq_dec x y) as [->|Hne]; [|lia].
    rewrite (@count_of_missing other y Hnin). lia.
Qed.

(** X13: counting an iterable.  After [update] with an iterable every
    count has grown by the number of times the key occurs in it, and the
    dict still holds every key once; so [Counter(iterable)] maps each key
    to its number of occurrences, and a key that does not occur to
    zero. *)
Theorem counter_update_iterable (self : list (K * Z)) (other : list K) (x : K) :
  NoDup (map fst self) ->
  count_of K_eq_dec (update K_eq_dec self (Iterable other)) x
  = count_of K_eq_dec self x + Z.of_nat (count_occ K_eq_dec other x) /\
  NoDup (map fst (update K_eq_dec self (Iterable other))) /\
  count_of K_eq_dec (Counter_init K_eq_dec (Iterable other)) x
  = Z.of_nat (count_occ K_eq_dec other x).
Proof.
  intros Hnd. split; [apply update_iterable_count|].
  split; [now apply update_keys_unique|].
  unfold Counter_init. now rewrite update_iterable_count.
Qed.

(** X14: adding a [Counter].  After [update] with another [Counter] the
    count of every key is the sum of its two counts, and the dict still
    holds every key once. *)
Theorem counter_update_counter (self other : list (K * Z)) (x : K) :
  NoDup (map fst self) ->
  NoDup (map fst other) ->
  count_of K_eq_dec (update K_eq_dec self (OtherCounter other)) x
  = count_of K_eq_dec self x + count_of K_eq_dec other x /\
  NoDup (map fst (update K_eq_dec self (OtherCounter other))).
Proof.
  intros Hself Hother. split; [now apply update_counter_count|].
  now apply update_keys_unique.
Qed.

Lemma insert_item_perm (item : K * Z) l : Permutation (insert_item item l) (item :: l).
Proof.
  induction l as [|item' l IH]; cbn [insert_item]; auto.
  destruct (snd item' <=? snd item); auto.
  rewrite IH. apply perm_swap.
Qed.

Lemma insert_item_sorted (item : K * Z) l :
  StronglySorted count_ge l -> StronglySorted count_ge (insert_item item l).
Proof.
  induction 1 as [|item' l Hs IH Hall]; cbn [insert_item].
  - repeat constructor.
  - destruct (Z.leb_spec (snd item') (snd item)).
    + constructor; [constructor; assumption|].
      constructor; [exact H|].
      eapply Forall_impl; [|exact Hall]. unfold count_ge. intros q Hq. lia.
    + constructor; [exact IH|].
      apply Forall_forall. intros q Hq.
      apply (Permutation_in _ (insert_item_perm item l)) in Hq.
      destruct Hq as [<-|Hq]; [unfold count_ge; lia|].
      rewrite Forall_forall in Hall. now apply Hall.
Qed.

Lemma insert_item_stable (item : K * Z) l n :
  StronglySorted count_ge l ->
  filter (fun p => snd p =? n) (insert_item item l)
  = filter (fun p => snd p =? n) (item :: l).
Proof.
  induction 1 as [|item' l Hs IH Hall]; cbn [insert_item]; [reflexivity|].
  destruct (Z.leb_spec (snd item') (snd item)); [reflexivity|].
  cbn [filter] in *. rewrite IH.
  destruct (Z.eqb_spec (snd item) n), (Z.eqb_spec (snd item') n); try reflexivity.
  lia.
Qed.

(** X15: [most_common] lists every item of the dict once, by decreasing
    count, and items of the same count in the order in which the dict
    iterates them. *)
Theorem most_common_sorted_stable (self : list (K * Z)) :
  Permutation (most_common self) self /\
  StronglySorted count_ge (most_common self) /\
  forall n, filter (fun p => snd p =? n) (most_common self)
            = filter (fun p => snd p =? n) self.
Proof.
  induction self as [|item self [IHp [IHs IHf]]]; cbn [most_common fold_right].
  - repeat split; constructor.
  - fold (most_common self). repeat split.
    + rewrite insert_item_perm. now constructor.
    + now apply insert_item_sorted.
    + intros n. rewrite insert_item_stable by exact IHs.
      cbn [filter]. now rewrite IHf.
Qed.

End CounterFacts.

Lemma counter_update_iterable_witness :
  count_of Z.eq_dec (update Z.eq_dec [(3, 1)] (Iterable [3; 1; 3])) 3
  = count_of Z.eq_dec [(3, 1)] 3 + Z.of_nat (count_occ Z.eq_dec [3; 1; 3] 3) /\
  NoDup (map fst (update Z.eq_dec [(3, 1)] (Iterable [3; 1; 3]))) /\
  count_of Z.eq_dec (Counter_init Z.eq_dec (Iterable [3; 1; 3])) 3
  = Z.of_nat (count_occ Z.eq_dec [3; 1; 3] 3).
Proof.
  apply (@counter_update_iterable Z Z.eq_dec [(3, 1)] [3; 1; 3] 3).
  repeat constructor. intros [].
Defined.

Lemma counter_update_counter_witness :
  count_of Z.eq_dec (update Z.eq_dec [(3, 1)] (OtherCounter [(1, 2); (3, 5)])) 3
  = count_of Z.eq_dec [(3, 1)] 3 + count_of Z.eq_dec [(1, 2); (3, 5)] 3 /\
  NoDup (map fst (update Z.eq_dec [(3, 1)] (OtherCounter [(1, 2); (3, 5)]))).
Proof.
  apply (@counter_update_counter Z Z.eq_dec [(3, 1)] [(1, 2); (3, 5)] 3).
  - repeat constructor. intros [].
  - repeat constructor; simpl; intuition lia.
Defined.

(** ** [_firwin2]: validation and the tweak of [freq] *)

Lemma Qc_ltb_nonneg (p q : Qc) : Qc_ltb (q - p)%Qc 0%Qc = false -> (p <= q)%Qc.
Proof.
  intros H. apply Qc_ltb_false in H. now apply Qcle_minus_iff.
Qed.

Lemma existsb_false_nth {A} (f : A -> bool) l d i :
  existsb f l = false -> (i < length l)%nat -> f (nth i l d) = false.
Proof. intros H Hi. now apply existsb_nth. Qed.

Lemma diff_scan_nondecreasing fr :
  existsb (fun v => Qc_ltb v 0%Qc) (np_diff fr) = false ->
  forall i, (i + 1 < length fr)%nat -> (nth i fr 0 <= nth (i + 1) fr 0)%Qc.
Proof.
  intros Hd i Hi.
  pose proof (@existsb_false_nth _ (fun v => Qc_ltb v 0%Qc) (np_diff fr) 0%Qc i Hd) as Hi'.
  rewrite np_diff_length in Hi'. specialize (Hi' ltac:(lia)).
  cbv beta in Hi'. rewrite nth_np_diff in Hi' by lia.
  replace (i + 1)%nat with (S i) by lia. now apply Qc_ltb_nonneg.
Qed.

Lemma diff_scan_twice fr :
  existsb (fun v => Qc_eqb v 0%Qc)
          (map2 Qcplus (removelast (np_diff fr)) (tl (np_diff fr))) = false ->
  forall i, (i + 2 < length fr)%nat -> nth i fr 0%Qc <> nth (i + 2) fr 0%Qc.
Proof.
  intros Hd2 i Hi Heq.
  pose proof (@existsb_false_nth _ (fun v => Qc_eqb v 0%Qc) _ 0%Qc i Hd2) as Hi'.
  rewrite map2_length, length_removelast, length_tl, np_diff_length in Hi'.
  specialize (Hi' ltac:(lia)). cbv beta in Hi'.
  rewrite (@nth_map2 _ _ _ _ _ _ i 0%Qc 0%Qc) in Hi'
    by (rewrite ?length_removelast, ?length_tl, np_diff_length; lia).
  rewrite nth_removelast, nth_tl, !nth_np_diff in Hi'
    by (rewrite ?np_diff_length; lia).
  apply Qc_eqb_false in Hi'. apply Hi'.
  replace (S (S i)) with (i + 2)%nat by lia. rewrite <- Heq. ring.
Qed.

(** X16: the validation is exact.  When the call returns coefficients,
    [freq] and [gain] have the same length, [numtaps] is below a given
    [nfreqs], [freq] starts at 0, ends at [nyq], never decreases and has
    no value three times in a row, and an even [numtaps] comes with a
    zero gain at the Nyquist rate. *)
Theorem firwin2_returns_only_on_valid_input `{FirBackend}
        (numtaps : Z) (freq gain : list Qc) (nfreqs : option Z)
        (window : option window_spec) (nyq : Qc) (out : list Qc) :
  snd (_firwin2 numtaps freq gain nfreqs window nyq) = Ok out ->
  length freq = length gain /\
  (forall n, nfreqs = Some n -> numtaps < n) /\
  hd_error freq = Some 0%Qc /\
  last freq 0%Qc = nyq /\
  (forall i, (i + 1 < length freq)%nat -> (nth i freq 0 <= nth (i + 1) freq 0)%Qc) /\
  (forall i, (i + 2 < length freq)%nat -> nth i freq 0%Qc <> nth (i + 2) freq 0%Qc) /\
  (numtaps mod 2 = 0 -> last gain 0%Qc = 0%Qc).
Proof.
  unfold _firwin2.
  destruct (Nat.eqb_spec (length freq) (length gain)) as [Hlen|]; cbn [negb];
    [|discriminate].
  destruct (match nfreqs with Some n => n <=? numtaps | None => false end) eqn:Hnf;
    [discriminate|].
  destruct freq as [|f0 freq']; [discriminate|].
  destruct (Qc_eqb f0 0%Qc) eqn:Hf0; cbn [negb orb]; [|discriminate].
  destruct (Qc_eqb (last (f0 :: freq') 0%Qc) nyq) eqn:Hnyq; cbn [negb]; [|discriminate].
  destruct (existsb _ (np_diff (f0 :: freq'))) eqn:Hd; [discriminate|].
  destruct (existsb _ (map2 _ _ _)) eqn:Hd2; [discriminate|].
  destruct ((numtaps mod 2 =? 0) && negb (Qc_eqb (last gain 0%Qc) 0%Qc)) eqn:Hpar;
    [discriminate|].
  intros _. apply Qc_eqb_true in Hf0, Hnyq. subst f0.
  split; [exact Hlen|]. split.
  { intros n ->. now apply Z.leb_gt. }
  split; [reflexivity|]. split; [exact Hnyq|].
  split; [now apply diff_scan_nondecreasing|].
  split; [now apply diff_scan_twice|].
  intros Hev. apply Z.eqb_eq in Hev. rewrite Hev in Hpar. cbn [andb] in Hpar.
  apply negb_false_iff in Hpar. now apply Qc_eqb_true.
Qed.

Lemma firwin2_returns_only_on_valid_input_witness :
  let freq := [0%Qc; Q2Qc (1 # 2); 1%Qc] in
  let gain := [1%Qc; 1%Qc; 0%Qc] in
  length freq = length gain /\
  (forall n, @None Z = Some n -> 4 < n) /\
  hd_error freq = Some 0%Qc /\
  last freq 0%Qc = 1%Qc /\
  (forall i, (i + 1 < length freq)%nat -> (nth i freq 0 <= nth (i + 1) freq 0)%Qc) /\
  (forall i, (i + 2 < length freq)%nat -> nth i freq 0%Qc <> nth (i + 2) freq 0%Qc) /\
  (4 mod 2 = 0 -> last gain 0%Qc = 0%Qc).
Proof.
  intros freq gain.
  apply (@firwin2_returns_only_on_valid_input reference_backend 4 freq gain None
           (Some tt) 1%Qc (repeat 0%Qc 4)).
  vm_compute. reflexivity.
Defined.

Lemma tweak_step_length freq k : length (tweak_step freq k) = length freq.
Proof.
  unfold tweak_step.
  destruct ((k <? length freq - 1)%nat && _); [|reflexivity].
  now rewrite !list_set_length.
Qed.

Lemma tweak_length freq : length (tweak freq) = length freq.
Proof.
  unfold tweak. generalize (seq 0 (length freq)) as ks. revert freq.
  intros freq ks. revert freq. induction ks as [|k ks IH]; intros freq; [reflexivity|].
  cbn [fold_left]. now rewrite IH, tweak_step_length.
Qed.

(** X17: the caller's [freq] is as it was after every call on a [freq]
    without two equal neighbours, whatever the call returns or raises. *)
Theorem firwin2_keeps_distinct_freq `{FirBackend}
        (numtaps : Z) (freq gain : list Qc) (nfreqs : option Z)
        (window : option window_spec) (nyq : Qc) :
  (forall i, (i + 1 < length freq)%nat -> nth i freq 0%Qc <> nth (i + 1) freq 0%Qc) ->
  fst (_firwin2 numtaps freq gain nfreqs window nyq) = freq.
Proof.
  intros Hd. unfold _firwin2.
  destruct (negb _); [reflexivity|].
  destruct (match nfreqs with Some n => n <=? numtaps | None => false end); [reflexivity|].
  destruct freq as [|f0 freq']; [reflexivity|].
  destruct (negb _ || negb _); [reflexivity|].
  destruct (existsb _ (np_diff _)); [reflexivity|].
  destruct (existsb _ (map2 _ _ _)); [reflexivity|].
  destruct ((numtaps mod 2 =? 0) && _); [reflexivity|].
  destruct (match nfreqs with Some n => Ok n | None => default_nfreqs numtaps end);
    [|reflexivity].
  cbn [fst]. now apply tweak_distinct.
Qed.

Lemma firwin2_keeps_distinct_freq_witness :
  fst (_firwin2 3 [0%Qc; Q2Qc (1 # 2); 1%Qc] [1%Qc; 1%Qc; 0%Qc] None (Some tt) 1%Qc)
  = [0%Qc; Q2Qc (1 # 2); 1%Qc].
Proof.
  apply (@firwin2_keeps_distinct_freq reference_backend).
  intros [|[|i]] Hi; simpl in Hi; try lia;
    intro Hq; apply (f_equal this) in Hq; vm_compute in Hq; discriminate.
Defined.


Lemma tweak_step_invariant orig k f :
  tweak_invariant orig k f -> tweak_invariant orig (S k) (tweak_step f k).
Proof.
  intros [Hlen Hinv]. split; [now rewrite tweak_step_length|].
  unfold tweak_step.
  destruct (Nat.ltb_spec k (length f - 1)) as [Hk|Hk]; cbn [andb].
  - destruct (Qc_eqb (nth k f 0%Qc) (nth (k + 1) f 0%Qc)) eqn:Heq.
    + intros i.
      rewrite (nth_list_set_neq (k:=k) (j:=k + 1)) by lia.
      destruct (Nat.eq_dec i (k + 1)) as [->|Hne1].
      * rewrite nth_list_set_eq by (rewrite list_set_length; lia).
        destruct (Hinv (k + 1)%nat) as [_ [_ Hgt]].
        repeat split; intros; try lia. right. now rewrite Hgt by lia.
      * rewrite nth_list_set_neq by lia.
        destruct (Nat.eq_dec i k) as [->|Hne].
        -- rewrite nth_list_set_eq by lia.
           destruct (Hinv k) as [_ [Hat _]].
           repeat split; intros; try lia.
           destruct (Hat eq_refl) as [E|E]; rewrite E.
           ++ right. right. reflexivity.
           ++ left. ring.
        -- rewrite nth_list_set_neq by lia.
           destruct (Hinv i) as [Hlt [_ Hgt]].
           repeat split; intros; try lia; [apply Hlt|apply Hgt]; lia.
    + intros i. destruct (Hinv i) as [Hlt [Hat Hgt]].
      repeat split; intros.
      * destruct (Nat.eq_dec i k) as [E|E]; [|apply Hlt; lia].
        destruct (Hat E) as [E'|E']; [now left|right; now left].
      * left. apply Hgt. lia.
      * apply Hgt. lia.
  - intros i. destruct (Hinv i) as [Hlt [Hat Hgt]].
    repeat split; intros.
    + destruct (Nat.eq_dec i k) as [E|E]; [|apply Hlt; lia].
      destruct (Hat E) as [E'|E']; [now left|right; now left].
    + left. apply Hgt. lia.
    + apply Hgt. lia.
Qed.

Lemma tweak_fold_invariant orig m k f :
  tweak_invariant orig k f ->
  tweak_invariant orig (k + m) (fold_left tweak_step (seq k m) f).
Proof.
  revert k f; induction m as [|m IH]; intros k f Hinv; cbn [seq fold_left].
  - now rewrite Nat.add_0_r.
  - replace (k + S m)%nat with (S k + m)%nat by lia.
    apply IH, tweak_step_invariant, Hinv.
Qed.

Lemma tweak_within_eps freq i :
  length (tweak freq) = length freq /\
  within_eps (nth i (tweak freq) 0%Qc) (nth i freq 0%Qc).
Proof.
  assert (H0 : tweak_invariant freq 0 freq).
  { split; [reflexivity|]. intros j. repeat split; intros; try lia; auto. }
  destruct (@tweak_fold_invariant freq (length freq) 0 freq H0) as [Hlen Hinv].
  fold (tweak freq) in Hlen, Hinv. cbn [Nat.add] in Hinv.
  split; [exact Hlen|].
  destruct (Nat.lt_ge_cases i (length freq)) as [Hi|Hi].
  - now apply Hinv.
  - left. rewrite !nth_overflow by lia. reflexivity.
Qed.

Lemma eps_multiple_succ (k : Z) :
  (Q2Qc (inject_Z k) * eps + eps = Q2Qc (inject_Z (k + 1)) * eps)%Qc.
Proof.
  assert (E : Q2Qc (inject_Z (k + 1)) = (Q2Qc (inject_Z k) + 1)%Qc).
  { apply Qc_is_canon. cbn [this Q2Qc Qcplus]. rewrite !Qred_correct.
    rewrite inject_Z_plus. reflexivity. }
  rewrite E. ring.
Qed.

Lemma eps_multiple_pred (k : Z) :
  (Q2Qc (inject_Z k) * eps - eps = Q2Qc (inject_Z (k - 1)) * eps)%Qc.
Proof.
  pose proof (eps_multiple_succ (k - 1)) as E.
  replace (k - 1 + 1) with k in E by lia. rewrite <- E. ring.
Qed.

(** An entry that moves by at most [eps] from a multiple of [eps] below
    2 in magnitude is a multiple of [eps] that binary64 holds. *)
Lemma within_eps_multiple (after before : Qc) :
  within_eps after before ->
  eps_multiple (2 ^ 53 - 1) before -> eps_multiple (2 ^ 53) after.
Proof.
  intros Hw [k [Hk ->]]. destruct Hw as [-> | [-> | ->]].
  - exists k. split; [lia|reflexivity].
  - exists (k + 1). split; [lia|apply eps_multiple_succ].
  - exists (k - 1). split; [lia|apply eps_multiple_pred].
Qed.

(** X18: on a [freq] whose entries are multiples of [eps] below 2 in
    magnitude (where binary64 takes the differences and sums of the loop
    without rounding), whatever the call does: the caller's [freq] keeps
    its length, each of its entries is afterwards what it was, or that
    moved by [eps] up or down, and all of them are again multiples of
    [eps] that binary64 holds exactly. *)
Theorem firwin2_moves_freq_by_at_most_eps `{FirBackend}
        (numtaps : Z) (freq gain : list Qc) (nfreqs : option Z)
        (window : option window_spec) (nyq : Qc) (i : nat) :
  Forall (eps_multiple (2 ^ 53 - 1)) freq ->
  let freq' := fst (_firwin2 numtaps freq gain nfreqs window nyq) in
  length freq' = length freq /\
  within_eps (nth i freq' 0%Qc) (nth i freq 0%Qc) /\
  Forall (eps_multiple (2 ^ 53)) freq'.
Proof.
  intros Hgrid. cbv zeta.
  assert (Hgoal : forall freq',
            (forall j, length freq' = length freq /\
                       within_eps (nth j freq' 0%Qc) (nth j freq 0%Qc)) ->
            length freq' = length freq /\
            within_eps (nth i freq' 0%Qc) (nth i freq 0%Qc) /\
            Forall (eps_multiple (2 ^ 53)) freq').
  { intros freq' Hall. split; [apply (Hall i)|]. split; [apply (Hall i)|].
    apply Forall_forall. intros v Hin.
    destruct (In_nth _ _ 0%Qc Hin) as [j [Hj <-]].
    apply within_eps_multiple with (before := nth j freq 0%Qc); [apply (Hall j)|].
    rewrite Forall_forall in Hgrid. apply Hgrid, nth_In.
    destruct (Hall j) as [Hlen _]. lia. }
  apply Hgoal. clear Hgoal. intros j. clear i.
  assert (Hcases : fst (_firwin2 numtaps freq gain nfreqs window nyq) = freq \/
                   fst (_firwin2 numtaps freq gain nfreqs window nyq) = tweak freq).
  { unfold _firwin2.
    destruct (negb _); [now left|].
    destruct (match nfreqs with Some n => n <=? numtaps | None => false end); [now left|].
    destruct freq as [|f0 freq']; [now left|].
    destruct (negb _ || negb _); [now left|].
    destruct (existsb _ (np_diff _)); [now left|].
    destruct (existsb _ (map2 _ _ _)); [now left|].
    destruct ((numtaps mod 2 =? 0) && _); [now left|].
    destruct (match nfreqs with Some n => Ok n | None => default_nfreqs numtaps end);
      [now right|now left]. }
  destruct Hcases as [-> | ->].
  - split; [reflexivity|now left].
  - apply tweak_within_eps.
Qed.

Lemma firwin2_moves_freq_by_at_most_eps_witness :
  let freq := [0%Qc; Q2Qc (1 # 2); Q2Qc (1 # 2); 1%Qc] in
  let freq' := fst (_firwin2 3 freq [1%Qc; 1%Qc; 0%Qc; 0%Qc] None (Some tt) 1%Qc) in
  length freq' = length freq /\
  within_eps (nth 1 freq' 0%Qc) (nth 1 freq 0%Qc) /\
  Forall (eps_multiple (2 ^ 53)) freq'.
Proof.
  intros freq.
  apply (@firwin2_moves_freq_by_at_most_eps reference_backend 3 freq
           [1%Qc; 1%Qc; 0%Qc; 0%Qc] None (Some tt) 1%Qc 1%nat).
  unfold freq. repeat constructor.
  - exists 0. split; [vm_compute; discriminate|apply Qc_is_canon; vm_compute; reflexivity].
  - exists (2 ^ 51). split; [vm_compute; discriminate|apply Qc_is_canon; vm_compute; reflexivity].
  - exists (2 ^ 51). split; [vm_compute; discriminate|apply Qc_is_canon; vm_compute; reflexivity].
  - exists (2 ^ 52). split; [vm_compute; discriminate|apply Qc_is_canon; vm_compute; reflexivity].
Defined.

(** ** [_filtfilt]: validation, lanes, the identity filter *)

(** X19: with a valid padtype, an axis that [x] does not have raises
    [IndexError], and an extent along the axis that is not above the
    effective pad length raises [InsufficientDataLength] reporting that
    pad length; both before any call to the padding, initial-condition
    or filter routines. *)
Theorem filtfilt_fails_before_any_call (b a : list Qc) (x : ndarray) (axis : Z)
        (padtype : option string) (padlen : option Z) :
  padtype_valid padtype = true ->
  (norm_axis (ndim x) axis = Err IndexError ->
   _filtfilt b a x axis padtype padlen = ([], Err IndexError)) /\
  (forall ax,
     norm_axis (ndim x) axis = Ok ax ->
     Z.of_nat (axis_len x ax) <= effective_edge b a padtype padlen ->
     _filtfilt b a x axis padtype padlen
     = ([], Err (InsufficientDataLength (effective_edge b a padtype padlen)))).
Proof.
  intros Hvalid. unfold _filtfilt. rewrite Hvalid. cbn [negb]. split.
  - intros ->. reflexivity.
  - intros ax -> Hle. cbn [lift bind].
    destruct (Z.leb_spec (Z.of_nat (axis_len x ax)) (effective_edge b a padtype padlen));
      [reflexivity|lia].
Qed.

Lemma filtfilt_fails_before_any_call_witness :
  (norm_axis (ndim ones7) 0 = Err IndexError ->
   _filtfilt one_pole_b one_pole_a ones7 0 (Some "even"%string) (Some 9)
   = ([], Err IndexError)) /\
  (forall ax,
     norm_axis (ndim ones7) 0 = Ok ax ->
     Z.of_nat (axis_len ones7 ax)
     <= effective_edge one_pole_b one_pole_a (Some "even"%string) (Some 9) ->
     _filtfilt one_pole_b one_pole_a ones7 0 (Some "even"%string) (Some 9)
     = ([], Err (InsufficientDataLength
                   (effective_edge one_pole_b one_pole_a (Some "even"%string) (Some 9))))).
Proof.
  apply (@filtfilt_fails_before_any_call one_pole_b one_pole_a ones7 0
           (Some "even"%string) (Some 9)).
  reflexivity.
Defined.

Lemma lane_ext x x' ax idx :
  shape x' = shape x ->
  (forall i, (i < axis_len x ax)%nat ->
     get x' (list_set ax i idx) = get x (list_set ax i idx)) ->
  lane x' ax idx = lane x ax idx.
Proof.
  intros Hs Hg. unfold lane, axis_len. rewrite Hs.
  apply map_ext_in. intros i Hi. apply in_seq in Hi. apply Hg.
  unfold axis_len. lia.
Qed.

(** X20: the filter works lane by lane.  Two signals of the same shape
    that agree along the lane through a position give results that agree
    at that position, whatever they hold elsewhere. *)
Theorem filtfilt_lane_by_lane (b a : list Qc) (x x' : ndarray) (axis : Z)
        (padtype : option string) (padlen : option Z) (ax : nat) (idx : list nat) :
  accepted_filter b a ->
  padtype_valid padtype = true ->
  norm_axis (ndim x) axis = Ok ax ->
  0 <= effective_edge b a padtype padlen < Z.of_nat (axis_len x ax) ->
  shape x' = shape x ->
  in_bounds (shape x) idx ->
  (forall i, (i < axis_len x ax)%nat ->
     get x' (list_set ax i idx) = get x (list_set ax i idx)) ->
  exists y y',
    snd (_filtfilt b a x axis padtype padlen) = Ok y /\
    snd (_filtfilt b a x' axis padtype padlen) = Ok y' /\
    get y' idx = get y idx.
Proof.
  intros Hacc Hvalid Hax He Hs Hin Hagree.
  pose proof (norm_axis_lt _ _ Hax) as Haxlt.
  assert (Hax' : norm_axis (ndim x') axis = Ok ax) by (unfold ndim; now rewrite Hs).
  assert (He' : 0 <= effective_edge b a padtype padlen < Z.of_nat (axis_len x' ax))
    by (unfold axis_len; now rewrite Hs).
  destruct (@filtfilt_lanes b a x axis padtype padlen ax Hacc Hvalid Hax He)
    as [zi [y [Hzi [Hy [Hys Hl]]]]].
  destruct (@filtfilt_lanes b a x' axis padtype padlen ax Hacc Hvalid Hax' He')
    as [zi' [y' [Hzi' [Hy' [Hys' Hl']]]]].
  rewrite Hzi in Hzi'. injection Hzi' as <-.
  exists y, y'. split; [exact Hy|]. split; [exact Hy'|].
  pose proof (@in_bounds_off_axis ax _ _ Hin) as Hok.
  destruct (in_bounds_nth Hin) as [_ Hk].
  assert (Hj : (nth ax idx O < axis_len y ax)%nat)
    by (unfold axis_len; rewrite Hys; apply Hk; exact Haxlt).
  assert (Hj' : (nth ax idx O < axis_len y' ax)%nat)
    by (unfold axis_len; rewrite Hys', Hs; apply Hk; exact Haxlt).
  rewrite (@get_from_lane y ax idx Hj), (@get_from_lane y' ax idx Hj').
  rewrite Hl by exact Hok. rewrite Hl' by (rewrite Hs; exact Hok).
  now rewrite (@lane_ext x x' ax idx Hs Hagree).
Qed.

Lemma filtfilt_lane_by_lane_witness :
  exists y y',
    snd (_filtfilt one_pole_b one_pole_a (two_rows (fun _ => 1%Qc) ramp) (-1)
                   (Some "odd"%string) None) = Ok y /\
    snd (_filtfilt one_pole_b one_pole_a (two_rows (fun _ => 1%Qc) (fun _ => 0%Qc)) (-1)
                   (Some "odd"%string) None) = Ok y' /\
    get y' [0%nat; 3%nat] = get y [0%nat; 3%nat].
Proof.
  apply (@filtfilt_lane_by_lane one_pole_b one_pole_a
           (two_rows (fun _ => 1%Qc) ramp) (two_rows (fun _ => 1%Qc) (fun _ => 0%Qc)) (-1)
           (Some "odd"%string) None 1%nat [0%nat; 3%nat]).
  - exact one_pole_accepted.
  - reflexivity.
  - reflexivity.
  - vm_compute. split; [discriminate|reflexivity].
  - reflexivity.
  - unfold in_bounds. simpl. repeat constructor.
  - intros i _. reflexivity.
Defined.

Lemma suffix_sums_zeros m : suffix_sums (repeat 0%Qc m) = repeat 0%Qc m.
Proof.
  induction m as [|m IH]; [reflexivity|].
  cbn [repeat suffix_sums]. rewrite IH. f_equal.
  destruct m; cbn [repeat hd]; ring.
Qed.

Lemma identity_steady_state t :
  map2 (fun bj aj => bj - aj * 1)%Qc t t = repeat 0%Qc (length t).
Proof.
  induction t as [|v t IH]; [reflexivity|].
  cbn [map2 length repeat]. rewrite IH. f_equal. ring.
Qed.

Lemma scale_zeros (s : Qc) m : map (fun z => z * s)%Qc (repeat 0%Qc m) = repeat 0%Qc m.
Proof.
  rewrite map_repeat. f_equal. ring.
Qed.

Lemma identity_state_shift t (x : Qc) :
  map2 Qcplus (map2 (fun bi ai => bi * x - ai * x)%Qc t t)
              (tl (repeat 0%Qc (length t)) ++ [0%Qc])
  = repeat 0%Qc (length t).
Proof.
  induction t as [|v t IH]; [reflexivity|].
  cbn [length repeat tl map2].
  destruct t as [|w t]; [cbn; f_equal; ring|].
  cbn [length repeat tl app map2] in *. rewrite IH. f_equal. ring.
Qed.

(** With the numerator equal to the denominator every sample comes out
    as it went in and the delays stay at zero. *)
Lemma lfilter1_identity a' xs :
  hd 0%Qc a' = 1%Qc ->
  lfilter1 a' a' (repeat 0%Qc (length (tl a'))) xs = (xs, repeat 0%Qc (length (tl a'))).
Proof.
  intros Hhd. induction xs as [|x xs IH]; [reflexivity|].
  cbn [lfilter1]. unfold lfilter_step.
  assert (Hy : (hd 0 a' * x + hd 0 (repeat 0%Qc (length (tl a'))))%Qc = x).
  { rewrite Hhd. destruct (length (tl a')); cbn [repeat hd]; ring. }
  rewrite Hy, identity_state_shift, IH. reflexivity.
Qed.

Lemma slice_trim_ext1 padtype edge l :
  padtype <> None ->
  0 < edge < Z.of_nat (length l) ->
  py_slice (ext1 padtype edge l) (Some edge) (Some (- edge)) = l.
Proof.
  intros Hpt He.
  assert (Hle : (Z.to_nat edge <= length l - 1)%nat) by lia.
  assert (Hshape : exists L R,
             ext1 padtype edge l = L ++ l ++ R /\
             length L = Z.to_nat edge /\ length R = Z.to_nat edge).
  { unfold ext1. destruct padtype as [kind|]; [|contradiction].
    destruct (Z.ltb_spec 0 edge); [|lia].
    destruct (String.eqb kind "even"); [|destruct (String.eqb kind "odd")].
    - exists (left_ext l (Z.to_nat edge)), (right_ext l (Z.to_nat edge)).
      now rewrite left_ext_length, right_ext_length.
    - eexists _, _. unfold odd_ext1. split; [reflexivity|].
      now rewrite !length_map, left_ext_length, right_ext_length.
    - eexists _, _. unfold const_ext1. split; [reflexivity|].
      now rewrite !repeat_length. }
  destruct Hshape as [L [R [-> [HL HR]]]].
  unfold py_slice. rewrite !length_app, HL, HR.
  replace (Z.to_nat edge + (length l + Z.to_nat edge))%nat
    with (length l + 2 * Z.to_nat edge)%nat by lia.
  rewrite slice_bounds_trim by lia.
  rewrite skipn_app, <- HL, skipn_all, Nat.sub_diag. cbn [app skipn].
  rewrite firstn_app, firstn_all, Nat.sub_diag. cbn [firstn]. apply app_nil_r.
Qed.

Lemma filtfilt1_identity a padtype edge zi l :
  accepted_filter a a ->
  lfilter_zi a a = Ok zi ->
  (padtype = None -> edge = 0) ->
  0 <= edge < Z.of_nat (length l) ->
  _filtfilt1 a a padtype edge zi l = l.
Proof.
  intros Hacc Hzi Hnone He.
  destruct (lfilter_zi_accepted Hacc) as [zi' [Hzi' [_ Heq]]].
  rewrite Hzi in Hzi'. injection Hzi' as <-.
  destruct Hacc as [Ha0 [Hn Hsum]].
  unfold _filtfilt1. cbv zeta.
  set (N := Nat.max (length a) (length a)) in *.
  set (a' := normalize N (hd 0%Qc a) a) in *.
  assert (Hhd : hd 0%Qc a' = 1%Qc) by now apply normalize_hd_one.
  assert (Hsum' : Qc_sum a' <> 0%Qc).
  { unfold a'. rewrite Qc_sum_normalize by exact Ha0. now apply Qc_div_nonzero. }
  assert (Hone : (Qc_sum a' / Qc_sum a')%Qc = 1%Qc) by (field; exact Hsum').
  rewrite Hone, identity_steady_state, suffix_sums_zeros in Heq. subst zi.
  rewrite !scale_zeros, lfilter1_identity by exact Hhd. cbn [fst].
  rewrite lfilter1_identity by exact Hhd. cbn [fst]. rewrite rev_involutive.
  destruct (Z.ltb_spec 0 edge) as [Hpos|Hzero].
  - apply slice_trim_ext1; [|lia]. intros Hpt. specialize (Hnone Hpt). lia.
  - unfold ext1. destruct padtype; [|reflexivity].
    destruct (Z.ltb_spec 0 edge); [lia|reflexivity].
Qed.

(** X21: a filter whose numerator is its denominator is the identity:
    for every accepted [a], [_filtfilt(a, a, x)] returns the samples of
    [x], with every padtype and every permitted pad length. *)
Theorem filtfilt_identity_filter (a : list Qc) (x : ndarray) (axis : Z)
        (padtype : option string) (padlen : option Z) (ax : nat) :
  accepted_filter a a ->
  padtype_valid padtype = true ->
  norm_axis (ndim x) axis = Ok ax ->
  0 <= effective_edge a a padtype padlen < Z.of_nat (axis_len x ax) ->
  exists y,
    snd (_filtfilt a a x axis padtype padlen) = Ok y /\
    shape y = shape x /\
    forall idx, in_bounds (shape x) idx -> get y idx = get x idx.
Proof.
  intros Hacc Hvalid Hax He.
  pose proof (norm_axis_lt _ _ Hax) as Haxlt.
  destruct (@filtfilt_lanes a a x axis padtype padlen ax Hacc Hvalid Hax He)
    as [zi [y [Hzi [Hy [Hs Hl]]]]].
  exists y. split; [exact Hy|]. split; [exact Hs|].
  intros idx Hin.
  pose proof (@in_bounds_off_axis ax _ _ Hin) as Hok.
  destruct (in_bounds_nth Hin) as [_ Hk].
  assert (Hj : (nth ax idx O < axis_len y ax)%nat)
    by (unfold axis_len; rewrite Hs; apply Hk; exact Haxlt).
  assert (Hjx : (nth ax idx O < axis_len x ax)%nat) by (apply Hk; exact Haxlt).
  rewrite (@get_from_lane y ax idx Hj), (@get_from_lane x ax idx Hjx).
  rewrite Hl by exact Hok.
  assert (Hnone : padtype = None -> effective_edge a a padtype padlen = 0)
    by (intros ->; reflexivity).
  rewrite (@filtfilt1_identity a padtype _ zi (lane x ax idx) Hacc Hzi Hnone)
    by (rewrite lane_length; exact He).
  reflexivity.
Qed.

Lemma filtfilt_identity_filter_witness :
  exists y,
    snd (_filtfilt one_pole_a one_pole_a (two_rows (fun _ => 1%Qc) ramp) (-1)
                   (Some "even"%string) (Some 3)) = Ok y /\
    shape y = shape (two_rows (fun _ => 1%Qc) ramp) /\
    forall idx, in_bounds (shape (two_rows (fun _ => 1%Qc) ramp)) idx ->
      get y idx = get (two_rows (fun _ => 1%Qc) ramp) idx.
Proof.
  apply (@filtfilt_identity_filter one_pole_a (two_rows (fun _ => 1%Qc) ramp) (-1)
           (Some "even"%string) (Some 3) 1%nat).
  - repeat split.
    + intro Hq; apply (f_equal this) in Hq; vm_compute in Hq; discriminate.
    + simpl; lia.
    + intro Hq; apply (f_equal this) in Hq; vm_compute in Hq; discriminate.
  - reflexivity.
  - reflexivity.
  - vm_compute. split; [discriminate|reflexivity].
Defined.

(** ** [_filtfilt] is linear in the signal *)

Lemma map2_app {A B C} (f : A -> B -> C) l1 l2 l1' l2' :
  length l1 = length l1' ->
  map2 f (l1 ++ l2) (l1' ++ l2') = map2 f l1 l1' ++ map2 f l2 l2'.
Proof.
  revert l1'; induction l1 as [|x l1 IH]; intros [|x' l1'] H; simpl in *; try lia; auto.
  f_equal. apply IH. lia.
Qed.

Lemma map2_rev {A B C} (f : A -> B -> C) l l' :
  length l = length l' -> rev (map2 f l l') = map2 f (rev l) (rev l').
Proof.
  revert l'; induction l as [|x l IH]; intros [|x' l'] H; simpl in *; try lia; auto.
  rewrite IH by lia. rewrite map2_app by (rewrite !length_rev; lia). reflexivity.
Qed.

Lemma map2_firstn {A B C} (f : A -> B -> C) n l l' :
  firstn n (map2 f l l') = map2 f (firstn n l) (firstn n l').
Proof.
  revert l l'; induction n as [|n IH]; intros [|x l] [|x' l']; simpl; auto.
  now rewrite IH.
Qed.

Lemma map2_skipn {A B C} (f : A -> B -> C) n l l' :
  length l = length l' ->
  skipn n (map2 f l l') = map2 f (skipn n l) (skipn n l').
Proof.
  revert l l'; induction n as [|n IH]; intros [|x l] [|x' l'] H; simpl in *;
    try lia; auto.
Qed.

Lemma map2_tl {A B C} (f : A -> B -> C) l l' :
  length l = length l' -> tl (map2 f l l') = map2 f (tl l) (tl l').
Proof. destruct l, l'; simpl; intros; try lia; auto. Qed.

Lemma map2_repeat {A B C} (f : A -> B -> C) u v n :
  map2 f (repeat u n) (repeat v n) = repeat (f u v) n.
Proof. induction n; simpl; congruence. Qed.

Lemma map2_map_same {A B C D} (f : B -> C -> D) (g : A -> B) (h : A -> C) l :
  map2 f (map g l) (map h l) = map (fun i => f (g i) (h i)) l.
Proof. induction l; simpl; congruence. Qed.

Section Linearity.

Variables alpha beta : Qc.

Lemma lin_length l l' : length l = length l' -> length (lin alpha beta l l') = length l.
Proof. intros H. unfold lin. rewrite map2_length. lia. Qed.

Lemma lin_hd l l' :
  length l = length l' ->
  hd 0%Qc (lin alpha beta l l') = (alpha * hd 0 l + beta * hd 0 l')%Qc.
Proof.
  destruct l, l'; simpl; intros H; try lia; [ring|reflexivity].
Qed.

Lemma lin_last l l' :
  length l = length l' ->
  last (lin alpha beta l l') 0%Qc = (alpha * last l 0 + beta * last l' 0)%Qc.
Proof.
  revert l'; induction l as [|x l IH]; intros [|x' l'] H; simpl in H; try lia.
  - simpl. ring.
  - destruct l as [|y l], l' as [|y' l']; simpl in H; try lia; [reflexivity|].
    specialize (IH (y' :: l') ltac:(simpl; lia)).
    exact IH.
Qed.

Lemma lin_map (g g1 g2 : Qc -> Qc) l l' :
  (forall u v, g (alpha * u + beta * v)%Qc = (alpha * g1 u + beta * g2 v)%Qc) ->
  map g (lin alpha beta l l') = lin alpha beta (map g1 l) (map g2 l').
Proof.
  intros Hg. revert l'; induction l as [|x l IH]; intros [|x' l']; simpl; auto.
  unfold lin in *. cbn [map2]. rewrite Hg. f_equal. apply IH.
Qed.

Lemma lin_left_ext l l' n :
  length l = length l' ->
  left_ext (lin alpha beta l l') n = lin alpha beta (left_ext l n) (left_ext l' n).
Proof.
  intros H. unfold left_ext, lin.
  rewrite map2_tl, map2_firstn, map2_rev by
      (rewrite ?length_firstn, ?length_tl; lia).
  reflexivity.
Qed.

Lemma lin_right_ext l l' n :
  length l = length l' ->
  right_ext (lin alpha beta l l') n = lin alpha beta (right_ext l n) (right_ext l' n).
Proof.
  intros H. unfold right_ext, lin.
  rewrite map2_rev, map2_tl, map2_firstn by (rewrite ?length_rev; lia).
  reflexivity.
Qed.

Lemma left_ext_length_eq (l l' : list Qc) n :
  length l = length l' -> length (left_ext l n) = length (left_ext l' n).
Proof.
  intros H. unfold left_ext. rewrite !length_rev, !length_firstn, !length_tl. lia.
Qed.

Lemma right_ext_length_eq (l l' : list Qc) n :
  length l = length l' -> length (right_ext l n) = length (right_ext l' n).
Proof.
  intros H. unfold right_ext. rewrite !length_firstn, !length_tl, !length_rev. lia.
Qed.

Lemma ext1_length_eq padtype edge (l l' : list Qc) :
  length l = length l' -> length (ext1 padtype edge l) = length (ext1 padtype edge l').
Proof.
  intros H. unfold ext1. destruct padtype as [kind|]; [|exact H].
  destruct (0 <? edge); [|exact H].
  pose proof (@left_ext_length_eq l l' (Z.to_nat edge) H) as HL.
  pose proof (@right_ext_length_eq l l' (Z.to_nat edge) H) as HR.
  destruct (String.eqb kind "even"); [|destruct (String.eqb kind "odd")].
  - unfold even_ext1. rewrite !length_app. lia.
  - unfold odd_ext1. rewrite !length_app, !length_map. lia.
  - unfold const_ext1. rewrite !length_app, !repeat_length. lia.
Qed.

Lemma ext1_lin padtype edge l l' :
  length l = length l' ->
  ext1 padtype edge (lin alpha beta l l')
  = lin alpha beta (ext1 padtype edge l) (ext1 padtype edge l').
Proof.
  intros H. unfold ext1. destruct padtype as [kind|]; [|reflexivity].
  destruct (0 <? edge); [|reflexivity].
  pose proof (@left_ext_length_eq l l' (Z.to_nat edge) H) as HL.
  destruct (String.eqb kind "even"); [|destruct (String.eqb kind "odd")].
  - unfold even_ext1. rewrite lin_left_ext, lin_right_ext by exact H.
    unfold lin. rewrite !map2_app by (try exact HL; exact H). reflexivity.
  - unfold odd_ext1. rewrite lin_left_ext, lin_right_ext, lin_hd, lin_last by exact H.
    rewrite (@lin_map _ (fun v => Q2Qc 2 * hd 0 l - v)%Qc (fun v => Q2Qc 2 * hd 0 l' - v)%Qc)
      by (intros; ring).
    rewrite (@lin_map _ (fun v => Q2Qc 2 * last l 0 - v)%Qc
                      (fun v => Q2Qc 2 * last l' 0 - v)%Qc)
      by (intros; ring).
    unfold lin. rewrite !map2_app by (rewrite ?length_map; try exact HL; exact H).
    reflexivity.
  - unfold const_ext1. rewrite lin_hd, lin_last by exact H.
    unfold lin. rewrite !map2_app by (rewrite ?repeat_length; auto).
    now rewrite !map2_repeat.
Qed.

Lemma py_slice_lin l l' start stop :
  length l = length l' ->
  py_slice (lin alpha beta l l') start stop
  = lin alpha beta (py_slice l start stop) (py_slice l' start stop).
Proof.
  intros H. unfold py_slice. rewrite lin_length by exact H. rewrite <- H.
  destruct (slice_bounds (length l) start stop) as [lo cnt].
  unfold lin. now rewrite map2_skipn, map2_firstn.
Qed.

Lemma scale_lin (s s' : Qc) zi :
  map (fun z => z * (alpha * s + beta * s'))%Qc zi
  = lin alpha beta (map (fun z => z * s)%Qc zi) (map (fun z => z * s')%Qc zi).
Proof.
  unfold lin. rewrite map2_map_same. apply map_ext. intros z. ring.
Qed.

(** The delays after one sample are linear in the sample, the output
    and the delays before it. *)
Lemma delays_lin tb ta (x x' y y' : Qc) C C' :
  length C = length C' ->
  map2 Qcplus (map2 (fun bi ai => bi * (alpha * x + beta * x')
                                   - ai * (alpha * y + beta * y'))%Qc tb ta)
              (lin alpha beta C C')
  = lin alpha beta
        (map2 Qcplus (map2 (fun bi ai => bi * x - ai * y)%Qc tb ta) C)
        (map2 Qcplus (map2 (fun bi ai => bi * x' - ai * y')%Qc tb ta) C').
Proof.
  revert ta C C'; induction tb as [|bi tb IH]; intros [|ai ta] [|c C] [|c' C'] H;
    simpl in *; try lia; auto.
  unfold lin in *. cbn [map2]. rewrite IH by lia. f_equal. ring.
Qed.

Lemma shift_lin z z' :
  length z = length z' ->
  tl (lin alpha beta z z') ++ [0%Qc] = lin alpha beta (tl z ++ [0%Qc]) (tl z' ++ [0%Qc]).
Proof.
  intros H. unfold lin. rewrite map2_tl by exact H.
  rewrite map2_app by (rewrite !length_tl; lia).
  cbn [map2]. do 2 f_equal. ring.
Qed.

Lemma lfilter_step_lin b a z z' (x x' : Qc) :
  length z = length z' ->
  lfilter_step b a (lin alpha beta z z') (alpha * x + beta * x')%Qc
  = ((alpha * fst (lfilter_step b a z x) + beta * fst (lfilter_step b a z' x'))%Qc,
     lin alpha beta (snd (lfilter_step b a z x)) (snd (lfilter_step b a z' x'))).
Proof.
  intros H. unfold lfilter_step. cbn [fst snd].
  assert (Hy : (hd 0 b * (alpha * x + beta * x') + hd 0 (lin alpha beta z z'))%Qc
               = (alpha * (hd 0 b * x + hd 0 z) + beta * (hd 0 b * x' + hd 0 z'))%Qc)
    by (rewrite lin_hd by exact H; ring).
  rewrite Hy, shift_lin by exact H.
  rewrite delays_lin by (rewrite !length_app, !length_tl; simpl; lia).
  reflexivity.
Qed.

Lemma lfilter_step_state_length b a z z' (x x' : Qc) :
  length z = length z' ->
  length (snd (lfilter_step b a z x)) = length (snd (lfilter_step b a z' x')).
Proof.
  intros H. unfold lfilter_step. cbn [snd].
  rewrite !map2_length, !length_app, !length_tl. simpl. lia.
Qed.

Lemma lfilter1_lin b a z z' xs xs' :
  length z = length z' ->
  length xs = length xs' ->
  fst (lfilter1 b a (lin alpha beta z z') (lin alpha beta xs xs'))
  = lin alpha beta (fst (lfilter1 b a z xs)) (fst (lfilter1 b a z' xs')).
Proof.
  revert z z' xs'; induction xs as [|x xs IH]; intros z z' [|x' xs'] Hz Hx;
    simpl in Hx; try lia; [reflexivity|].
  unfold lin at 2. cbn [map2]. fold (lin alpha beta xs xs').
  cbn [lfilter1]. rewrite lfilter_step_lin by exact Hz.
  pose proof (@lfilter_step_state_length b a z z' x x' Hz) as Hlen.
  destruct (lfilter_step b a z x) as [y zn].
  destruct (lfilter_step b a z' x') as [y' zn']. cbn [fst snd] in *.
  specialize (IH zn zn' xs' Hlen ltac:(lia)).
  destruct (lfilter1 b a (lin alpha beta zn zn') (lin alpha beta xs xs')) as [ys zf].
  destruct (lfilter1 b a zn xs) as [ys1 zf1].
  destruct (lfilter1 b a zn' xs') as [ys2 zf2].
  cbn [fst] in *. rewrite IH. reflexivity.
Qed.

Lemma lin_rev l l' :
  length l = length l' -> rev (lin alpha beta l l') = lin alpha beta (rev l) (rev l').
Proof. intros H. unfold lin. now apply map2_rev. Qed.

Lemma py_slice_length_eq (l l' : list Qc) start stop :
  length l = length l' ->
  length (py_slice l start stop) = length (py_slice l' start stop).
Proof.
  intros H. unfold py_slice. rewrite <- H.
  destruct (slice_bounds (length l) start stop).
  rewrite !length_firstn, !length_skipn. lia.
Qed.

Lemma filtfilt1_lin b a padtype edge zi l l' :
  length l = length l' ->
  _filtfilt1 b a padtype edge zi (lin alpha beta l l')
  = lin alpha beta (_filtfilt1 b a padtype edge zi l) (_filtfilt1 b a padtype edge zi l').
Proof.
  intros H. unfold _filtfilt1. cbv zeta.
  set (N := Nat.max (length a) (length b)).
  set (b' := normalize N (hd 0%Qc a) b). set (a' := normalize N (hd 0%Qc a) a).
  pose proof (@ext1_length_eq padtype edge l l' H) as Hext.
  set (e := ext1 padtype edge l) in *. set (e' := ext1 padtype edge l') in *.
  rewrite ext1_lin by exact H. fold e e'.
  rewrite (@py_slice_lin e e' None (Some 1%Z) Hext).
  rewrite lin_hd by now apply py_slice_length_eq.
  rewrite scale_lin.
  rewrite lfilter1_lin by (rewrite ?length_map; auto).
  set (s := hd 0%Qc (py_slice e None (Some 1%Z))).
  set (s' := hd 0%Qc (py_slice e' None (Some 1%Z))).
  set (y := fst (lfilter1 b' a' (map (fun z => (z * s)%Qc) zi) e)).
  set (y' := fst (lfilter1 b' a' (map (fun z => (z * s')%Qc) zi) e')).
  assert (Hy : length y = length y') by (unfold y, y'; now rewrite !lfilter1_length).
  rewrite (@py_slice_lin y y' (Some (-1)%Z) None Hy).
  rewrite lin_hd by now apply py_slice_length_eq.
  rewrite scale_lin.
  rewrite (@lin_rev y y' Hy).
  rewrite lfilter1_lin by (rewrite ?length_map, ?length_rev; auto).
  set (t := hd 0%Qc (py_slice y (Some (-1)%Z) None)).
  set (t' := hd 0%Qc (py_slice y' (Some (-1)%Z) None)).
  set (w := fst (lfilter1 b' a' (map (fun z => (z * t)%Qc) zi) (rev y))).
  set (w' := fst (lfilter1 b' a' (map (fun z => (z * t')%Qc) zi) (rev y'))).
  assert (Hw : length w = length w')
    by (unfold w, w'; rewrite !lfilter1_length, !length_rev; exact Hy).
  rewrite (@lin_rev w w' Hw).
  destruct (0 <? edge); [|reflexivity].
  apply py_slice_lin. now rewrite !length_rev.
Qed.

End Linearity.

(** X22: [_filtfilt] is linear in the signal.  When the samples of a
    signal are [alpha] times those of [x] plus [beta] times those of
    [x'], its result is the same combination of the results for [x] and
    [x']. *)
Theorem filtfilt_linear (b a : list Qc) (x x' xs : ndarray) (axis : Z)
        (padtype : option string) (padlen : option Z) (ax : nat) (alpha beta : Qc) :
  accepted_filter b a ->
  padtype_valid padtype = true ->
  norm_axis (ndim x) axis = Ok ax ->
  0 <= effective_edge b a padtype padlen < Z.of_nat (axis_len x ax) ->
  shape x' = shape x ->
  shape xs = shape x ->
  (forall idx, in_bounds (shape x) idx ->
     get xs idx = (alpha * get x idx + beta * get x' idx)%Qc) ->
  exists y y' ys,
    snd (_filtfilt b a x axis padtype padlen) = Ok y /\
    snd (_filtfilt b a x' axis padtype padlen) = Ok y' /\
    snd (_filtfilt b a xs axis padtype padlen) = Ok ys /\
    forall idx, in_bounds (shape x) idx ->
      get ys idx = (alpha * get y idx + beta * get y' idx)%Qc.
Proof.
  intros Hacc Hvalid Hax He Hs' Hss Hcomb.
  pose proof (norm_axis_lt _ _ Hax) as Haxlt.
  assert (Hax' : norm_axis (ndim x') axis = Ok ax) by (unfold ndim; now rewrite Hs').
  assert (Haxs : norm_axis (ndim xs) axis = Ok ax) by (unfold ndim; now rewrite Hss).
  assert (He' : 0 <= effective_edge b a padtype padlen < Z.of_nat (axis_len x' ax))
    by (unfold axis_len; now rewrite Hs').
  assert (Hes : 0 <= effective_edge b a padtype padlen < Z.of_nat (axis_len xs ax))
    by (unfold axis_len; now rewrite Hss).
  destruct (@filtfilt_lanes b a x axis padtype padlen ax Hacc Hvalid Hax He)
    as [zi [y [Hzi [Hy [Hys Hl]]]]].
  destruct (@filtfilt_lanes b a x' axis padtype padlen ax Hacc Hvalid Hax' He')
    as [zi' [y' [Hzi' [Hy' [Hys' Hl']]]]].
  destruct (@filtfilt_lanes b a xs axis padtype padlen ax Hacc Hvalid Haxs Hes)
    as [zis [ys [Hzis [Hyss [Hyss' Hls]]]]].
  rewrite Hzi in Hzi', Hzis. injection Hzi' as <-. injection Hzis as <-.
  exists y, y', ys. repeat (split; [assumption|]).
  intros idx Hin.
  pose proof (@in_bounds_off_axis ax _ _ Hin) as Hok.
  destruct (in_bounds_nth Hin) as [_ Hk].
  specialize (Hk ax Haxlt). fold (axis_len x ax) in Hk.
  assert (Hn : axis_len y ax = axis_len x ax) by (unfold axis_len; now rewrite Hys).
  assert (Hn' : axis_len y' ax = axis_len x ax) by (unfold axis_len; now rewrite Hys', Hs').
  assert (Hns : axis_len ys ax = axis_len x ax) by (unfold axis_len; now rewrite Hyss', Hss).
  rewrite (@get_from_lane ys ax idx) by lia.
  rewrite (@get_from_lane y ax idx) by lia.
  rewrite (@get_from_lane y' ax idx) by lia.
  assert (Hlane : lane xs ax idx = lin alpha beta (lane x ax idx) (lane x' ax idx)).
  { unfold lane, lin, axis_len. rewrite Hss, Hs', map2_map_same.
    apply map_ext_in. intros i Hi. apply in_seq in Hi.
    apply Hcomb. apply in_bounds_list_set; auto. lia. }
  rewrite Hls by (rewrite Hss; exact Hok).
  rewrite Hlane, filtfilt1_lin by (rewrite !lane_length; unfold axis_len; now rewrite Hs').
  rewrite <- Hl by exact Hok. rewrite <- Hl' by (rewrite Hs'; exact Hok).
  unfold lin.
  apply (@nth_map2 _ _ _ (fun u v => (alpha * u + beta * v)%Qc)
                   (lane y ax idx) (lane y' ax idx) (nth ax idx O) 0%Qc 0%Qc 0%Qc);
    rewrite lane_length; lia.
Qed.

Lemma filtfilt_linear_witness :
  exists y y' ys,
    snd (_filtfilt one_pole_b one_pole_a (two_rows (fun _ => 1%Qc) ramp) (-1)
                   (Some "odd"%string) None) = Ok y /\
    snd (_filtfilt one_pole_b one_pole_a (two_rows ramp (fun _ => 1%Qc)) (-1)
                   (Some "odd"%string) None) = Ok y' /\
    snd (_filtfilt one_pole_b one_pole_a
                   (two_rows (fun j => Q2Qc 2 * 1 + Q2Qc 3 * ramp j)%Qc
                             (fun j => Q2Qc 2 * ramp j + Q2Qc 3 * 1)%Qc) (-1)
                   (Some "odd"%string) None) = Ok ys /\
    forall idx, in_bounds (shape (two_rows (fun _ => 1%Qc) ramp)) idx ->
      get ys idx = (Q2Qc 2 * get y idx + Q2Qc 3 * get y' idx)%Qc.
Proof.
  apply (@filtfilt_linear one_pole_b one_pole_a
           (two_rows (fun _ => 1%Qc) ramp) (two_rows ramp (fun _ => 1%Qc))
           (two_rows (fun j => Q2Qc 2 * 1 + Q2Qc 3 * ramp j)%Qc
                     (fun j => Q2Qc 2 * ramp j + Q2Qc 3 * 1)%Qc)
           (-1) (Some "odd"%string) None 1%nat (Q2Qc 2) (Q2Qc 3)).
  - exact one_pole_accepted.
  - reflexivity.
  - reflexivity.
  - vm_compute. split; [discriminate|reflexivity].
  - reflexivity.
  - reflexivity.
  - intros idx _. unfold two_rows. cbn [get].
    destruct (Nat.eqb (nth 0 idx O) 0); reflexivity.
Defined.

(** ** [_bincount] without weights *)

Lemma count_at_occ X k : count_at X k = Z.of_nat (count_occ Z.eq_dec X k).
Proof.
  unfold count_at. f_equal. induction X as [|v X IH]; [reflexivity|].
  cbn [filter count_occ].
  destruct (Z.eqb_spec k v) as [He|Hne], (Z.eq_dec v k); try congruence;
    cbn [length]; lia.
Qed.

Lemma fold_max_bound X v : In v X -> v <= fold_right Z.max 0 X.
Proof.
  induction X as [|w X IH]; intros [].
  - subst. cbn [fold_right]. lia.
  - cbn [fold_right]. specialize (IH H). lia.
Qed.

Lemma nth_bins X k :
  0 <= k <= fold_right Z.max 0 X -> nth (Z.to_nat k) (bins X) 0 = k.
Proof.
  intros Hk. unfold bins.
  rewrite (@nth_map_in _ _ Z.of_nat _ (Z.to_nat k) O 0) by (rewrite length_seq; lia).
  rewrite seq_nth by lia. lia.
Qed.

Lemma bins_length X : Z.of_nat (length (bins X)) = fold_right Z.max 0 X + 1.
Proof.
  unfold bins. rewrite length_map, length_seq.
  assert (0 <= fold_right Z.max 0 X) by (induction X; cbn [fold_right]; lia).
  lia.
Qed.

(** X23: counting without weights.  For a non-empty array of
    non-negative integers the result has [max(minlength, max(X) + 1)]
    entries, and entry [k] is the number of times [k] occurs in [X]. *)
Theorem bincount_counts_occurrences (X : list Z) (minlength : Z) :
  X <> [] ->
  Forall (fun v => 0 <= v) X ->
  exists out,
    _bincount X None (Some minlength) = Ok (IntArray out) /\
    Z.of_nat (length out) = Z.max minlength (fold_right Z.max 0 X + 1) /\
    forall k, 0 <= k < Z.of_nat (length out) ->
      nth (Z.to_nat k) out 0 = Z.of_nat (count_occ Z.eq_dec X k).
Proof.
  intros Hne Hpos.
  assert (Hneg : existsb (fun v => v <? 0) X = false).
  { apply existsb_nth_false with (d := 0). intros i Hi.
    rewrite Forall_forall in Hpos. apply Z.ltb_ge, Hpos, nth_In, Hi. }
  assert (Hnative : np_bincount X None = Ok (IntArray (map (count_at X) (bins X)))).
  { unfold np_bincount. rewrite Hneg. destruct X; [contradiction|reflexivity]. }
  set (r := map (count_at X) (bins X)) in *.
  assert (Hlr : Z.of_nat (length r) = fold_right Z.max 0 X + 1)
    by (unfold r; rewrite length_map; apply bins_length).
  assert (Hr : forall k, 0 <= k < Z.of_nat (length r) ->
                 nth (Z.to_nat k) r 0 = Z.of_nat (count_occ Z.eq_dec X k)).
  { intros k Hk. unfold r in *. rewrite length_map in Hk.
    pose proof (bins_length X) as Hb.
    rewrite (@nth_map_in _ _ (count_at X) (bins X) (Z.to_nat k) 0 0) by lia.
    rewrite nth_bins by lia. apply count_at_occ. }
  assert (Hbeyond : forall k, fold_right Z.max 0 X < k -> count_occ Z.eq_dec X k = O).
  { intros k Hk. apply count_occ_not_In. intros Hin.
    pose proof (fold_max_bound _ _ Hin). lia. }
  unfold _bincount. rewrite Hnative. cbn [rbind len_ge len astype_int].
  destruct (Z.leb_spec minlength (Z.of_nat (length r))) as [Hle|Hgt].
  - exists r. split; [reflexivity|]. split; [lia|]. exact Hr.
  - unfold assign_prefix, np_zeros_int. rewrite repeat_length.
    assert (Hmin : Nat.min (Z.to_nat (Z.of_nat (length r))) (Z.to_nat minlength) = length r)
      by lia.
    rewrite Hmin, Nat.eqb_refl. cbn [rbind].
    eexists; split; [reflexivity|].
    rewrite length_app, length_skipn, repeat_length. split; [lia|].
    intros k Hk.
    destruct (Z.lt_ge_cases k (Z.of_nat (length r))) as [Hin|Hout].
    + rewrite app_nth1 by lia. apply Hr. lia.
    + rewrite app_nth2 by lia. rewrite skipn_repeat.
      rewrite nth_repeat_in by lia. rewrite Hbeyond by lia. reflexivity.
Qed.

Lemma bincount_counts_occurrences_witness :
  exists out,
    _bincount [0; 1; 1; 3] None (Some 6) = Ok (IntArray out) /\
    Z.of_nat (length out) = Z.max 6 (fold_right Z.max 0 [0; 1; 1; 3] + 1) /\
    forall k, 0 <= k < Z.of_nat (length out) ->
      nth (Z.to_nat k) out 0 = Z.of_nat (count_occ Z.eq_dec [0; 1; 1; 3] k).
Proof.
  apply (@bincount_counts_occurrences [0; 1; 1; 3] 6).
  - discriminate.
  - repeat constructor; lia.
Defined.
